(** * The mirror job engine of the registry: a shallow embedding

    The development follows the three source files of the engine:

    - [registry/api/v2/mirror.go]: the job record [ImageMirror], its state
      machine ([IsPending], [UpdateStatue]), progress bookkeeping
      ([UpdateImagePrecent]) and the per-image blob synchronisation
      ([MirrorImage]);
    - [registry/proxy/proxymirror.go]: the controller with its job registry
      ([getim], [delim]), its eviction sweep ([gc]) and the transfer run
      ([mirrorimages]);
    - the external collaborators (remote and local repositories, manifest
      services, blob stores) appear as records of oracles.

    Go values are modelled as they are declared: [int] and [int64] as [Z]
    with the 64-bit wrap-around written out, [string] as [string], [error]
    as [option string] ([None] is [nil]), a [(value, error)] result as a sum,
    Go maps as [gmap], slices as lists, [*ImageMirror] as a location into a
    store of jobs, a run-time panic as a separate outcome. *)

From stdpp Require Import gmap strings list fin_maps.
From Stdlib Require Import ZArith Lia.

Local Open Scope Z_scope.
Local Open Scope string_scope.

(** ** Machine integers *)

Module Int64.

Definition min_int64 : Z := - 2 ^ 63.
Definition max_int64 : Z := 2 ^ 63 - 1.

(** Two's complement wrap-around of a mathematical integer into [int64]. *)
Definition wrap (z : Z) : Z := (z + 2 ^ 63) mod 2 ^ 64 - 2 ^ 63.

Definition in_range (z : Z) : Prop := min_int64 <= z <= max_int64.

(** [a * b] on [int64]: the product wraps silently. *)
Definition mul (a b : Z) : Z := wrap (a * b).

(** [a / b] on [int64]: truncation towards zero; [None] is the run-time
    panic of an integer division by zero. *)
Definition div (a b : Z) : option Z :=
  if decide (b = 0) then None else Some (wrap (Z.quot a b)).

End Int64.

(** ** Outcomes of a Go call *)

(** A call either returns or panics (nil dereference, index out of range,
    integer division by zero, failed type assertion).  The panic keeps the
    state reached when it was raised. *)
Inductive outcome (A : Type) : Type :=
  | Returns (a : A)
  | Panics (a : A).
Arguments Returns {A} a.
Arguments Panics {A} a.

(** ** Descriptors and manifests (package [distribution]) *)

Module Distribution.

Record Platform := {
  Architecture : string;
  OS : string;
}.

Record Descriptor := {
  MediaType : string;
  Size : Z;
  Digest : string;
  Platform_ : option Platform;
}.

(** An entry of a manifest list: a descriptor and its platform. *)
Record ManifestDescriptor := {
  Descriptor_ : Descriptor;
  PlatformSpec : Platform;
}.

(** The dynamic type of a [distribution.Manifest] value.  Only a
    [ManifestList] passes the type assertion to a deserialized manifest
    list that the index branch of the transfer run performs. *)
Inductive Manifest :=
  | ImageManifest (references : list Descriptor)
  | ManifestList (manifests : list ManifestDescriptor).

Definition References (m : Manifest) : list Descriptor :=
  match m with
  | ImageManifest refs => refs
  | ManifestList mds => Descriptor_ <$> mds
  end.

Record ManifestService := {
  Get : string -> Manifest + string;
}.

(** The capabilities of a [distribution.Repository] that the engine uses.
    [Blobs_Stat] and [Blobs_Get] give the error of
    [Blobs(ctx).Stat(ctx, dgst)] and [Blobs(ctx).Get(ctx, dgst)]. *)
Record Repository := {
  Manifests : ManifestService + string;
  Blobs_Stat : string -> option string;
  Blobs_Get : string -> option string;
  Tags_Get : string -> Descriptor + string;
}.

End Distribution.

(** ** [registry/api/v2/mirror.go] *)

Module V2.

Import Distribution.

Definition Phase := string.
Definition Pending : Phase := "Pending".
Definition Mirroring : Phase := "Mirroring".
Definition Mirrored : Phase := "Mirrored".

Definition Code := Z.
Definition Success : Code := 100.
Definition NameInvalid : Code := 101.
Definition NameNotFound : Code := 102.
Definition TagInvalid : Code := 103.
Definition TagNotFound : Code := 104.
Definition Unknown : Code := 105.
Definition UnknownMediaType : Code := 106.

Record Blob := {
  Precent : Z;
  Size : Z;
  Error : option string;
  Speed : string;
}.

Record Image := {
  Architecture : string;
  OS : string;
  Digest : string;
  Blobs : gmap string Blob;
}.

(** [time.Time] is an instant in nanoseconds on the clock that [After]
    compares; [reference.Named] is represented by the string that [Name()]
    and [String()] return.  Images and blobs are held by value: every
    [*Image] and [*Blob] is allocated by [MirrorImage] and is reachable from
    one slot of one job only. *)
Record ImageMirror := {
  Name : string;
  Tag : string;
  CreateTime : Z;
  Phase_ : Phase;
  Message : string;
  Code_ : Code;
  Images : list Image;
  name : string;
  blobToImages : gmap string Z;
}.

(** Field updates. *)

Definition set_Precent (p : Z) (b : Blob) : Blob :=
  {| Precent := p; Size := Size b; Error := Error b; Speed := Speed b |}.

Definition set_Error (e : option string) (b : Blob) : Blob :=
  {| Precent := Precent b; Size := Size b; Error := e; Speed := Speed b |}.

Definition set_Blobs (bs : gmap string Blob) (i : Image) : Image :=
  {| Architecture := Architecture i; OS := OS i; Digest := Digest i;
     Blobs := bs |}.

Definition set_Platform (arch os : string) (i : Image) : Image :=
  {| Architecture := arch; OS := os; Digest := Digest i; Blobs := Blobs i |}.

Definition set_Phase (p : Phase) (im : ImageMirror) : ImageMirror :=
  {| Name := Name im; Tag := Tag im; CreateTime := CreateTime im;
     Phase_ := p; Message := Message im; Code_ := Code_ im;
     Images := Images im; name := name im;
     blobToImages := blobToImages im |}.

Definition set_Message (m : string) (im : ImageMirror) : ImageMirror :=
  {| Name := Name im; Tag := Tag im; CreateTime := CreateTime im;
     Phase_ := Phase_ im; Message := m; Code_ := Code_ im;
     Images := Images im; name := name im;
     blobToImages := blobToImages im |}.

Definition set_Code (c : Code) (im : ImageMirror) : ImageMirror :=
  {| Name := Name im; Tag := Tag im; CreateTime := CreateTime im;
     Phase_ := Phase_ im; Message := Message im; Code_ := c;
     Images := Images im; name := name im;
     blobToImages := blobToImages im |}.

Definition set_Images (imgs : list Image) (im : ImageMirror) : ImageMirror :=
  {| Name := Name im; Tag := Tag im; CreateTime := CreateTime im;
     Phase_ := Phase_ im; Message := Message im; Code_ := Code_ im;
     Images := imgs; name := name im;
     blobToImages := blobToImages im |}.

Definition set_blobToImages (m : gmap string Z) (im : ImageMirror)
  : ImageMirror :=
  {| Name := Name im; Tag := Tag im; CreateTime := CreateTime im;
     Phase_ := Phase_ im; Message := Message im; Code_ := Code_ im;
     Images := Images im; name := name im;
     blobToImages := m |}.

(** [NewImageMirror(name, tag)]; [now] is the value of [time.Now()]. *)
Definition NewImageMirror (now : Z) (nm tag : string) : ImageMirror :=
  {| Name := nm; Tag := tag; CreateTime := now; Phase_ := Pending;
     Message := ""; Code_ := 0; Images := []; name := nm;
     blobToImages := ∅ |}.

(** [IsPending] run without interference: the lock is taken and released,
    then the phase is read and, when it is [Pending], overwritten. *)
Definition IsPending (im : ImageMirror) : ImageMirror * bool :=
  let isPending := bool_decide (Phase_ im = Pending) in
  (if isPending then set_Phase Mirroring im else im, isPending).

(** [UpdateStatue(code, message)]. *)
Definition UpdateStatue (code : Code) (message : string) (im : ImageMirror)
  : ImageMirror :=
  let im := set_Code code im in
  if bool_decide (message ≠ "") then set_Message message im
  else if bool_decide (code = NameInvalid) then
    set_Message "repository name invalid" im
  else if bool_decide (code = TagNotFound) then
    set_Message "tag not found" im
  else if bool_decide (code = Success) then
    set_Phase Mirrored (set_Message "mirror successed" im)
  else im.

(** [int(size * 100 / layer.Size)] on [int64]; [int] is 64 bits wide. *)
Definition precent_of (size layerSize : Z) : option Z :=
  Int64.div (Int64.mul size 100) layerSize.

(** [UpdateImagePrecent(dig, size)]: the job after the call together with
    the returned [error], or a panic. *)
Definition UpdateImagePrecent (dig : string) (size : Z) (im : ImageMirror)
  : outcome (ImageMirror * option string) :=
  match blobToImages im !! dig with
  | None =>
      Returns (im, Some ("ImageMirror " ++ name im ++ ": not found digest "
                         ++ dig))
  | Some idx =>
      if bool_decide (idx >= Z.of_nat (length (Images im))) then
        Returns (im, Some ("ImageMirror " ++ name im ++ ": digest " ++ dig
                     ++ " found images index lager than len(im.Images)"))
      else
        if bool_decide (idx < 0) then Panics (im, None) else
        match Images im !! Z.to_nat idx with
        | None => Panics (im, None)
        | Some img =>
            match Blobs img !! dig with
            | None =>
                Returns (im, Some ("ImageMirror " ++ name im
                            ++ ": not found image layer for digest " ++ dig))
            | Some layer =>
                match precent_of size (Size layer) with
                | None => Panics (im, None)
                | Some p =>
                    let img' :=
                      set_Blobs (<[dig := set_Precent p layer]> (Blobs img))
                                img in
                    Returns
                      (set_Images (<[Z.to_nat idx := img']> (Images im)) im,
                       None)
                end
            end
        end
  end.

(** *** [MirrorImage]: blob synchronisation of one platform image *)

(** The media types accepted by the [switch] of the loop. *)
Definition blob_media_types : list string :=
  [ "application/vnd.docker.container.image.v1+json";
    "application/vnd.oci.image.config.v1+json";
    "application/vnd.docker.image.rootfs.diff.tar.gzip";
    "application/vnd.in-toto+json";
    "application/vnd.oci.image.layer.v1.tar+gzip" ].

(** The state of a transfer run: the job, the digests for which a fetch
    goroutine has been started (oldest first), and the goroutines started
    and not waited for, each with the index of its image and its digest. *)
Record Transfer := {
  job : ImageMirror;
  fetched : list string;
  running : list (nat * string);
}.

(** Mutation through the pointer [img], which is [im.Images[idx]]. *)
Definition with_image (idx : nat) (f : Image -> Image) (im : ImageMirror)
  : ImageMirror :=
  set_Images (alter f idx (Images im)) im.

Definition new_Blob (size : Z) : Blob :=
  {| Precent := 100; Size := size; Error := None; Speed := "" |}.

(** The [for _, d := range descs] loop.  [wg] lists the digests of the
    goroutines added to the wait group so far.  The third component is the
    error of the early [return] of the [default] branch. *)
Fixpoint sync_blobs (localrepo : Repository) (idx : nat)
    (descs : list Descriptor) (im : ImageMirror) (wg : list string)
  : ImageMirror * list string * option string :=
  match descs with
  | [] => (im, wg, None)
  | d :: descs =>
      if bool_decide (MediaType d ∈ blob_media_types) then
        let dg := Distribution.Digest d in
        let im :=
          with_image idx
            (fun img =>
               set_Blobs (<[dg := new_Blob (Distribution.Size d)]>
                            (Blobs img)) img) im in
        match Blobs_Stat localrepo dg with
        | None => sync_blobs localrepo idx descs im wg
        | Some _ =>
            let im :=
              set_blobToImages
                (<[dg := Z.of_nat (length (Images im)) - 1]>
                   (blobToImages im)) im in
            let im :=
              with_image idx
                (fun img =>
                   set_Blobs (alter (set_Precent 0) dg (Blobs img)) img)
                im in
            sync_blobs localrepo idx descs im (wg ++ [dg])
        end
      else (im, wg, Some ("unknown mediatype " ++ MediaType d))
  end.

(** [wg.Wait()]: every goroutine of the wait group runs to its end.  A
    goroutine fetches its blob from the remote repository and, on error,
    stores the error in [img.Blobs[dgst]] and raises [getBlobError]. *)
Fixpoint wait (repo : Repository) (idx : nat) (wg : list string)
    (im : ImageMirror) (getBlobError : bool)
  : outcome (ImageMirror * bool) :=
  match wg with
  | [] => Returns (im, getBlobError)
  | dgst :: wg =>
      match Blobs_Get repo dgst with
      | None => wait repo idx wg im getBlobError
      | Some err =>
          match Images im !! idx ≫= (fun img => Blobs img !! dgst) with
          | None => Panics (im, getBlobError)
          | Some b =>
              let im :=
                with_image idx
                  (fun img =>
                     set_Blobs (<[dgst := set_Error (Some err) b]>
                                  (Blobs img)) img) im in
              wait repo idx wg im true
          end
      end
  end.

Definition new_Image (desc : Descriptor) : Image :=
  let img := {| Architecture := ""; OS := "";
                Digest := Distribution.Digest desc; Blobs := ∅ |} in
  match Platform_ desc with
  | Some p => set_Platform (Distribution.Architecture p)
                           (Distribution.OS p) img
  | None => img
  end.

(** [MirrorImage(repo, localrepo, desc, manifest)]: the transfer state
    after the call and the returned [error]. *)
Definition MirrorImage (repo localrepo : Repository) (desc : Descriptor)
    (manifest : Manifest) (t : Transfer)
  : outcome (Transfer * option string) :=
  let idx := length (Images (job t)) in
  let im := set_Images (Images (job t) ++ [new_Image desc]) (job t) in
  match sync_blobs localrepo idx (References manifest) im [] with
  | (im, wg, Some err) =>
      (* early return: the goroutines of [wg] are left running *)
      Returns ({| job := im; fetched := fetched t ++ wg;
                  running := running t ++ ((fun d => (idx, d)) <$> wg) |},
               Some err)
  | (im, wg, None) =>
      match wait repo idx wg im false with
      | Panics (im, _) =>
          Panics ({| job := im; fetched := fetched t ++ wg;
                     running := running t |}, None)
      | Returns (im, getBlobError) =>
          Returns ({| job := im; fetched := fetched t ++ wg;
                      running := running t |},
                   if getBlobError then Some "download blob error"
                   else None)
      end
  end.

End V2.

(** ** [registry/proxy/proxymirror.go] *)

Module Proxy.

Import Distribution V2.

(** *** The controller and its job registry *)

(** A [*v2.ImageMirror]. *)
Definition loc := positive.

(** [mirrors] is the field [c.mirrors]; [heap] holds the jobs that the
    pointers stored in it, or held by callers, address. *)
Record MirrorController := {
  mirrors : gmap string loc;
  heap : gmap loc ImageMirror;
}.

Definition set_mirrors (m : gmap string loc) (c : MirrorController)
  : MirrorController :=
  {| mirrors := m; heap := heap c |}.

Definition set_heap (h : gmap loc ImageMirror) (c : MirrorController)
  : MirrorController :=
  {| mirrors := mirrors c; heap := h |}.

(** [ref := name.Name() + ":" + tag]. *)
Definition ref_of (nm tag : string) : string := nm ++ ":" ++ tag.

(** Allocation of a job: [&ImageMirror{...}] has an address not in use. *)
Definition alloc (im : ImageMirror) (c : MirrorController)
  : loc * MirrorController :=
  let l := fresh (dom (heap c)) in
  (l, set_heap (<[l := im]> (heap c)) c).

(** The section of [getim] under the read lock:
    [im, ok := c.mirrors[ref]]. *)
Definition getim_lookup (ref : string) (c : MirrorController) : option loc :=
  mirrors c !! ref.

(** The section of [getim] under the write lock: [l] is the job created
    after the miss; the map is looked up again and [l] is stored only when
    the key is still absent. *)
Definition getim_insert (ref : string) (l : loc) (c : MirrorController)
  : MirrorController * loc :=
  match mirrors c !! ref with
  | None => (set_mirrors (<[ref := l]> (mirrors c)) c, l)
  | Some l' => (c, l')
  end.

(** [getim(name, tag)] run without interference; [now] is the value of
    [time.Now()] in [NewImageMirror]. *)
Definition getim (now : Z) (nm tag : string) (c : MirrorController)
  : MirrorController * loc :=
  let ref := ref_of nm tag in
  match getim_lookup ref c with
  | Some l => (c, l)
  | None =>
      let '(l, c) := alloc (NewImageMirror now nm tag) c in
      getim_insert ref l c
  end.

(** [delim(ref)] and [DeleteMirrorImage(name, tag)]. *)
Definition delim (ref : string) (c : MirrorController) : MirrorController :=
  set_mirrors (delete ref (mirrors c)) c.

Definition DeleteMirrorImage (nm tag : string) (c : MirrorController)
  : MirrorController :=
  delim (ref_of nm tag) c.

(** *** The eviction sweep [gc] *)

(** [time.Duration] counts nanoseconds.  [tick_interval] is the period of
    [time.NewTicker(5 * time.Minute)]. *)
Definition Minute : Z := 60 * 1000000000.
Definition Hour : Z := 60 * Minute.
Definition tick_interval : Z := 5 * Minute.

(** [time.Now().Add(-7 * 24 * time.Hour)]. *)
Definition cutoff (now : Z) : Z := now + - 7 * 24 * Hour.

(** The first loop of a tick: the keys of the jobs to delete.  [None] is
    the panic of reading [im.Phase] through a nil pointer. *)
Fixpoint collect (h : gmap loc ImageMirror) (t : Z)
    (entries : list (string * loc)) (needDeleted : list string)
  : option (list string) :=
  match entries with
  | [] => Some needDeleted
  | (ref, l) :: entries =>
      match h !! l with
      | None => None
      | Some im =>
          if bool_decide (Phase_ im = Mirrored)
             && bool_decide (t > CreateTime im)
          then collect h t entries (needDeleted ++ [ref])
          else collect h t entries needDeleted
      end
  end.

(** The second loop of a tick. *)
Definition delete_all (needDeleted : list string) (m : gmap string loc)
  : gmap string loc :=
  foldl (fun m ref => delete ref m) m needDeleted.

(** The body of [case <-ticker.C], run at time [now]. *)
Definition gc_tick (now : Z) (c : MirrorController)
  : outcome MirrorController :=
  let t := cutoff now in
  match collect (heap c) t (map_to_list (mirrors c)) [] with
  | None => Panics c
  | Some needDeleted =>
      Returns (set_mirrors (delete_all needDeleted (mirrors c)) c)
  end.

(** The channel whose case the [select] takes in one iteration. *)
Inductive event :=
  | TickerC (now : Z)
  | CtxDone.

(** How a statement ends: normally, by [break], or by [return]. *)
Inductive signal := SNormal | SBreak | SReturn.

(** The bodies of the two cases. *)
Definition gc_case (ev : event) (c : MirrorController)
  : outcome MirrorController * signal :=
  match ev with
  | TickerC now => (gc_tick now c, SNormal)
  | CtxDone => (Returns c, SBreak)
  end.

(** A [select] statement: a [break] in a case leaves the [select]. *)
Definition select_stmt (body : outcome MirrorController * signal)
  : outcome MirrorController * signal :=
  match body with
  | (o, SBreak) => (o, SNormal)
  | (o, s) => (o, s)
  end.

(** The state of the goroutine that runs [gc]. *)
Inductive gc_state :=
  | Looping (c : MirrorController)
  | Exited (c : MirrorController)
  | Crashed (c : MirrorController).

(** [for { select { ... } }] over the events of successive iterations: the
    loop has no condition, so only a [break] or a [return] that reaches
    the [for] statement leaves it. *)
Fixpoint gc (evs : list event) (c : MirrorController) : gc_state :=
  match evs with
  | [] => Looping c
  | ev :: evs =>
      match select_stmt (gc_case ev c) with
      | (Panics c, _) => Crashed c
      | (Returns c, SNormal) => gc evs c
      | (Returns c, (SBreak | SReturn)) => Exited c
      end
  end.

(** *** The transfer run [mirrorimages] *)

(** The external collaborators of a run.  [client_NewRepository] is the
    result of [client.NewRepository(...)]; [embedded_Repository] is the pair
    returned by [c.embedded.Repository(...)], whose handle may be nil.  The
    authentication set-up at the head of [mirrorimages] belongs to the
    authentication layer and is taken to have succeeded. *)
Record Env := {
  client_NewRepository : Repository + string;
  embedded_Repository : option Repository * option string;
}.

Definition status (code : Code) (message : string) (t : Transfer)
  : Transfer :=
  {| job := UpdateStatue code message (job t);
     fetched := fetched t; running := running t |}.

(** How the [for _, md := range descs.Manifests] loop ends: it runs to its
    end, or [mirrorimages] returns from inside it, or it panics. *)
Inductive flow :=
  | Continue (t : Transfer)
  | Return (t : Transfer)
  | Panic (t : Transfer).

(** [d := md.Descriptor; d.Platform = &v1.Platform{...}]. *)
Definition child_descriptor (md : ManifestDescriptor) : Descriptor :=
  let d := Descriptor_ md in
  {| MediaType := MediaType d; Distribution.Size := Distribution.Size d;
     Distribution.Digest := Distribution.Digest d;
     Platform_ :=
       Some {| Distribution.Architecture :=
                 Distribution.Architecture (PlatformSpec md);
               Distribution.OS := Distribution.OS (PlatformSpec md) |} |}.

Fixpoint mirror_index (repo localrepo : Repository)
    (manifestService : ManifestService) (mds : list ManifestDescriptor)
    (t : Transfer) : flow :=
  match mds with
  | [] => Continue t
  | md :: mds =>
      let d := child_descriptor md in
      if bool_decide
           (MediaType d = "application/vnd.oci.image.manifest.v1+json")
      then
        match Get manifestService (Distribution.Digest d) with
        | inr err => Return (status Unknown ("get manifests error: " ++ err) t)
        | inl m =>
            match MirrorImage repo localrepo d m t with
            | Panics (t, _) => Panic t
            | Returns (t, Some err) =>
                Return (status Unknown
                          ("mirror image blobs error: " ++ err) t)
            | Returns (t, None) =>
                mirror_index repo localrepo manifestService mds t
            end
        end
      else
        Return (status UnknownMediaType
                  ("unknown mediatype: " ++ MediaType d) t)
  end.

(** [mirrorimages(im)], started on the transfer state [t] of the job. *)
Definition mirrorimages (env : Env) (t : Transfer) : outcome Transfer :=
  match client_NewRepository env with
  | inr err =>
      Returns (status NameInvalid
                 ("get registry repository error: " ++ err) t)
  | inl repo =>
  match Manifests repo with
  | inr err =>
      Returns (status Unknown ("create manifests service error: " ++ err) t)
  | inl manifestService =>
  let '(localrepo, err) := embedded_Repository env in
  let t :=
    match err with
    | Some err => status Unknown ("get local repository error: " ++ err) t
    | None => t
    end in
  (* no return above: [localrepo.Manifests] is called on the handle *)
  match localrepo with
  | None => Panics t
  | Some localrepo =>
  match Manifests localrepo with
  | inr err =>
      Returns (status Unknown
                 ("create local manifests service error: " ++ err) t)
  | inl localManifestService =>
  match Tags_Get repo (Tag (job t)) with
  | inr _ => Returns (status TagNotFound "" t)
  | inl desc =>
  match Get localManifestService (Distribution.Digest desc) with
  | inr err => Returns (status Unknown ("get manifests error: " ++ err) t)
  | inl manifest =>
      if bool_decide
           (MediaType desc
            = "application/vnd.docker.distribution.manifest.v2+json")
      then
        match MirrorImage repo localrepo desc manifest t with
        | Panics (t, _) => Panics t
        | Returns (t, err) =>
            let t :=
              match err with
              | Some err =>
                  status Unknown ("mirror image blobs error: " ++ err) t
              | None => t
              end in
            (* no return in this case: the run goes on to the end *)
            Returns (status Success "" t)
        end
      else if bool_decide
                (MediaType desc = "application/vnd.oci.image.index.v1+json")
      then
        match manifest with
        | ManifestList mds =>
            match mirror_index repo localrepo manifestService mds t with
            | Continue t => Returns (status Success "" t)
            | Return t => Returns t
            | Panic t => Panics t
            end
        | _ => Panics t
        end
      else
        Returns (status UnknownMediaType
                   ("unknown mediatype: " ++ MediaType desc) t)
  end end end end end end.

(** *** Concurrent callers of [MirrorImage(name, tag)]

    Each caller runs [im := c.getim(name, tag)], then [im.IsPending()],
    then starts [go c.mirrorimages(im)] when the answer was true.  A caller
    is at one of the program points below; one step executes one lock
    operation or one access to shared memory. *)

Inductive pc :=
  | GetimRLock                                (* c.mux.RLock() *)
  | GetimLookup                               (* im, ok := c.mirrors[ref] *)
  | GetimRUnlock (r : option loc)             (* c.mux.RUnlock() *)
  | GetimNew                                  (* im = v2.NewImageMirror(..) *)
  | GetimLock (l : loc)                       (* c.mux.Lock() *)
  | GetimCheck (l : loc)                      (* look up again, store *)
  | GetimUnlock (l : loc)                     (* c.mux.Unlock() *)
  | PendLock (l : loc)                        (* im.mux.Lock() *)
  | PendUnlock (l : loc)                      (* im.mux.Unlock() *)
  | PendRead (l : loc)                        (* isPending := im.Phase == Pending *)
  | PendWrite (l : loc) (isPending : bool)    (* if isPending { im.Phase = Mirroring } *)
  | Spawn (l : loc) (isPending : bool)        (* if ... { go c.mirrorimages(im) } *)
  | Finished (l : loc).                       (* return im *)

(** Shared memory: the controller, the state of its read/write lock
    [c.mux], the jobs whose [im.mux] is held, and the transfer runs started
    so far. *)
Record Shared := {
  ctl : MirrorController;
  readers : nat;
  writer : bool;
  held : gset loc;
  transfers : list loc;
}.

Definition set_ctl (c : MirrorController) (s : Shared) : Shared :=
  {| ctl := c; readers := readers s; writer := writer s; held := held s;
     transfers := transfers s |}.

Definition set_readers (n : nat) (s : Shared) : Shared :=
  {| ctl := ctl s; readers := n; writer := writer s; held := held s;
     transfers := transfers s |}.

Definition set_writer (w : bool) (s : Shared) : Shared :=
  {| ctl := ctl s; readers := readers s; writer := w; held := held s;
     transfers := transfers s |}.

Definition set_held (h : gset loc) (s : Shared) : Shared :=
  {| ctl := ctl s; readers := readers s; writer := writer s; held := h;
     transfers := transfers s |}.

Definition add_transfer (l : loc) (s : Shared) : Shared :=
  {| ctl := ctl s; readers := readers s; writer := writer s; held := held s;
     transfers := transfers s ++ [l] |}.

Section Callers.

Variable now : Z.
Variables nm tag : string.

(** One step of a caller; [None] when it is blocked on a lock, has
    finished, or dereferences a dangling pointer. *)
Definition step (p : pc) (s : Shared) : option (pc * Shared) :=
  let ref := ref_of nm tag in
  match p with
  | GetimRLock =>
      if writer s then None
      else Some (GetimLookup, set_readers (S (readers s)) s)
  | GetimLookup => Some (GetimRUnlock (getim_lookup ref (ctl s)), s)
  | GetimRUnlock r =>
      Some (match r with Some l => PendLock l | None => GetimNew end,
            set_readers (pred (readers s)) s)
  | GetimNew =>
      let '(l, c) := alloc (NewImageMirror now nm tag) (ctl s) in
      Some (GetimLock l, set_ctl c s)
  | GetimLock l =>
      if writer s || negb (Nat.eqb (readers s) 0) then None
      else Some (GetimCheck l, set_writer true s)
  | GetimCheck l =>
      let '(c, l') := getim_insert ref l (ctl s) in
      Some (GetimUnlock l', set_ctl c s)
  | GetimUnlock l => Some (PendLock l, set_writer false s)
  | PendLock l =>
      if bool_decide (l ∈ held s) then None
      else Some (PendUnlock l, set_held (held s ∪ {[l]}) s)
  | PendUnlock l => Some (PendRead l, set_held (held s ∖ {[l]}) s)
  | PendRead l =>
      im ← heap (ctl s) !! l;
      Some (PendWrite l (bool_decide (Phase_ im = Pending)), s)
  | PendWrite l isPending =>
      if isPending then
        im ← heap (ctl s) !! l;
        Some (Spawn l isPending,
              set_ctl (set_heap (<[l := set_Phase Mirroring im]>
                                   (heap (ctl s))) (ctl s)) s)
      else Some (Spawn l isPending, s)
  | Spawn l isPending =>
      Some (Finished l, if isPending then add_transfer l s else s)
  | Finished _ => None
  end.

Record Machine := {
  threads : list pc;
  shared : Shared;
}.

(** Caller [i] takes one step. *)
Definition sched_step (i : nat) (m : Machine) : option Machine :=
  p ← threads m !! i;
  '(p', s') ← step p (shared m);
  Some {| threads := <[i := p']> (threads m); shared := s' |}.

(** A schedule names the caller that takes each successive step; the
    run is [None] when the schedule picks a caller that cannot step. *)
Fixpoint exec (sched : list nat) (m : Machine) : option Machine :=
  match sched with
  | [] => Some m
  | i :: sched => m' ← sched_step i m; exec sched m'
  end.

(** [n] callers about to enter [MirrorImage] on controller [c]. *)
Definition init (n : nat) (c : MirrorController) : Machine :=
  {| threads := replicate n GetimRLock;
     shared := {| ctl := c; readers := 0; writer := false; held := ∅;
                  transfers := [] |} |}.

End Callers.

End Proxy.

(** * Observations used in the statements *)

Module Observe.

Import Distribution V2 Proxy.

(** The job after a progress update that stores percent [p] on the blob
    [dig] of image [idx]. *)
Definition with_precent (idx : nat) (dig : string) (p : Z) (img : Image)
    (layer : Blob) (im : ImageMirror) : ImageMirror :=
  set_Images
    (<[idx := set_Blobs (<[dig := set_Precent p layer]> (Blobs img)) img]>
       (Images im)) im.

(** The percent stored for [dig] in image [idx], when there is one. *)
Definition stored_precent (idx : nat) (dig : string) (im : ImageMirror)
  : option Z :=
  img ← Images im !! idx; layer ← Blobs img !! dig; Some (Precent layer).

(** Every pointer stored in the registry addresses a job: the registry holds
    no nil pointer. *)
Definition registry_ok (c : MirrorController) : Prop :=
  map_Forall (fun _ l => is_Some (heap c !! l)) (mirrors c).

(** The digests among [descs] that the local repository lacks: those whose
    [Stat] returns an error. *)
Definition missing_locally (localrepo : Repository) (descs : list Descriptor)
  : list string :=
  Distribution.Digest
    <$> filter (fun d => is_Some (Blobs_Stat localrepo (Distribution.Digest d)))
          descs.

(** Two jobs agree on phase, status code and message. *)
Definition same_status (im im' : ImageMirror) : Prop :=
  Phase_ im' = Phase_ im ∧ Code_ im' = Code_ im ∧ Message im' = Message im.

(** The job that a caller holds, once it holds one that it has seen in the
    registry. *)
Definition job_held (p : pc) : option loc :=
  match p with
  | GetimRLock | GetimLookup | GetimNew | GetimLock _ | GetimCheck _ => None
  | GetimRUnlock r => r
  | GetimUnlock l | PendLock l | PendUnlock l | PendRead l | PendWrite l _
  | Spawn l _ | Finished l => Some l
  end.

(** Every such job is the one the registry maps the key to. *)
Definition callers_agree (ref : string) (m : Machine) : Prop :=
  ∀ i p l, threads m !! i = Some p -> job_held p = Some l ->
           mirrors (ctl (shared m)) !! ref = Some l.

End Observe.

(** * Example inputs *)

Module Examples.

Import Distribution V2 Proxy.

(** A job claimed for mirroring. *)
Definition job0 : ImageMirror :=
  set_Phase Mirroring (NewImageMirror 1000 "library/app" "v1").

(** A job with one image that tracks the blob ["sha256:aa"] of declared
    size [size]. *)
Definition tracking (size : Z) : ImageMirror :=
  {| Name := "library/app"; Tag := "v1"; CreateTime := 1000;
     Phase_ := Mirroring; Message := ""; Code_ := 0;
     Images :=
       [ {| V2.Architecture := "amd64"; V2.OS := "linux";
            V2.Digest := "sha256:00";
            Blobs := {[ "sha256:aa" :=
                          {| Precent := 0; V2.Size := size; Error := None;
                             Speed := "" |} ]} |} ];
     name := "library/app";
     blobToImages := {[ "sha256:aa" := 0 ]} |}.

Definition day : Z := 24 * Hour.

(** A registry with a job mirrored ten days before [10 * day], a job mirrored
    one day before, and a ten days old job that failed and stays in
    [Mirroring]. *)
Definition registry1 : MirrorController :=
  {| mirrors := {[ "library/app:v1" := 1%positive;
                   "library/app:v2" := 2%positive;
                   "library/db:v1" := 3%positive ]};
     heap := {[ 1%positive :=
                  set_Phase Mirrored (NewImageMirror 0 "library/app" "v1");
                2%positive :=
                  set_Phase Mirrored
                    (NewImageMirror (9 * day) "library/app" "v2");
                3%positive :=
                  set_Phase Mirroring (NewImageMirror 0 "library/db" "v1") ]}
  |}.

(** An empty registry, and a schedule of two callers of
    [MirrorImage("library/app", "v1")]: caller 0 runs [getim] to its end and
    creates the job, caller 1 runs [getim] and finds it; then each caller in
    turn locks and unlocks [im.mux] and reads the phase, and only then does
    each of them write the phase and start a transfer run. *)
Definition registry0 : MirrorController := {| mirrors := ∅; heap := ∅ |}.

Definition race : list nat :=
  [0; 0; 0; 0; 0; 0; 0; 1; 1; 1; 0; 0; 0; 1; 1; 1; 0; 0; 1; 1]%nat.

(** The same two callers one after the other. *)
Definition in_turn : list nat :=
  [0; 0; 0; 0; 0; 0; 0; 0; 0; 0; 0; 0; 1; 1; 1; 1; 1; 1; 1; 1]%nat.

(** Descriptors of a layer, of a blob of a media type that [MirrorImage]
    does not know, and of the manifests of the examples. *)
Definition layer (dg : string) : Descriptor :=
  {| MediaType := "application/vnd.oci.image.layer.v1.tar+gzip";
     Distribution.Size := 10; Distribution.Digest := dg; Platform_ := None |}.

Definition odd_blob (dg : string) : Descriptor :=
  {| MediaType := "text/plain";
     Distribution.Size := 10; Distribution.Digest := dg; Platform_ := None |}.

Definition image_manifest : Manifest :=
  ImageManifest [layer "sha256:aa"; odd_blob "sha256:xx"; layer "sha256:bb"].

Definition child : ManifestDescriptor :=
  {| Descriptor_ :=
       {| MediaType := "application/vnd.oci.image.manifest.v1+json";
          Distribution.Size := 100; Distribution.Digest := "sha256:m1";
          Platform_ := None |};
     PlatformSpec := {| Distribution.Architecture := "amd64";
                        Distribution.OS := "linux" |} |}.

Definition index_manifest : Manifest := ManifestList [child].

Definition top_descriptor (mediaType : string) : Descriptor :=
  {| MediaType := mediaType; Distribution.Size := 100;
     Distribution.Digest := "sha256:top"; Platform_ := None |}.

(** A remote repository that resolves every tag to a descriptor of media
    type [mediaType], serves the manifest [m] for every digest and delivers
    every blob. *)
Definition remote (mediaType : string) (m : Manifest) : Repository :=
  {| Manifests := inl {| Get := fun _ => inl m |};
     Blobs_Stat := fun _ => None;
     Blobs_Get := fun _ => None;
     Tags_Get := fun _ => inl (top_descriptor mediaType) |}.

(** A local repository that holds the manifest [m] and no blob. *)
Definition local (m : Manifest) : Repository :=
  {| Manifests := inl {| Get := fun _ => inl m |};
     Blobs_Stat := fun _ => Some "blob unknown";
     Blobs_Get := fun _ => Some "blob unknown";
     Tags_Get := fun _ => inr "tag unknown" |}.

(** A multi-platform index whose only image references an unknown blob. *)
Definition env_index : Env :=
  {| client_NewRepository :=
       inl (remote "application/vnd.oci.image.index.v1+json" image_manifest);
     embedded_Repository := (Some (local index_manifest), None) |}.

(** A single-platform image that references an unknown blob. *)
Definition env_single : Env :=
  {| client_NewRepository :=
       inl (remote "application/vnd.docker.distribution.manifest.v2+json"
              image_manifest);
     embedded_Repository := (Some (local image_manifest), None) |}.

(** The look-up of the local repository fails and yields a nil handle. *)
Definition env_no_local : Env :=
  {| client_NewRepository :=
       inl (remote "application/vnd.oci.image.index.v1+json" image_manifest);
     embedded_Repository := (None, Some "repository unavailable") |}.

(** The transfer state at the start of the run of [job0]. *)
Definition transfer0 : Transfer :=
  {| job := job0; fetched := []; running := [] |}.

End Examples.

(** * The rest of the controller *)

From Stdlib Require Import Ascii.

Module Controller.

Import Distribution V2 Proxy.

(** [MirrorImage(name, tag)] of the controller, run without interference:
    the controller afterwards, the job returned, and whether
    [go c.mirrorimages(im)] was started.  The panic is the call of
    [IsPending] through a nil pointer. *)
Definition MirrorImage (now : Z) (nm tag : string) (c : MirrorController)
  : outcome (MirrorController * loc * bool) :=
  let '(c, l) := getim now nm tag c in
  match heap c !! l with
  | None => Panics (c, l, false)
  | Some im =>
      let '(im, isPending) := IsPending im in
      Returns (set_heap (<[l := im]> (heap c)) c, l, isPending)
  end.

(** [strings.Split(s, ":")]: the substrings between the colons of [s]; a
    string without a colon gives the one-element list of itself. *)
Fixpoint split_colon (s : string) : list string :=
  match s with
  | EmptyString => [""]
  | String a s =>
      if Ascii.eqb a ":"%char then "" :: split_colon s
      else match split_colon s with
           | part :: parts => String a part :: parts
           | [] => [String a ""]
           end
  end.

(** The head of [NewMirrorController]: the string handed to [url.Parse],
    computed from [config.HTTP.Addr].  [None] is the panic of [parts[1]] on
    a slice of length one. *)
Definition controller_url (addr : string) : option string :=
  let parts :=
    if bool_decide (addr = "") then ["127.0.0.1"; "5000"]
    else
      let parts := split_colon addr in
      match parts with
      | p0 :: rest => if bool_decide (p0 = "") then "127.0.0.1" :: rest
                      else parts
      | [] => parts
      end in
  match parts !! 0%nat, parts !! 1%nat with
  | Some host, Some port => Some ("http://" ++ host ++ ":" ++ port)
  | _, _ => None
  end.

(** The controller process: the registry, and the goroutines
    [go c.mirrorimages(im)] that have been started and have not run yet,
    each with the job it was given, oldest first. *)
Record Process := {
  controller : MirrorController;
  started : list loc;
}.

(** What happens in the process: a call of an entry point of the
    controller, a sweep tick, a status update that reaches a job while its
    run is under way, and the run of the [i]-th started goroutine to its
    end, in the environment [env] of the answers that the registries give
    it. *)
Inductive reg_op :=
  | OpMirrorImage (now : Z) (nm tag : string)
  | OpDeleteMirrorImage (nm tag : string)
  | OpTick (now : Z)
  | OpUpdateStatue (l : loc) (code : Code) (message : string)
  | OpRun (i : nat) (env : Env).

(** One such event.  A panic, of the calling goroutine or of a transfer
    run, ends the process.  An update of a location without a job and the
    run of a goroutine that was not started do not occur and are taken to do
    nothing. *)
Definition reg_step (op : reg_op) (p : Process) : outcome Process :=
  let c := controller p in
  match op with
  | OpMirrorImage now nm tag =>
      match MirrorImage now nm tag c with
      | Returns (c, l, isPending) =>
          Returns {| controller := c;
                     started := if isPending then started p ++ [l]
                                else started p |}
      | Panics (c, _, _) => Panics {| controller := c; started := started p |}
      end
  | OpDeleteMirrorImage nm tag =>
      Returns {| controller := DeleteMirrorImage nm tag c;
                 started := started p |}
  | OpTick now =>
      match gc_tick now c with
      | Returns c => Returns {| controller := c; started := started p |}
      | Panics c => Panics {| controller := c; started := started p |}
      end
  | OpUpdateStatue l code message =>
      Returns {| controller :=
                   set_heap (alter (UpdateStatue code message) l (heap c)) c;
                 started := started p |}
  | OpRun i env =>
      match started p !! i with
      | None => Returns p
      | Some l =>
          match heap c !! l with
          | None => Panics {| controller := c; started := delete i (started p) |}
          | Some im =>
              match mirrorimages env
                      {| job := im; fetched := []; running := [] |} with
              | Returns t =>
                  Returns {| controller := set_heap (<[l := job t]> (heap c)) c;
                             started := delete i (started p) |}
              | Panics t =>
                  Panics {| controller := set_heap (<[l := job t]> (heap c)) c;
                            started := delete i (started p) |}
              end
          end
      end
  end.

Fixpoint reg_run (ops : list reg_op) (p : Process) : outcome Process :=
  match ops with
  | [] => Returns p
  | op :: ops =>
      match reg_step op p with
      | Returns p => reg_run ops p
      | Panics p => Panics p
      end
  end.

(** The run of the started goroutine [i] panics in the environment [env]. *)
Definition run_panics (i : nat) (env : Env) (p : Process) : Prop :=
  ∃ l im t, started p !! i = Some l
            ∧ heap (controller p) !! l = Some im
            ∧ mirrorimages env {| job := im; fetched := []; running := [] |}
              = Panics t.

(** The process holds no nil pointer: none in the registry, and none in a
    started goroutine. *)
Definition process_ok (p : Process) : Prop :=
  map_Forall (fun _ l => is_Some (heap (controller p) !! l))
    (mirrors (controller p))
  ∧ ∀ l, l ∈ started p -> is_Some (heap (controller p) !! l).

(** The operations on one job. *)
Inductive job_op :=
  | JIsPending
  | JUpdateStatue (code : Code) (message : string)
  | JUpdateImagePrecent (dig : string) (size : Z)
  | JMirrorImage (repo localrepo : Repository) (desc : Descriptor)
      (manifest : Manifest).

(** One operation on the job of a transfer state, and whether it was an
    [IsPending] that answered true.  A panic leaves the state it reached. *)
Definition job_step (op : job_op) (t : Transfer) : Transfer * bool :=
  let with_job im :=
    {| job := im; fetched := fetched t; running := running t |} in
  match op with
  | JIsPending => let '(im, b) := IsPending (job t) in (with_job im, b)
  | JUpdateStatue code message =>
      (with_job (UpdateStatue code message (job t)), false)
  | JUpdateImagePrecent dig size =>
      match UpdateImagePrecent dig size (job t) with
      | Returns (im, _) | Panics (im, _) => (with_job im, false)
      end
  | JMirrorImage repo localrepo desc manifest =>
      match V2.MirrorImage repo localrepo desc manifest t with
      | Returns (t, _) | Panics (t, _) => (t, false)
      end
  end.

(** A sequence of operations: the final state and the number of [IsPending]
    calls that answered true. *)
Fixpoint job_run (ops : list job_op) (t : Transfer) : Transfer * nat :=
  match ops with
  | [] => (t, 0%nat)
  | op :: ops =>
      let '(t, b) := job_step op t in
      let '(t, n) := job_run ops t in
      (t, if b then S n else n)
  end.

End Controller.

(** * Further observations *)

Module Invariants.

Import Distribution V2 Proxy Observe.

(** Every entry of [blobToImages] names an image of the job whose blob map
    holds the digest. *)
Definition tracking_ok (im : ImageMirror) : Prop :=
  map_Forall
    (fun dig idx =>
       0 <= idx
       ∧ is_Some (Images im !! Z.to_nat idx ≫= fun img => Blobs img !! dig))
    (blobToImages im).

(** Image [idx] of the job holds the digest. *)
Definition has_blob (idx : nat) (dig : string) (im : ImageMirror) : Prop :=
  is_Some (Images im !! idx ≫= fun img => Blobs img !! dig).

(** The images of [imgs] are still there in [imgs'], each with at least the
    digests it had. *)
Definition blobs_grow (imgs imgs' : list Image) : Prop :=
  ∀ i img, imgs !! i = Some img ->
    ∃ img', imgs' !! i = Some img'
            ∧ ∀ d, is_Some (Blobs img !! d) -> is_Some (Blobs img' !! d).

(** The string holds no colon. *)
Fixpoint colon_free (s : string) : bool :=
  match s with
  | EmptyString => true
  | String a s => negb (Ascii.eqb a ":"%char) && colon_free s
  end.

(** Some fetch of the digests [ds] from [repo] fails. *)
Definition some_fetch_fails (repo : Repository) (ds : list string) : bool :=
  existsb (fun d => bool_decide (is_Some (Blobs_Get repo d))) ds.

(** A child of an index that can be mirrored: its media type is the image
    manifest type, the remote manifest service has its manifest, every
    reference of the manifest has a known media type, and every blob that the
    local repository lacks can be fetched. *)
Definition child_ok (repo localrepo : Repository) (ms : ManifestService)
    (md : ManifestDescriptor) : Prop :=
  MediaType (Descriptor_ md) = "application/vnd.oci.image.manifest.v1+json"
  ∧ ∃ m, Get ms (Distribution.Digest (Descriptor_ md)) = inl m
         ∧ Forall (fun d => MediaType d ∈ blob_media_types) (References m)
         ∧ some_fetch_fails repo (missing_locally localrepo (References m))
           = false.

(** The record of the digest in image [idx]. *)
Definition blob_at (idx : nat) (dig : string) (im : ImageMirror)
  : option Blob :=
  Images im !! idx ≫= fun img => Blobs img !! dig.

(** The record that the blob loop makes for a digest referenced by [descs]:
    percent 100 when the local repository has the blob and 0 when it lacks
    it, the size of a descriptor that references the digest, and the error
    [err]. *)
Definition recorded (localrepo : Repository) (descs : list Descriptor)
    (dig : string) (err : option string) (b : Blob) : Prop :=
  Precent b = match Blobs_Stat localrepo dig with Some _ => 0 | None => 100 end
  ∧ Error b = err
  ∧ ∃ d, d ∈ descs ∧ Distribution.Digest d = dig
         ∧ V2.Size b = Distribution.Size d.

(** The same record as far as [MirrorImage] itself decides it: percent 100
    when the local repository has the blob, the size of a descriptor that
    references the digest, and the error [err].  The percent of a blob that
    is fetched is left open: progress is the client's to report, through
    [UpdateImagePrecent]. *)
Definition recorded_locally (localrepo : Repository)
    (descs : list Descriptor) (dig : string) (err : option string) (b : Blob)
  : Prop :=
  (Blobs_Stat localrepo dig = None -> Precent b = 100)
  ∧ Error b = err
  ∧ ∃ d, d ∈ descs ∧ Distribution.Digest d = dig
         ∧ V2.Size b = Distribution.Size d.

(** The error that the fetch of a digest leaves on its record: none when the
    local repository has the blob, the error of the remote fetch otherwise. *)
Definition fetch_error (repo localrepo : Repository) (dig : string)
  : option string :=
  match Blobs_Stat localrepo dig with
  | Some _ => Blobs_Get repo dig
  | None => None
  end.

(** The later job has the identity of the earlier one, and its images begin
    with the images of the earlier one, unchanged. *)
Definition extends (im im' : ImageMirror) : Prop :=
  Name im' = Name im ∧ Tag im' = Tag im ∧ CreateTime im' = CreateTime im
  ∧ name im' = name im
  ∧ Images im `prefix_of` Images im'.

(** *** Invariants of the concurrent callers *)

(** The job that a caller has created and not yet offered to the registry. *)
Definition job_private (p : pc) : option loc :=
  match p with
  | GetimLock l | GetimCheck l => Some l
  | _ => None
  end.

(** The job that a caller has seen claimed: it has read a phase other than
    [Pending], or has written [Mirroring] itself. *)
Definition job_seen_claimed (p : pc) : option loc :=
  match p with
  | PendWrite l false | Spawn l _ | Finished l => Some l
  | _ => None
  end.

(** The phase of the job at an address. *)
Definition phase_at (l : loc) (s : Shared) : option Phase :=
  Phase_ <$> heap (ctl s) !! l.

(** A transfer run has been started, or a caller stands before the [go]
    statement that starts one for the job. *)
Definition run_started (l : loc) (m : Machine) : Prop :=
  transfers (shared m) ≠ [] ∨ ∃ i, threads m !! i = Some (Spawn l true).

(** The invariant of the callers: they agree on the job of the key; once
    that job is not [Pending] a run has been started for it or is about to
    be; a caller that has seen the job claimed is right; and a job that a
    caller has created and not yet offered is [Pending], unknown to the
    registry and to the other callers. *)
Definition run_inv (ref : string) (m : Machine) : Prop :=
  callers_agree ref m
  ∧ (∀ l, mirrors (ctl (shared m)) !! ref = Some l ->
          ∃ ph, phase_at l (shared m) = Some ph
                ∧ (ph ≠ Pending -> run_started l m))
  ∧ (∀ i p l, threads m !! i = Some p -> job_seen_claimed p = Some l ->
              ∃ ph, phase_at l (shared m) = Some ph ∧ ph ≠ Pending)
  ∧ (∀ i p l, threads m !! i = Some p -> job_private p = Some l ->
              phase_at l (shared m) = Some Pending
              ∧ mirrors (ctl (shared m)) !! ref ≠ Some l
              ∧ ∀ j q, j ≠ i -> threads m !! j = Some q ->
                       job_private q ≠ Some l).

(** What one step of a caller does to the shared state. *)
Definition step_effects (ref : string) (p p' : pc) (s s' : Shared) : Prop :=
  (∀ l ph, phase_at l s = Some ph ->
     ∃ ph', phase_at l s' = Some ph'
            ∧ (ph ≠ Pending -> ph' ≠ Pending)
            ∧ (ph' ≠ Pending ->
               ph ≠ Pending
               ∨ (p' = Spawn l true ∧ mirrors (ctl s) !! ref = Some l)))
  ∧ (transfers s ≠ [] -> transfers s' ≠ [])
  ∧ (∀ l, p = Spawn l true -> transfers s' ≠ [])
  ∧ (∀ l, mirrors (ctl s') !! ref = Some l ->
          mirrors (ctl s) !! ref = Some l ∨ job_private p = Some l)
  ∧ (∀ l, job_private p' = Some l ->
          mirrors (ctl s') = mirrors (ctl s)
          ∧ (job_private p = Some l
             ∨ (phase_at l s = None ∧ phase_at l s' = Some Pending)))
  ∧ (∀ l, job_seen_claimed p' = Some l ->
          job_seen_claimed p = Some l
          ∨ ∃ ph, phase_at l s' = Some ph ∧ ph ≠ Pending).

End Invariants.

(** * Further example inputs *)

Module MoreExamples.

Import Distribution V2 Proxy Examples.

Definition two_layers : Manifest :=
  ImageManifest [layer "sha256:aa"; layer "sha256:bb"].

(** A remote repository like [remote] whose fetch of ["sha256:bb"] fails. *)
Definition flaky (mediaType : string) (m : Manifest) : Repository :=
  {| Manifests := inl {| Get := fun _ => inl m |};
     Blobs_Stat := fun _ => None;
     Blobs_Get := fun d => if bool_decide (d = "sha256:bb")
                           then Some "connection reset" else None;
     Tags_Get := fun _ => inl (top_descriptor mediaType) |}.

(** A local repository that holds the manifest [m] and the blobs [blobs]. *)
Definition local_with (m : Manifest) (blobs : list string) : Repository :=
  {| Manifests := inl {| Get := fun _ => inl m |};
     Blobs_Stat := fun d => if bool_decide (d ∈ blobs) then None
                            else Some "blob unknown";
     Blobs_Get := fun _ => Some "blob unknown";
     Tags_Get := fun _ => inr "tag unknown" |}.

Definition schema2 : string :=
  "application/vnd.docker.distribution.manifest.v2+json".
Definition oci_index : string := "application/vnd.oci.image.index.v1+json".

(** A second child of an index, and a child of a media type that the index
    loop does not know. *)
Definition child2 : ManifestDescriptor :=
  {| Descriptor_ :=
       {| MediaType := "application/vnd.oci.image.manifest.v1+json";
          Distribution.Size := 100; Distribution.Digest := "sha256:m2";
          Platform_ := None |};
     PlatformSpec := {| Distribution.Architecture := "arm64";
                        Distribution.OS := "linux" |} |}.

Definition odd_child : ManifestDescriptor :=
  {| Descriptor_ :=
       {| MediaType := "application/vnd.docker.distribution.manifest.v1+json";
          Distribution.Size := 100; Distribution.Digest := "sha256:m3";
          Platform_ := None |};
     PlatformSpec := {| Distribution.Architecture := "s390x";
                        Distribution.OS := "linux" |} |}.

(** Runs: an index of two images whose blobs can all be fetched; the same
    with a fetch that fails; an index whose second child has an unknown
    media type; a single image whose first layer is held locally and whose
    second is not; a tag that the remote repository does not know. *)
Definition env_index_ok : Env :=
  {| client_NewRepository := inl (remote oci_index two_layers);
     embedded_Repository :=
       (Some (local (ManifestList [child; child2])), None) |}.

Definition env_index_flaky : Env :=
  {| client_NewRepository := inl (flaky oci_index two_layers);
     embedded_Repository :=
       (Some (local (ManifestList [child; child2])), None) |}.

Definition env_index_odd : Env :=
  {| client_NewRepository := inl (remote oci_index two_layers);
     embedded_Repository :=
       (Some (local (ManifestList [child; odd_child; child2])), None) |}.

Definition env_single_partial : Env :=
  {| client_NewRepository := inl (remote schema2 two_layers);
     embedded_Repository :=
       (Some (local_with two_layers ["sha256:aa"]), None) |}.

Definition env_no_tag : Env :=
  {| client_NewRepository :=
       inl {| Manifests := inl {| Get := fun _ => inl two_layers |};
              Blobs_Stat := fun _ => None;
              Blobs_Get := fun _ => None;
              Tags_Get := fun _ => inr "manifest unknown" |};
     embedded_Repository := (Some (local two_layers), None) |}.

End MoreExamples.

(** * Properties *)

Import Distribution V2 Proxy Observe Examples.

(** ** Machine integers *)

Lemma wrap_id z : Int64.in_range z -> Int64.wrap z = z.
Proof.
  unfold Int64.in_range, Int64.wrap, Int64.min_int64, Int64.max_int64.
  intros Hz. rewrite Z.mod_small; lia.
Qed.

(** ** The job state machine *)

(** What [UpdateStatue] leaves of the job when the message is given. *)
Lemma UpdateStatue_message (code : Code) (message : string) (im : ImageMirror) :
  message ≠ "" ->
  UpdateStatue code message im = set_Message message (set_Code code im).
Proof.
  intros Hm. unfold UpdateStatue.
  by rewrite bool_decide_eq_true_2.
Qed.

(** The phase after [UpdateStatue], in all cases. *)
Lemma UpdateStatue_Phase (code : Code) (message : string) (im : ImageMirror) :
  Phase_ (UpdateStatue code message im)
  = if bool_decide (code = Success ∧ message = "") then Mirrored
    else Phase_ im.
Proof.
  unfold UpdateStatue.
  destruct (decide (message = "")) as [->|Hm].
  - rewrite (bool_decide_eq_false_2 ("" ≠ "")) by (intros H; by apply H).
    destruct (decide (code = Success)) as [->|Hc].
    + reflexivity.
    + rewrite (bool_decide_eq_false_2 (code = Success ∧ _)) by (intros [? ?]; done).
      repeat case_bool_decide; simplify_eq/=; done.
  - rewrite (bool_decide_eq_true_2 (message ≠ "")) by done.
    by rewrite (bool_decide_eq_false_2 (code = Success ∧ _)) by (intros [? ?]; done).
Qed.

(** C9: for every code [code] and every non-empty message, [UpdateStatue]
    stores the code and the message and leaves the phase and every other
    field of the job as they were; with [Success] and the empty message the
    phase becomes [Mirrored], and no other call changes the phase. *)
Theorem UpdateStatue_frame (code : Code) (message : string) (im : ImageMirror) :
  (message ≠ "" ->
   UpdateStatue code message im
   = {| Name := Name im; Tag := Tag im; CreateTime := CreateTime im;
        Phase_ := Phase_ im; Message := message; Code_ := code;
        Images := Images im; name := name im;
        blobToImages := blobToImages im |})
  ∧ Phase_ (UpdateStatue Success "" im) = Mirrored
  ∧ (Phase_ (UpdateStatue code message im) ≠ Phase_ im ->
     code = Success ∧ message = "").
Proof.
  split; [|split].
  - intros Hm. by rewrite UpdateStatue_message.
  - done.
  - rewrite UpdateStatue_Phase. case_bool_decide; [done|]. congruence.
Qed.

Lemma UpdateStatue_frame_witness :
  "disk full" ≠ ""
  ∧ Phase_ (UpdateStatue Success "disk full" job0) = Mirroring
  ∧ Code_ (UpdateStatue Success "disk full" job0) = Success
  ∧ Message (UpdateStatue Success "disk full" job0) = "disk full".
Proof.
  assert (Hne : "disk full" ≠ "") by discriminate.
  split; [exact Hne|].
  destruct (UpdateStatue_frame Success "disk full" job0) as [H _].
  rewrite (H Hne). repeat split.
Defined.

(** ** Progress bookkeeping *)

Lemma stored_with_precent idx dig p img layer im :
  Images im !! idx = Some img ->
  stored_precent idx dig (with_precent idx dig p img layer im) = Some p.
Proof.
  intros Himg. unfold stored_precent, with_precent. simpl.
  rewrite list_lookup_insert_eq by (by eapply lookup_lt_Some).
  simpl. by rewrite lookup_insert_eq.
Qed.

(** The path of [UpdateImagePrecent] on a blob that the job tracks. *)
Lemma UpdateImagePrecent_tracked dig size im idx img layer :
  blobToImages im !! dig = Some idx ->
  0 <= idx ->
  Images im !! Z.to_nat idx = Some img ->
  Blobs img !! dig = Some layer ->
  UpdateImagePrecent dig size im
  = match precent_of size (V2.Size layer) with
    | None => Panics (im, None)
    | Some p =>
        Returns (with_precent (Z.to_nat idx) dig p img layer im, None)
    end.
Proof.
  intros Hidx Hpos Himg Hlayer. unfold UpdateImagePrecent.
  rewrite Hidx. apply lookup_lt_Some in Himg as Hlt.
  rewrite bool_decide_eq_false_2 by lia.
  rewrite bool_decide_eq_false_2 by lia.
  by rewrite Himg, Hlayer.
Qed.

Lemma precent_of_exact received size :
  0 <= received -> 0 < size -> received * 100 <= Int64.max_int64 ->
  precent_of received size = Some (received * 100 / size).
Proof.
  intros Hr Hs Hmax. unfold precent_of, Int64.div, Int64.mul.
  destruct (decide (size = 0)) as [?|_]; [lia|].
  assert (Hin : Int64.in_range (received * 100)).
  { unfold Int64.in_range, Int64.min_int64. unfold Int64.max_int64 in *. lia. }
  rewrite (wrap_id _ Hin).
  rewrite Z.quot_div_nonneg by lia.
  assert (0 <= received * 100 / size <= received * 100).
  { split; [apply Z.div_pos; lia|]. apply Z.div_le_upper_bound; nia. }
  rewrite wrap_id; [done|].
  unfold Int64.in_range, Int64.min_int64. unfold Int64.max_int64 in *. lia.
Qed.

(** C5, as amended: on a tracked blob of declared size greater than 0 the
    update never panics on its division; when moreover
    [0 <= received <= size] and [received * 100] fits [int64], the stored
    percent is [floor (received * 100 / size)] and lies between 0 and 100. *)
Theorem UpdateImagePrecent_percent dig received im idx img layer :
  blobToImages im !! dig = Some idx ->
  0 <= idx ->
  Images im !! Z.to_nat idx = Some img ->
  Blobs img !! dig = Some layer ->
  0 < V2.Size layer ->
  ∃ p im',
    UpdateImagePrecent dig received im = Returns (im', None)
    ∧ stored_precent (Z.to_nat idx) dig im' = Some p
    ∧ (0 <= received <= V2.Size layer ->
       received * 100 <= Int64.max_int64 ->
       p = received * 100 / V2.Size layer ∧ 0 <= p <= 100).
Proof.
  intros Hidx Hpos Himg Hlayer Hsize.
  rewrite (UpdateImagePrecent_tracked _ _ _ _ _ _ Hidx Hpos Himg Hlayer).
  destruct (precent_of received (V2.Size layer)) as [p|] eqn:Hp.
  - exists p, (with_precent (Z.to_nat idx) dig p img layer im).
    split; [done|]. split; [by apply stored_with_precent|].
    intros Hr Hmax. rewrite precent_of_exact in Hp by lia.
    injection Hp as <-. split; [done|]. split.
    + apply Z.div_pos; lia.
    + apply Z.div_le_upper_bound; lia.
  - unfold precent_of, Int64.div in Hp.
    destruct (decide (V2.Size layer = 0)); [lia|done].
Qed.

Lemma UpdateImagePrecent_percent_witness :
  ∃ p im',
    UpdateImagePrecent "sha256:aa" 1 (tracking 3) = Returns (im', None)
    ∧ stored_precent 0 "sha256:aa" im' = Some p
    ∧ (0 <= 1 <= 3 -> 1 * 100 <= Int64.max_int64 ->
       p = 1 * 100 / 3 ∧ 0 <= p <= 100).
Proof.
  apply (UpdateImagePrecent_percent "sha256:aa" 1 (tracking 3) 0
           {| V2.Architecture := "amd64"; V2.OS := "linux";
              V2.Digest := "sha256:00";
              Blobs := {[ "sha256:aa" :=
                            {| Precent := 0; V2.Size := 3; Error := None;
                               Speed := "" |} ]} |}
           {| Precent := 0; V2.Size := 3; Error := None; Speed := "" |});
    [reflexivity | lia | reflexivity | reflexivity | simpl; lia].
Defined.

(** C5 as stated fails: an update with more bytes than the declared size
    stores a percent above 100, and an update whose product with 100 leaves
    [int64] stores a negative percent although [received <= size]. *)
Lemma UpdateImagePrecent_percent_counterexample :
  (∃ im', UpdateImagePrecent "sha256:aa" 2 (tracking 1) = Returns (im', None)
          ∧ stored_precent 0 "sha256:aa" im' = Some 200
          ∧ ¬ (0 <= 200 <= 100))
  ∧ (∃ im', UpdateImagePrecent "sha256:aa" (10 ^ 17) (tracking (10 ^ 17))
            = Returns (im', None)
            ∧ stored_precent 0 "sha256:aa" im' = Some (- 84)
            ∧ - 84 ≠ 10 ^ 17 * 100 / 10 ^ 17).
Proof.
  split.
  - eexists. split; [vm_compute; reflexivity|].
    split; [vm_compute; reflexivity | lia].
  - eexists. split; [vm_compute; reflexivity|].
    split; [vm_compute; reflexivity | vm_compute; discriminate].
Qed.

(** C10: when [UpdateImagePrecent] returns an error, which it does exactly
    when the digest is absent from [blobToImages], or the image index is at
    least [len(Images)], or the blob map of the image lacks the digest, the
    job is left as it was; when it returns nil, the percent stored on the one
    blob addressed is [int(size * 100 / layer.Size)], and the job differs
    from the former one in that percent and in nothing else. *)
Theorem UpdateImagePrecent_frame dig size im im' err :
  UpdateImagePrecent dig size im = Returns (im', err) ->
  match err with
  | Some _ =>
      im' = im
      ∧ (blobToImages im !! dig = None
         ∨ (∃ idx, blobToImages im !! dig = Some idx
                   ∧ idx >= Z.of_nat (length (Images im)))
         ∨ (∃ idx img, blobToImages im !! dig = Some idx
                       ∧ Images im !! Z.to_nat idx = Some img
                       ∧ Blobs img !! dig = None))
  | None =>
      ∃ idx img layer p,
        blobToImages im !! dig = Some idx
        ∧ 0 <= idx < Z.of_nat (length (Images im))
        ∧ Images im !! Z.to_nat idx = Some img
        ∧ Blobs img !! dig = Some layer
        ∧ precent_of size (V2.Size layer) = Some p
        ∧ stored_precent (Z.to_nat idx) dig im' = Some p
        ∧ im' = {| Name := Name im; Tag := Tag im;
                   CreateTime := CreateTime im; Phase_ := Phase_ im;
                   Message := Message im; Code_ := Code_ im;
                   Images :=
                     <[Z.to_nat idx :=
                         {| V2.Architecture := V2.Architecture img;
                            V2.OS := V2.OS img; V2.Digest := V2.Digest img;
                            Blobs :=
                              <[dig := {| Precent := p;
                                          V2.Size := V2.Size layer;
                                          Error := Error layer;
                                          Speed := Speed layer |}]>
                                (Blobs img) |}]> (Images im);
                   name := name im; blobToImages := blobToImages im |}
  end.
Proof.
  unfold UpdateImagePrecent.
  destruct (blobToImages im !! dig) as [idx|] eqn:Hidx.
  2:{ intros [= <- <-]. split; [done|]. by left. }
  case_bool_decide as Hlen.
  { intros [= <- <-]. split; [done|]. right; left. by exists idx. }
  case_bool_decide as Hneg; [done|].
  destruct (Images im !! Z.to_nat idx) as [img|] eqn:Himg; [|done].
  destruct (Blobs img !! dig) as [layer|] eqn:Hlayer.
  2:{ intros [= <- <-]. split; [done|]. right; right. by exists idx, img. }
  destruct (precent_of size (V2.Size layer)) as [p|] eqn:Hp; [|done].
  intros [= <- <-]. exists idx, img, layer, p.
  split; [done|]. split; [lia|]. split; [done|]. split; [done|].
  split; [done|]. split; [|done].
  exact (stored_with_precent (Z.to_nat idx) dig p img layer im Himg).
Qed.

Lemma UpdateImagePrecent_frame_witness :
  (tracking 3 = tracking 3
   ∧ (blobToImages (tracking 3) !! "sha256:bb" = None
      ∨ (∃ idx, blobToImages (tracking 3) !! "sha256:bb" = Some idx
                ∧ idx >= Z.of_nat (length (Images (tracking 3))))
      ∨ (∃ idx img, blobToImages (tracking 3) !! "sha256:bb" = Some idx
                    ∧ Images (tracking 3) !! Z.to_nat idx = Some img
                    ∧ Blobs img !! "sha256:bb" = None)))
  ∧ ∃ idx img layer p,
      blobToImages (tracking 3) !! "sha256:aa" = Some idx
      ∧ 0 <= idx < Z.of_nat (length (Images (tracking 3)))
      ∧ Images (tracking 3) !! Z.to_nat idx = Some img
      ∧ Blobs img !! "sha256:aa" = Some layer
      ∧ precent_of 2 (V2.Size layer) = Some p
      ∧ stored_precent (Z.to_nat idx) "sha256:aa"
          (with_precent 0 "sha256:aa" 66 img layer (tracking 3)) = Some p
      ∧ p = 66 ∧ Precent layer = 0.
Proof.
  split.
  - exact (UpdateImagePrecent_frame "sha256:bb" 1 (tracking 3) (tracking 3)
             (Some "ImageMirror library/app: not found digest sha256:bb")
             eq_refl).
  - set (layer := {| Precent := 0; V2.Size := 3; Error := None;
                      Speed := "" |}).
    set (img := {| V2.Architecture := "amd64"; V2.OS := "linux";
                   V2.Digest := "sha256:00";
                   Blobs := {[ "sha256:aa" := layer ]} |}).
    destruct (UpdateImagePrecent_frame "sha256:aa" 2 (tracking 3)
                (with_precent 0 "sha256:aa" 66 img layer (tracking 3)) None
                eq_refl)
      as (idx & img' & layer' & p & Hidx & Hrange & Himg & Hlayer & Hp & Hst
          & _).
    injection Hidx as <-. injection Himg as <-. injection Hlayer as <-.
    injection Hp as <-. exists 0, img, layer, 66.
    split; [reflexivity|]. split; [lia|]. split; [reflexivity|].
    split; [reflexivity|]. split; [reflexivity|]. split; [exact Hst|].
    split; reflexivity.
Defined.

(** ** The eviction sweep *)

Lemma cutoff_eq now : cutoff now = now - 604800000000000.
Proof. unfold cutoff, Hour, Minute. lia. Qed.

(** The first loop of a tick collects the keys of the jobs that are
    [Mirrored] and older than [t], and no other key. *)
Lemma collect_spec h t entries acc :
  (∀ ref l, (ref, l) ∈ entries -> is_Some (h !! l)) ->
  ∃ nd, collect h t entries acc = Some nd
        ∧ ∀ ref, ref ∈ nd ↔
            ref ∈ acc
            ∨ ∃ l im, (ref, l) ∈ entries ∧ h !! l = Some im
                      ∧ Phase_ im = Mirrored ∧ CreateTime im < t.
Proof.
  revert acc. induction entries as [|[ref0 l0] entries IH]; intros acc Hok.
  - exists acc. split; [done|]. intros ref. split; [by left|].
    intros [?|(l & im & Hin & _)]; [done|]. by apply elem_of_nil in Hin.
  - simpl. destruct (Hok ref0 l0) as [im0 Him0]; [by left|]. rewrite Him0.
    assert (Hok' : ∀ ref l, (ref, l) ∈ entries -> is_Some (h !! l)).
    { intros ref l Hin. apply (Hok ref). by right. }
    destruct (bool_decide (Phase_ im0 = Mirrored)
              && bool_decide (t > CreateTime im0)) eqn:Hc.
    + apply andb_true_iff in Hc as [Hp Ht].
      apply bool_decide_eq_true in Hp. apply bool_decide_eq_true in Ht.
      destruct (IH (acc ++ [ref0])%list Hok') as (nd & -> & Hnd).
      exists nd. split; [done|]. intros ref. rewrite Hnd, elem_of_app.
      rewrite list_elem_of_singleton. split.
      * intros [[? | ->] | (l & im & Hin & ?)].
        -- by left.
        -- right. exists l0, im0. split; [by left|]. split; [done|].
           split; [done|lia].
        -- right. exists l, im. split; [by right|done].
      * intros [?|(l & im & Hin & Hl & Hph & Hlt)]; [by left; left|].
        apply elem_of_cons in Hin as [[= -> ->]|Hin].
        -- by left; right.
        -- right. by exists l, im.
    + apply andb_false_iff in Hc.
      destruct (IH acc Hok') as (nd & -> & Hnd).
      exists nd. split; [done|]. intros ref. rewrite Hnd. split.
      * intros [?|(l & im & Hin & ?)]; [by left|].
        right. exists l, im. split; [by right|done].
      * intros [?|(l & im & Hin & Hl & Hph & Hlt)]; [by left|].
        apply elem_of_cons in Hin as [[= -> ->]|Hin].
        -- rewrite Him0 in Hl. injection Hl as ->.
           destruct Hc as [Hc|Hc]; apply bool_decide_eq_false in Hc;
             [done|lia].
        -- right. by exists l, im.
Qed.

(** The second loop of a tick removes the collected keys and no other. *)
Lemma delete_all_lookup needDeleted (m : gmap string loc) ref :
  delete_all needDeleted m !! ref
  = if decide (ref ∈ needDeleted) then None else m !! ref.
Proof.
  unfold delete_all. revert m.
  induction needDeleted as [|r nd IH]; intros m; cbn [foldl].
  - rewrite decide_False; [done|]. apply not_elem_of_nil.
  - rewrite IH. destruct (decide (ref = r)) as [->|Hne].
    + rewrite lookup_delete_eq.
      rewrite (decide_True (P := r ∈ r :: nd)) by (by left).
      by case_decide.
    + rewrite lookup_delete_ne by done.
      destruct (decide (ref ∈ nd)) as [Hin|Hin].
      * by rewrite decide_True by (by right).
      * rewrite decide_False; [done|].
        intros [?|?]%elem_of_cons; done.
Qed.

(** C3: a sweep tick at time [now] on a registry without nil pointers
    returns; a job of the registry is absent afterwards if and only if its
    phase is [Mirrored] and its creation time is before [now] minus 7 days;
    every other job stays under its key, the same job and unchanged; no key
    is added. *)
Theorem gc_tick_evicts now c :
  registry_ok c ->
  ∃ c', gc_tick now c = Returns c'
        ∧ heap c' = heap c
        ∧ ∀ ref,
            match mirrors c !! ref with
            | None => mirrors c' !! ref = None
            | Some l =>
                ∀ im, heap c !! l = Some im ->
                  (mirrors c' !! ref = None ↔
                     Phase_ im = Mirrored
                     ∧ CreateTime im < now - 7 * 24 * 3600 * 10 ^ 9)
                  ∧ (¬ (Phase_ im = Mirrored
                        ∧ CreateTime im < now - 7 * 24 * 3600 * 10 ^ 9) ->
                     mirrors c' !! ref = Some l)
            end.
Proof.
  intros Hok. unfold gc_tick.
  destruct (collect_spec (heap c) (cutoff now) (map_to_list (mirrors c)) [])
    as (nd & Hnd & Hin).
  { intros ref l Hl. apply elem_of_map_to_list in Hl. by apply (Hok ref). }
  rewrite Hnd. eexists. split; [done|]. split; [done|].
  intros ref. simpl. rewrite delete_all_lookup.
  destruct (mirrors c !! ref) as [l|] eqn:Hl; [|by case_decide].
  intros im Him. rewrite cutoff_eq in Hin.
  replace (now - 7 * 24 * 3600 * 10 ^ 9) with (now - 604800000000000) by lia.
  assert (Hiff : ref ∈ nd ↔
                 Phase_ im = Mirrored ∧ CreateTime im < now - 604800000000000).
  { rewrite Hin. split.
    - intros [Hd|(l' & im' & Hl' & Him' & ?)]; [by apply elem_of_nil in Hd|].
      apply elem_of_map_to_list in Hl'. congruence.
    - intros Hc. right. exists l, im.
      split; [by apply elem_of_map_to_list|done]. }
  destruct (decide (ref ∈ nd)) as [Hd|Hd].
  - apply Hiff in Hd. split; [|by intros Hn]. by split.
  - split; [|done]. split; [done|]. intros Hc. by apply Hiff in Hc.
Qed.

Lemma registry1_ok : registry_ok registry1.
Proof.
  unfold registry_ok.
  apply (bool_decide_unpack
           (map_Forall (fun _ l => is_Some (heap registry1 !! l))
              (mirrors registry1))).
  vm_compute. exact I.
Defined.

Lemma gc_tick_evicts_witness :
  ∃ c', gc_tick (10 * day) registry1 = Returns c'
        ∧ heap c' = heap registry1
        ∧ mirrors c' !! "library/app:v1" = None
        ∧ mirrors c' !! "library/app:v2" = Some 2%positive
        ∧ mirrors c' !! "library/db:v1" = Some 3%positive.
Proof.
  destruct (gc_tick_evicts (10 * day) registry1 registry1_ok)
    as (c' & Hrun & Hheap & Hkeys).
  exists c'. split; [exact Hrun|]. split; [exact Hheap|].
  vm_compute in Hrun. injection Hrun as <-. vm_compute. tauto.
Defined.

(** ** The job registry *)

Lemma alloc_fresh im c : heap c !! (alloc im c).1 = None.
Proof.
  unfold alloc. simpl. apply not_elem_of_dom, is_fresh.
Qed.

(** A key that is present is answered from the map, and nothing changes. *)
Lemma getim_hit now nm tag c l :
  mirrors c !! ref_of nm tag = Some l -> getim now nm tag c = (c, l).
Proof. intros Hl. unfold getim, getim_lookup. by rewrite Hl. Qed.

(** A key that is absent gets a new job at an address not in use. *)
Lemma getim_miss now nm tag c :
  mirrors c !! ref_of nm tag = None ->
  ∃ l, heap c !! l = None
       ∧ getim now nm tag c
         = ({| mirrors := <[ref_of nm tag := l]> (mirrors c);
               heap := <[l := NewImageMirror now nm tag]> (heap c) |}, l).
Proof.
  intros Hl. unfold getim, getim_lookup. rewrite Hl.
  exists (alloc (NewImageMirror now nm tag) c).1.
  split; [apply alloc_fresh|].
  unfold alloc, getim_insert. simpl. by rewrite Hl.
Qed.

(** [getim] stores no nil pointer. *)
Lemma getim_registry_ok now nm tag c :
  registry_ok c -> registry_ok (getim now nm tag c).1.
Proof.
  intros Hok. destruct (mirrors c !! ref_of nm tag) as [l|] eqn:Hl.
  - by rewrite (getim_hit _ _ _ _ _ Hl).
  - destruct (getim_miss now nm tag c Hl) as (l & Hfresh & ->). simpl.
    unfold registry_ok. simpl. apply map_Forall_insert_2.
    + rewrite lookup_insert_eq. by eexists.
    + intros ref l' Hl'. destruct (Hok ref l' Hl') as [im Him]. simpl.
      exists im. rewrite lookup_insert_ne; [done|]. congruence.
Qed.

(** C6: [getim] returns the job that the key [name + ":" + tag] is mapped
    to when there is one, and leaves the registry as it is; otherwise it
    maps the key to one newly created [Pending] job, at an address not in
    use, and returns that job; in both cases the key is mapped to the
    returned job afterwards, a second [getim] for the key returns the same
    job again, and the section under the write lock never replaces a job
    that another writer has stored for the key since the miss. *)
Theorem getim_get_or_create now nm tag c c' l :
  getim now nm tag c = (c', l) ->
  mirrors c' !! ref_of nm tag = Some l
  ∧ (∀ l0, mirrors c !! ref_of nm tag = Some l0 -> l = l0 ∧ c' = c)
  ∧ (mirrors c !! ref_of nm tag = None ->
     heap c !! l = None
     ∧ mirrors c' = <[ref_of nm tag := l]> (mirrors c)
     ∧ heap c' = <[l := NewImageMirror now nm tag]> (heap c)
     ∧ Phase_ (NewImageMirror now nm tag) = Pending)
  ∧ (∀ now', getim now' nm tag c' = (c', l))
  ∧ (∀ c2 l2 l', mirrors c2 !! ref_of nm tag = Some l' ->
                 getim_insert (ref_of nm tag) l2 c2 = (c2, l')).
Proof.
  intros Hget.
  assert (Hreg : mirrors c' !! ref_of nm tag = Some l).
  { destruct (mirrors c !! ref_of nm tag) as [l0|] eqn:Hl.
    - rewrite (getim_hit _ _ _ _ _ Hl) in Hget. by injection Hget as <- <-.
    - destruct (getim_miss now nm tag c Hl) as (l1 & _ & Heq).
      rewrite Heq in Hget. injection Hget as <- <-. simpl.
      apply lookup_insert_eq. }
  split; [done|]. split; [|split; [|split]].
  - intros l0 Hl. rewrite (getim_hit _ _ _ _ _ Hl) in Hget.
    by injection Hget as <- <-.
  - intros Hl. destruct (getim_miss now nm tag c Hl) as (l1 & Hfresh & Heq).
    rewrite Heq in Hget. by injection Hget as <- <-.
  - intros now'. by apply getim_hit.
  - intros c2 l2 l' Hl'. unfold getim_insert. by rewrite Hl'.
Qed.

Lemma getim_get_or_create_witness :
  mirrors (getim 7 "library/app" "v3" registry1).1 !! "library/app:v3"
  = Some 4%positive
  ∧ heap (getim 7 "library/app" "v3" registry1).1 !! 4%positive
    = Some (NewImageMirror 7 "library/app" "v3")
  ∧ getim 8 "library/app" "v3" (getim 7 "library/app" "v3" registry1).1
    = getim 7 "library/app" "v3" registry1.
Proof.
  destruct (getim 7 "library/app" "v3" registry1) as [c' l] eqn:Hget.
  destruct (getim_get_or_create 7 "library/app" "v3" registry1 c' l Hget)
    as (Hreg & _ & _ & Hagain & _).
  simpl. rewrite (Hagain 8). vm_compute in Hget. injection Hget as <- <-.
  repeat split; vm_compute; reflexivity.
Defined.

(** ** The sweep loop *)

(** The [select] statement absorbs the [break] of its [ctx.Done()] case. *)
Lemma select_gc_case_normal ev c : (select_stmt (gc_case ev c)).2 = SNormal.
Proof. by destruct ev. Qed.

(** Whatever the events, and so also after [ctx.Done()] has fired, the loop
    of [gc] is never left: it goes on, or a sweep has panicked. *)
Lemma gc_never_exits evs c c' : gc evs c ≠ Exited c'.
Proof.
  revert c. induction evs as [|ev evs IH]; intros c; [done|].
  cbn [gc]. pose proof (select_gc_case_normal ev c) as Hs.
  destruct (select_stmt (gc_case ev c)) as [[c1|c1] s]; simpl in Hs; subst;
    [apply IH|done].
Qed.

(** C4, on the code: after the cancellation signal has fired the loop of
    [gc] is still running, and a tick that comes later still sweeps the
    registry: here it evicts the old job ["library/app:v1"]. *)
Theorem gc_loops_after_cancellation :
  gc [CtxDone] registry1 = Looping registry1
  ∧ ∃ c', gc [CtxDone; TickerC (10 * day)] registry1 = Looping c'
          ∧ mirrors registry1 !! "library/app:v1" = Some 1%positive
          ∧ mirrors c' !! "library/app:v1" = None.
Proof.
  split; [reflexivity|]. eexists. split; [vm_compute; reflexivity|].
  split; vm_compute; reflexivity.
Qed.

(** ** Concurrent callers *)

(** A caller that runs the four steps of [IsPending] without interference
    computes [IsPending]: it starts a transfer run exactly when the phase
    was [Pending], and the job is then [Mirroring]. *)
Lemma IsPending_alone now nm tag l im s :
  heap (ctl s) !! l = Some im ->
  l ∉ held s ->
  exec now nm tag [0; 0; 0; 0]%nat {| threads := [PendLock l]; shared := s |}
  = Some {| threads := [Spawn l (IsPending im).2];
            shared :=
              set_ctl (set_heap (<[l := (IsPending im).1]> (heap (ctl s)))
                         (ctl s)) s |}.
Proof.
  intros Him Hfree. destruct s as [c r w h tr]. simpl in *.
  unfold sched_step. simpl. rewrite bool_decide_eq_false_2 by done. simpl.
  rewrite Him. simpl.
  assert (Hh : (h ∪ {[l]}) ∖ {[l]} = h).
  { apply set_eq. intros x.
    rewrite elem_of_difference, elem_of_union, elem_of_singleton.
    split; [tauto|]. intros Hx. split; [by left|]. by intros ->. }
  unfold IsPending. destruct (bool_decide (Phase_ im = Pending)); simpl.
  - rewrite Him. simpl. unfold set_held, set_ctl. simpl. by rewrite Hh.
  - unfold set_held, set_ctl, set_heap. simpl.
    rewrite Hh, (insert_id _ _ _ Him). by destruct c.
Qed.

(** No step of a caller changes the job that the registry maps the key to,
    and the job a caller holds after a step of [getim] is that job. *)
Lemma step_registry now nm tag p s p' s' :
  step now nm tag p s = Some (p', s') ->
  (∀ l, mirrors (ctl s) !! ref_of nm tag = Some l ->
        mirrors (ctl s') !! ref_of nm tag = Some l)
  ∧ (∀ l, job_held p' = Some l ->
          job_held p = Some l
          ∨ mirrors (ctl s') !! ref_of nm tag = Some l).
Proof.
  destruct p; simpl; intros Hstep.
  - destruct (writer s); simplify_eq. by split.
  - simplify_eq. split; [done|]. intros l Hl. by right.
  - simplify_eq. split; [done|]. intros l Hl. left. by destruct r.
  - simplify_eq. by split.
  - destruct (writer s || _); simplify_eq. by split.
  - unfold getim_insert in Hstep.
    destruct (mirrors (ctl s) !! ref_of nm tag) as [l0|] eqn:Hl0;
      simplify_eq; simpl.
    + split; [congruence|]. intros l1 [= <-]. by right.
    + split; [congruence|]. intros l1 [= <-]. right. apply lookup_insert_eq.
  - simplify_eq. split; [done|]. intros l1 Hl1. by left.
  - case_bool_decide; simplify_eq. split; [done|]. intros l1 Hl1. by left.
  - simplify_eq. split; [done|]. intros l1 Hl1. by left.
  - destruct (heap (ctl s) !! l); simplify_eq/=.
    split; [done|]. intros l1 Hl1. by left.
  - destruct isPending; [destruct (heap (ctl s) !! l)|]; simplify_eq/=;
      (split; [done|]; intros l1 Hl1; by left).
  - simplify_eq. split; [by destruct isPending|]. intros l1 Hl1. by left.
  - done.
Qed.

Lemma sched_step_agree now nm tag i m m' :
  sched_step now nm tag i m = Some m' ->
  callers_agree (ref_of nm tag) m -> callers_agree (ref_of nm tag) m'.
Proof.
  unfold sched_step. intros Hstep Hagree.
  destruct (threads m !! i) as [p|] eqn:Hp; [|done]. simpl in Hstep.
  destruct (step now nm tag p (shared m)) as [[p' s']|] eqn:Hs; [|done].
  simpl in Hstep. injection Hstep as <-.
  destruct (step_registry _ _ _ _ _ _ _ Hs) as [Hkeep Hnew].
  intros j q l Hq Hl. simpl in *.
  destruct (decide (i = j)) as [->|Hne].
  - rewrite list_lookup_insert_eq in Hq by (by eapply lookup_lt_Some).
    injection Hq as <-. destruct (Hnew l Hl) as [Hold|?]; [|done].
    apply Hkeep. by apply (Hagree j p).
  - rewrite list_lookup_insert_ne in Hq by done.
    apply Hkeep. by apply (Hagree j q).
Qed.

(** Under every schedule, all of the [n] concurrent callers of [getim] for
    one key end up with the same job: the one the registry holds. *)
Lemma getim_concurrent_same_job now nm tag sched n c m :
  exec now nm tag sched (init n c) = Some m ->
  ∀ i j l1 l2,
    threads m !! i = Some (Finished l1) ->
    threads m !! j = Some (Finished l2) ->
    l1 = l2.
Proof.
  intros Hexec.
  assert (Hagree : callers_agree (ref_of nm tag) m).
  { assert (Hinit : callers_agree (ref_of nm tag) (init n c)).
    { intros i p l Hp Hl. apply lookup_replicate in Hp as [-> _]. done. }
    revert Hexec Hinit. generalize (init n c). clear.
    induction sched as [|i sched IH]; intros m0 Hexec Hagree.
    - by injection Hexec as <-.
    - simpl in Hexec.
      destruct (sched_step now nm tag i m0) as [m1|] eqn:Hstep; [|done].
      simpl in Hexec. apply (IH m1 Hexec).
      by eapply sched_step_agree. }
  intros i j l1 l2 Hi Hj.
  pose proof (Hagree i _ l1 Hi eq_refl) as H1.
  pose proof (Hagree j _ l2 Hj eq_refl) as H2. congruence.
Qed.

(** Two callers that run one after the other start one transfer run. *)
Lemma MirrorImage_in_turn :
  ∃ m, exec 5 "library/app" "v1" in_turn (init 2 registry0) = Some m
       ∧ threads m = [Finished 1%positive; Finished 1%positive]
       ∧ transfers (shared m) = [1%positive].
Proof. eexists. split; [vm_compute; reflexivity|]. by split. Qed.

(** C1, on the code: under the schedule [race] both callers of
    [MirrorImage("library/app", "v1")] obtain the same job from [getim], both
    read the phase [Pending] after [im.mux] has been released, and both
    start a transfer run for the job. *)
Theorem MirrorImage_race_two_transfers :
  ∃ m, exec 5 "library/app" "v1" race (init 2 registry0) = Some m
       ∧ threads m = [Finished 1%positive; Finished 1%positive]
       ∧ transfers (shared m) = [1%positive; 1%positive].
Proof. eexists. split; [vm_compute; reflexivity|]. by split. Qed.

(** ** Blob synchronisation of one image *)

(** When every reference has a known media type the loop runs to its end. *)
Lemma sync_blobs_known localrepo idx descs im wg :
  Forall (fun d => MediaType d ∈ blob_media_types) descs ->
  (sync_blobs localrepo idx descs im wg).2 = None.
Proof.
  intros Hknown. revert im wg.
  induction Hknown as [|d descs Hd _ IH]; intros im wg; [done|].
  cbn [sync_blobs]. rewrite bool_decide_eq_true_2 by done.
  destruct (Blobs_Stat localrepo (Distribution.Digest d)); apply IH.
Qed.

(** On that path [MirrorImage] waits for the goroutines it has started:
    none of them is running when it returns. *)
Lemma MirrorImage_joined repo localrepo desc m t t' err :
  Forall (fun d => MediaType d ∈ blob_media_types) (References m) ->
  MirrorImage repo localrepo desc m t = Returns (t', err) ->
  running t' = running t.
Proof.
  intros Hknown. unfold MirrorImage.
  pose proof (sync_blobs_known localrepo (length (Images (job t)))
                (References m)
                (set_Images (Images (job t) ++ [new_Image desc]) (job t)) []
                Hknown) as Hs.
  destruct (sync_blobs localrepo (length (Images (job t))) (References m)
              (set_Images (Images (job t) ++ [new_Image desc]) (job t)) [])
    as [[im wg] e]. simpl in Hs. subst e.
  destruct (wait repo (length (Images (job t))) wg im false)
    as [[im' b]|[im' b]]; [|done].
  by intros [= <- _].
Qed.

(** C7, on the code: on a manifest whose second reference has an unknown
    media type, [MirrorImage] returns its error while the fetch goroutine of
    the first blob, started and not waited for, is still running. *)
Theorem MirrorImage_returns_unjoined :
  ∃ t, MirrorImage (remote "" image_manifest) (local image_manifest)
         (top_descriptor "") image_manifest transfer0
       = Returns (t, Some "unknown mediatype text/plain")
       ∧ fetched t = ["sha256:aa"]
       ∧ running t = [(0%nat, "sha256:aa")].
Proof. eexists. split; [vm_compute; reflexivity|]. by split. Qed.

(** ** The transfer run *)

(** C8, on the code: when the look-up of the local repository fails, the
    run records the status [Unknown] and goes on to call [Manifests] on the
    nil handle, where it panics. *)
Theorem mirrorimages_nil_local_repository :
  ∃ t, mirrorimages env_no_local transfer0 = Panics t
       ∧ Code_ (job t) = Unknown
       ∧ Message (job t)
         = "get local repository error: repository unavailable".
Proof. eexists. split; [vm_compute; reflexivity|]. by split. Qed.

(** On a single-platform manifest the failure of [MirrorImage] is recorded
    and then overwritten: the run goes on to its last statement and ends
    with [Success] and [Mirrored]. *)
Lemma mirrorimages_single_failure_overwritten :
  ∃ t, mirrorimages env_single transfer0 = Returns t
       ∧ Code_ (job t) = Success
       ∧ Phase_ (job t) = Mirrored
       ∧ running t = [(0%nat, "sha256:aa")].
Proof. eexists. split; [vm_compute; reflexivity|]. by repeat split. Qed.

(** C2 as stated fails: below a multi-platform index, an image whose
    manifest references a blob of an unknown media type ends the job with
    the status [Unknown], not [UnknownMediaType]. *)
Lemma mirrorimages_unknown_blob_counterexample :
  ∃ t, mirrorimages env_index transfer0 = Returns t
       ∧ Code_ (job t) = Unknown
       ∧ Code_ (job t) ≠ UnknownMediaType.
Proof. eexists. split; [vm_compute; reflexivity|]. by split. Qed.

(** *** Unknown blob media types below an index *)

Lemma same_status_trans im1 im2 im3 :
  same_status im1 im2 -> same_status im2 im3 -> same_status im1 im3.
Proof. unfold same_status. intuition congruence. Qed.

(** The blob loop touches [Images] and [blobToImages] only. *)
Lemma sync_blobs_status localrepo idx descs im wg :
  same_status im (sync_blobs localrepo idx descs im wg).1.1.
Proof.
  revert im wg. induction descs as [|d descs IH]; intros im wg; [done|].
  cbn [sync_blobs]. case_bool_decide; [|done].
  destruct (Blobs_Stat localrepo (Distribution.Digest d));
    (eapply same_status_trans; [|apply IH]); done.
Qed.

Lemma wait_status repo idx wg im b :
  same_status im
    match wait repo idx wg im b with
    | Returns r => r.1
    | Panics r => r.1
    end.
Proof.
  revert im b. induction wg as [|dgst wg IH]; intros im b; [done|].
  cbn [wait]. destruct (Blobs_Get repo dgst); [|apply IH].
  destruct (Images im !! idx ≫= _); [|done].
  eapply same_status_trans; [|apply IH]. done.
Qed.

(** [MirrorImage] leaves phase, status code and message as they are. *)
Lemma MirrorImage_status repo localrepo desc m t :
  same_status (job t)
    match MirrorImage repo localrepo desc m t with
    | Returns r => job r.1
    | Panics r => job r.1
    end.
Proof.
  unfold MirrorImage.
  pose proof (sync_blobs_status localrepo (length (Images (job t)))
                (References m)
                (set_Images (Images (job t) ++ [new_Image desc]) (job t)) [])
    as Hs.
  destruct (sync_blobs localrepo (length (Images (job t))) (References m)
              (set_Images (Images (job t) ++ [new_Image desc]) (job t)) [])
    as [[im wg] [err|]]; simpl in Hs.
  - simpl. eapply same_status_trans; [|exact Hs]. done.
  - pose proof (wait_status repo (length (Images (job t))) wg im false) as Hw.
    destruct (wait repo (length (Images (job t))) wg im false)
      as [[im' b]|[im' b]]; simpl in *;
      (eapply same_status_trans; [|exact Hw]);
      (eapply same_status_trans; [|exact Hs]); done.
Qed.

(** The images of an index that are mirrored without a failure leave phase,
    status code and message as they are. *)
Lemma mirror_index_Continue_status repo localrepo ms mds t t1 :
  mirror_index repo localrepo ms mds t = Continue t1 ->
  same_status (job t) (job t1).
Proof.
  revert t. induction mds as [|md mds IH]; intros t.
  - intros [= <-]. done.
  - cbn [mirror_index]. case_bool_decide; [|done].
    destruct (Get ms _) as [m|]; [|done].
    pose proof (MirrorImage_status repo localrepo (child_descriptor md) m t)
      as Hs.
    destruct (MirrorImage repo localrepo (child_descriptor md) m t)
      as [[t2 [err|]]|[t2 err]]; [done| |done].
    intros Hrest. apply IH in Hrest. simpl in Hs.
    unfold same_status in *. intuition congruence.
Qed.

Lemma mirror_index_app repo localrepo ms pre rest t t1 :
  mirror_index repo localrepo ms pre t = Continue t1 ->
  mirror_index repo localrepo ms (pre ++ rest) t
  = mirror_index repo localrepo ms rest t1.
Proof.
  revert t. induction pre as [|md pre IH]; intros t.
  - by intros [= <-].
  - cbn [mirror_index app]. case_bool_decide; [|done].
    destruct (Get ms _) as [m|]; [|done].
    destruct (MirrorImage repo localrepo (child_descriptor md) m t)
      as [[t2 [err|]]|[t2 err]]; [done| |done].
    apply IH.
Qed.

(** The blob loop stops at the first reference of an unknown media type:
    the goroutines started are those of the references before it that the
    local repository lacks. *)
Lemma sync_blobs_unknown localrepo idx rpre bad rpost im wg :
  Forall (fun d => MediaType d ∈ blob_media_types) rpre ->
  MediaType bad ∉ blob_media_types ->
  ∃ im', sync_blobs localrepo idx (rpre ++ bad :: rpost) im wg
         = (im', (wg ++ missing_locally localrepo rpre)%list,
            Some ("unknown mediatype " ++ MediaType bad)).
Proof.
  intros Hpre Hbad. revert im wg.
  induction Hpre as [|d rpre Hd Hpre IH]; intros im wg.
  - exists im. cbn [app sync_blobs].
    rewrite bool_decide_eq_false_2 by done.
    unfold missing_locally. simpl. by rewrite app_nil_r.
  - cbn [app sync_blobs]. rewrite bool_decide_eq_true_2 by done.
    unfold missing_locally. rewrite filter_cons.
    destruct (Blobs_Stat localrepo (Distribution.Digest d)) as [e|] eqn:Hst.
    + rewrite decide_True by (by eexists).
      edestruct IH as [im' ->]. exists im'.
      by rewrite fmap_cons, <- app_assoc.
    + rewrite decide_False by (by intros [? ?]). apply IH.
Qed.

(** C2, as amended: below a multi-platform index, when the images before
    have been mirrored without a failure and the manifest of the next image
    references a blob of an unknown media type after references of known
    types, the run returns with the status [Unknown], which is not
    [Success], and a message that names the media type; the phase is the one
    the run started with; and the only fetches started for this image are
    those of the blobs before the unknown reference that the local
    repository lacks. *)
Theorem mirrorimages_unknown_blob env repo localrepo manifestService
    localManifestService desc pre md post m rpre bad rpost t t1 :
  client_NewRepository env = inl repo ->
  Manifests repo = inl manifestService ->
  embedded_Repository env = (Some localrepo, None) ->
  Manifests localrepo = inl localManifestService ->
  Tags_Get repo (Tag (job t)) = inl desc ->
  MediaType desc = "application/vnd.oci.image.index.v1+json" ->
  Get localManifestService (Distribution.Digest desc)
  = inl (ManifestList (pre ++ md :: post)) ->
  mirror_index repo localrepo manifestService pre t = Continue t1 ->
  MediaType (Descriptor_ md) = "application/vnd.oci.image.manifest.v1+json" ->
  Get manifestService (Distribution.Digest (Descriptor_ md)) = inl m ->
  References m = (rpre ++ bad :: rpost)%list ->
  Forall (fun d => MediaType d ∈ blob_media_types) rpre ->
  MediaType bad ∉ blob_media_types ->
  ∃ t', mirrorimages env t = Returns t'
        ∧ Code_ (job t') = Unknown
        ∧ Code_ (job t') ≠ Success
        ∧ Message (job t')
          = "mirror image blobs error: unknown mediatype " ++ MediaType bad
        ∧ Phase_ (job t') = Phase_ (job t)
        ∧ fetched t' = (fetched t1 ++ missing_locally localrepo rpre)%list.
Proof.
  intros Hrepo Hms Hlocal Hlms Htag Hmt Hlist Hpre Hmd Hm Hrefs Hknown Hbad.
  unfold mirrorimages. rewrite Hrepo, Hms, Hlocal, Hlms, Htag, Hlist, Hmt.
  rewrite bool_decide_eq_false_2 by discriminate.
  rewrite bool_decide_eq_true_2 by done.
  rewrite (mirror_index_app _ _ _ _ _ _ _ Hpre).
  cbn [mirror_index].
  rewrite bool_decide_eq_true_2 by exact Hmd.
  change (Distribution.Digest (child_descriptor md))
    with (Distribution.Digest (Descriptor_ md)).
  rewrite Hm. unfold MirrorImage. rewrite Hrefs.
  edestruct (sync_blobs_unknown localrepo (length (Images (job t1)))
               rpre bad rpost) as [im' Hsync]; [done..|].
  rewrite Hsync.
  pose proof (sync_blobs_status localrepo
    (length (Images (job t1))) (rpre ++ bad :: rpost)
    (set_Images (Images (job t1) ++ [new_Image (child_descriptor md)])
       (job t1)) []) as Hst.
  rewrite Hsync in Hst. simpl in Hst.
  apply mirror_index_Continue_status in Hpre.
  eexists. split; [done|]. cbn [job status fetched].
  assert (Hne : "mirror image blobs error: "
                  ++ ("unknown mediatype " ++ MediaType bad) ≠ "") by done.
  rewrite (UpdateStatue_message _ _ _ Hne). simpl.
  split; [done|]. split; [done|]. split; [done|]. split; [|done].
  destruct Hst as [Hst _], Hpre as [Hpre _]. simpl in Hst. congruence.
Qed.

Lemma mirrorimages_unknown_blob_witness :
  ∃ t', mirrorimages env_index transfer0 = Returns t'
        ∧ Code_ (job t') = Unknown
        ∧ Code_ (job t') ≠ Success
        ∧ Message (job t')
          = "mirror image blobs error: unknown mediatype text/plain"
        ∧ Phase_ (job t') = Mirroring
        ∧ fetched t' = ["sha256:aa"].
Proof.
  apply (mirrorimages_unknown_blob env_index
           (remote "application/vnd.oci.image.index.v1+json" image_manifest)
           (local index_manifest) {| Get := fun _ => inl image_manifest |}
           {| Get := fun _ => inl index_manifest |}
           (top_descriptor "application/vnd.oci.image.index.v1+json")
           [] child [] image_manifest
           [layer "sha256:aa"] (odd_blob "sha256:xx") [layer "sha256:bb"]
           transfer0 transfer0); try reflexivity.
  - repeat constructor.
  - apply (bool_decide_unpack _). vm_compute. exact I.
Defined.

(** * Further properties *)

Import Invariants.

(** ** The life of a job *)

(** X1: with an empty message, a code other than [NameInvalid],
    [TagNotFound] and [Success] has no canonical message: [UpdateStatue]
    stores the code and the message of the previous status stays. *)
Theorem UpdateStatue_keeps_stale_message code im :
  code ≠ NameInvalid -> code ≠ TagNotFound -> code ≠ Success ->
  UpdateStatue code "" im = set_Code code im.
Proof.
  intros H1 H2 H3. unfold UpdateStatue.
  rewrite (bool_decide_eq_false_2 ("" ≠ "")) by (intros H; by apply H).
  by rewrite !bool_decide_eq_false_2 by done.
Qed.

Lemma UpdateStatue_keeps_stale_message_witness :
  Message (UpdateStatue Unknown ""
             (UpdateStatue NameInvalid "get registry repository error" job0))
  = "get registry repository error".
Proof.
  rewrite (UpdateStatue_keeps_stale_message Unknown); [reflexivity|..];
    discriminate.
Defined.

Lemma UpdateImagePrecent_Phase dig size im :
  Phase_ match UpdateImagePrecent dig size im with
         | Returns r => r.1
         | Panics r => r.1
         end = Phase_ im.
Proof.
  unfold UpdateImagePrecent.
  destruct (blobToImages im !! dig) as [idx|]; [|done].
  case_bool_decide; [done|]. case_bool_decide; [done|].
  destruct (Images im !! Z.to_nat idx) as [img|]; [|done].
  destruct (Blobs img !! dig) as [layer|]; [|done].
  by destruct (precent_of size (V2.Size layer)).
Qed.

(** What one operation does to the phase: it stays, or it becomes
    [Mirrored], or an [IsPending] that answers true takes it from [Pending]
    to [Mirroring]; and only such a call answers true. *)
Lemma job_step_Phase op t :
  (Phase_ (job (Controller.job_step op t).1) = Phase_ (job t)
   ∧ (Controller.job_step op t).2 = false)
  ∨ (Phase_ (job (Controller.job_step op t).1) = Mirrored
     ∧ (Controller.job_step op t).2 = false)
  ∨ (Phase_ (job t) = Pending
     ∧ Phase_ (job (Controller.job_step op t).1) = Mirroring).
Proof.
  destruct op as [|code message|dig size|repo localrepo desc manifest];
    unfold Controller.job_step.
  - unfold IsPending. case_bool_decide; simpl; [by right; right|by left].
  - simpl. rewrite UpdateStatue_Phase. case_bool_decide; [right|]; by left.
  - left. pose proof (UpdateImagePrecent_Phase dig size (job t)) as H.
    destruct (UpdateImagePrecent dig size (job t)) as [[im e]|[im e]]; done.
  - left. pose proof (MirrorImage_status repo localrepo desc manifest t)
      as [H _].
    destruct (V2.MirrorImage repo localrepo desc manifest t)
      as [[t' e]|[t' e]]; done.
Qed.

Lemma job_run_cons op ops t :
  Controller.job_run (op :: ops) t
  = ((Controller.job_run ops (Controller.job_step op t).1).1,
     if (Controller.job_step op t).2
     then S (Controller.job_run ops (Controller.job_step op t).1).2
     else (Controller.job_run ops (Controller.job_step op t).1).2).
Proof.
  cbn [Controller.job_run]. destruct (Controller.job_step op t) as [t1 b].
  simpl. by destruct (Controller.job_run ops t1).
Qed.

Lemma job_run_not_Pending ops t :
  Phase_ (job t) ≠ Pending ->
  (Controller.job_run ops t).2 = 0%nat
  ∧ Phase_ (job (Controller.job_run ops t).1) ≠ Pending.
Proof.
  revert t. induction ops as [|op ops IH]; intros t Hp; [done|].
  rewrite job_run_cons. simpl.
  destruct (job_step_Phase op t) as [[He Hb]|[[He Hb]|[He _]]]; [| |done];
    rewrite Hb; apply IH; rewrite He; done.
Qed.

Lemma job_run_Mirrored ops t :
  Phase_ (job t) = Mirrored ->
  Phase_ (job (Controller.job_run ops t).1) = Mirrored.
Proof.
  revert t. induction ops as [|op ops IH]; intros t Hp; [done|].
  rewrite job_run_cons. simpl. apply IH.
  destruct (job_step_Phase op t) as [[He _]|[[He _]|[He _]]];
    [congruence|done|]. by rewrite He in Hp.
Qed.

(** X2: in every sequence of operations on a job ([IsPending],
    [UpdateStatue], [UpdateImagePrecent], [MirrorImage]), at most one
    [IsPending] answers true; a job that is not [Pending] never answers true
    and never becomes [Pending] again; a job that is [Mirrored] stays
    [Mirrored]. *)
Theorem job_claimed_at_most_once ops t :
  ((Controller.job_run ops t).2 ≤ 1)%nat
  ∧ (Phase_ (job t) ≠ Pending ->
     (Controller.job_run ops t).2 = 0%nat
     ∧ Phase_ (job (Controller.job_run ops t).1) ≠ Pending)
  ∧ (Phase_ (job t) = Mirrored ->
     Phase_ (job (Controller.job_run ops t).1) = Mirrored).
Proof.
  split; [|split; [apply job_run_not_Pending|apply job_run_Mirrored]].
  revert t. induction ops as [|op ops IH]; intros t; [simpl; lia|].
  rewrite job_run_cons. simpl.
  destruct (job_step_Phase op t) as [[_ Hb]|[[_ Hb]|[_ He]]];
    [rewrite Hb; apply IH..|].
  destruct (job_run_not_Pending ops (Controller.job_step op t).1) as [-> _].
  { by rewrite He. }
  destruct (Controller.job_step op t).2; lia.
Qed.

Lemma job_claimed_at_most_once_witness :
  (Controller.job_run
     [Controller.JIsPending; Controller.JUpdateStatue Success "";
      Controller.JIsPending] transfer0).2 = 0%nat.
Proof.
  destruct (job_claimed_at_most_once
              [Controller.JIsPending; Controller.JUpdateStatue Success "";
               Controller.JIsPending] transfer0) as (_ & H & _).
  apply H. discriminate.
Defined.

(** ** The tracking invariant of a job *)

Lemma blobs_grow_refl imgs : blobs_grow imgs imgs.
Proof. intros i img Hi. by exists img. Qed.

Lemma blobs_grow_trans imgs1 imgs2 imgs3 :
  blobs_grow imgs1 imgs2 -> blobs_grow imgs2 imgs3 -> blobs_grow imgs1 imgs3.
Proof.
  intros H12 H23 i img1 Hi.
  destruct (H12 i img1 Hi) as (img2 & Hi2 & Hd2).
  destruct (H23 i img2 Hi2) as (img3 & Hi3 & Hd3).
  exists img3. split; [done|]. intros d Hd. by apply Hd3, Hd2.
Qed.

Lemma blobs_grow_app imgs img : blobs_grow imgs (imgs ++ [img])%list.
Proof.
  intros i img0 Hi. exists img0. split; [|done].
  by apply lookup_app_l_Some.
Qed.

Lemma blobs_grow_alter imgs idx f :
  (∀ img d, is_Some (Blobs img !! d) -> is_Some (Blobs (f img) !! d)) ->
  blobs_grow imgs (alter f idx imgs).
Proof.
  intros Hf i img Hi. destruct (decide (idx = i)) as [->|Hne].
  - exists (f img). rewrite list_lookup_alter_eq, Hi. split; [done|].
    apply Hf.
  - exists img. by rewrite list_lookup_alter_ne.
Qed.

Lemma blobs_grow_insert imgs idx img bs :
  imgs !! idx = Some img ->
  (∀ d, is_Some (Blobs img !! d) -> is_Some (bs !! d)) ->
  blobs_grow imgs (<[idx := set_Blobs bs img]> imgs).
Proof.
  intros Himg Hbs i img0 Hi. destruct (decide (idx = i)) as [->|Hne].
  - exists (set_Blobs bs img).
    rewrite list_lookup_insert_eq by (by eapply lookup_lt_Some).
    split; [done|]. intros d. rewrite Himg in Hi. injection Hi as <-.
    apply Hbs.
  - exists img0. by rewrite list_lookup_insert_ne.
Qed.

Lemma has_blob_grow idx d im im' :
  blobs_grow (Images im) (Images im') ->
  has_blob idx d im -> has_blob idx d im'.
Proof.
  unfold has_blob. intros Hg Hb.
  destruct (Images im !! idx) as [img|] eqn:Hi; [|by destruct Hb].
  destruct (Hg idx img Hi) as (img' & -> & Hd). simpl in *. by apply Hd.
Qed.

Lemma tracking_ok_grow im im' :
  tracking_ok im ->
  blobToImages im' = blobToImages im ->
  blobs_grow (Images im) (Images im') ->
  tracking_ok im'.
Proof.
  intros Hok Hmap Hg dig idx Hl. rewrite Hmap in Hl.
  destruct (Hok dig idx Hl) as [Hpos Hb]. split; [done|].
  by apply (has_blob_grow _ _ im im').
Qed.

Lemma tracking_ok_lookup im dig idx :
  tracking_ok im ->
  blobToImages im !! dig = Some idx ->
  0 <= idx
  ∧ ∃ img layer, Images im !! Z.to_nat idx = Some img
                 ∧ Blobs img !! dig = Some layer.
Proof.
  intros Hok Hl. destruct (Hok dig idx Hl) as [Hpos [layer Hb]].
  split; [done|].
  destruct (Images im !! Z.to_nat idx) as [img|]; [|done].
  by exists img, layer.
Qed.

(** The three blob-map updates of the loop keep the digests of an image. *)
Lemma insert_keeps_blobs (bs : gmap string Blob) dg b d :
  is_Some (bs !! d) -> is_Some (<[dg := b]> bs !! d).
Proof.
  intros Hd. destruct (decide (dg = d)) as [->|Hne].
  - rewrite lookup_insert_eq. by eexists.
  - by rewrite lookup_insert_ne.
Qed.

Lemma alter_keeps_blobs (bs : gmap string Blob) f dg d :
  is_Some (bs !! d) -> is_Some (alter f dg bs !! d).
Proof.
  intros [b Hd]. destruct (decide (dg = d)) as [->|Hne].
  - rewrite lookup_alter_eq, Hd. by eexists.
  - rewrite lookup_alter_ne by done. by eexists.
Qed.

(** The blob loop keeps the number of images and the digests of each, holds
    every digest that it has handed to a goroutine, and keeps the tracking
    invariant. *)
Lemma sync_blobs_inv localrepo idx descs im wg :
  S idx = length (Images im) ->
  (∀ d, d ∈ wg -> has_blob idx d im) ->
  length (Images (sync_blobs localrepo idx descs im wg).1.1)
  = length (Images im)
  ∧ blobs_grow (Images im) (Images (sync_blobs localrepo idx descs im wg).1.1)
  ∧ (∀ d, d ∈ (sync_blobs localrepo idx descs im wg).1.2 ->
          has_blob idx d (sync_blobs localrepo idx descs im wg).1.1)
  ∧ (tracking_ok im ->
     tracking_ok (sync_blobs localrepo idx descs im wg).1.1).
Proof.
  revert im wg. induction descs as [|d descs IH]; intros im wg Hlen Hwg.
  { simpl. split; [done|]. split; [apply blobs_grow_refl|done]. }
  cbn [sync_blobs]. case_bool_decide as Hknown.
  2:{ simpl. split; [done|]. split; [apply blobs_grow_refl|done]. }
  set (dg := Distribution.Digest d).
  set (im1 := with_image idx _ im).
  assert (Hlen1 : S idx = length (Images im1)).
  { unfold im1. simpl. by rewrite length_alter. }
  assert (Hg1 : blobs_grow (Images im) (Images im1)).
  { apply blobs_grow_alter. intros img d0. apply insert_keeps_blobs. }
  assert (Hdg1 : has_blob idx dg im1).
  { unfold has_blob, im1. simpl. rewrite list_lookup_alter_eq.
    destruct (lookup_lt_is_Some_2 (Images im) idx) as [img ->]; [lia|].
    simpl. rewrite lookup_insert_eq. by eexists. }
  destruct (Blobs_Stat localrepo dg) as [e|].
  - set (im2 := set_blobToImages _ im1).
    set (im3 := with_image idx _ im2).
    assert (Hg3 : blobs_grow (Images im1) (Images im3)).
    { apply blobs_grow_alter. intros img d0. apply alter_keeps_blobs. }
    destruct (IH im3 (wg ++ [dg])%list) as (Hl & Hg & Hw & Hok).
    { unfold im3. simpl. by rewrite length_alter. }
    { intros d0 [Hd0|Hd0%list_elem_of_singleton]%elem_of_app.
      - apply (has_blob_grow _ _ im im3); [|by apply Hwg].
        by eapply blobs_grow_trans.
      - subst d0. by apply (has_blob_grow _ _ im1 im3). }
    split; [rewrite Hl; unfold im3; simpl; by rewrite !length_alter|].
    split; [by eapply blobs_grow_trans; [|eapply blobs_grow_trans]|].
    split; [done|]. intros Htrack. apply Hok.
    apply (tracking_ok_grow im2); [|done|done].
    assert (Hz : Z.of_nat (length (Images im1)) - 1 = Z.of_nat idx) by lia.
    unfold tracking_ok.
    change (blobToImages im2)
      with (<[dg := Z.of_nat (length (Images im1)) - 1]> (blobToImages im1)).
    change (Images im2) with (Images im1). rewrite Hz.
    apply map_Forall_insert_2.
    + split; [lia|]. rewrite Nat2Z.id. exact Hdg1.
    + apply (tracking_ok_grow im im1 Htrack); [done|exact Hg1].
  - destruct (IH im1 wg) as (Hl & Hg & Hw & Hok); [done| |].
    { intros d0 Hd0. apply (has_blob_grow _ _ im im1); [done|by apply Hwg]. }
    split; [by rewrite Hl; unfold im1; simpl; rewrite length_alter|].
    split; [by eapply blobs_grow_trans|]. split; [done|].
    intros Htrack. apply Hok. by apply (tracking_ok_grow im im1).
Qed.

(** [wg.Wait()] returns when every digest of the wait group is held by the
    image: no goroutine dereferences a nil blob.  The flag it returns tells
    whether some fetch has failed. *)
Lemma wait_inv repo idx wg im gbe :
  (∀ d, d ∈ wg -> has_blob idx d im) ->
  ∃ im', wait repo idx wg im gbe
         = Returns (im', gbe || some_fetch_fails repo wg)
         ∧ length (Images im') = length (Images im)
         ∧ blobs_grow (Images im) (Images im')
         ∧ blobToImages im' = blobToImages im.
Proof.
  revert im gbe. induction wg as [|d wg IH]; intros im gbe Hwg.
  { exists im. simpl. rewrite orb_false_r.
    split; [done|]. split; [done|]. split; [apply blobs_grow_refl|done]. }
  cbn [wait some_fetch_fails existsb].
  destruct (Blobs_Get repo d) as [err|] eqn:Hget.
  - destruct (Hwg d) as [b Hb]; [by left|]. rewrite Hb.
    set (im1 := with_image idx _ im).
    assert (Hg1 : blobs_grow (Images im) (Images im1)).
    { apply blobs_grow_alter. intros img d0. apply insert_keeps_blobs. }
    destruct (IH im1 true) as (im' & -> & Hl & Hg & Hm).
    { intros d0 Hd0. apply (has_blob_grow _ _ im im1); [done|].
      apply Hwg. by right. }
    exists im'. rewrite bool_decide_eq_true_2 by (by eexists).
    simpl. rewrite orb_true_r. split; [done|].
    split; [rewrite Hl; unfold im1; simpl; by rewrite length_alter|].
    split; [by eapply blobs_grow_trans|done].
  - destruct (IH im gbe) as (im' & -> & Hl & Hg & Hm).
    { intros d0 Hd0. apply Hwg. by right. }
    exists im'. rewrite bool_decide_eq_false_2 by (by intros [? ?]).
    by simpl.
Qed.

(** The state in which [MirrorImage] enters its loop. *)
Lemma MirrorImage_entry desc (t : Transfer) :
  S (length (Images (job t)))
  = length (Images (set_Images (Images (job t) ++ [new_Image desc]) (job t))).
Proof. simpl. rewrite length_app. simpl. lia. Qed.

(** [MirrorImage] always returns, and on every return path it keeps the
    tracking invariant of the job. *)
Lemma MirrorImage_tracking repo localrepo desc m t :
  ∃ t' err,
    V2.MirrorImage repo localrepo desc m t = Returns (t', err)
    ∧ (tracking_ok (job t) -> tracking_ok (job t')).
Proof.
  unfold V2.MirrorImage.
  pose proof (MirrorImage_entry desc t) as Hlen.
  set (im0 := set_Images _ (job t)) in *.
  set (idx := length (Images (job t))) in *.
  destruct (sync_blobs_inv localrepo idx (References m) im0 [] Hlen)
    as (Hl & Hg & Hw & Hok).
  { intros d Hd. by apply elem_of_nil in Hd. }
  assert (Hok0 : tracking_ok (job t) -> tracking_ok im0).
  { intros Htrack. apply (tracking_ok_grow (job t)); [done|done|].
    apply blobs_grow_app. }
  destruct (sync_blobs localrepo idx (References m) im0 [])
    as [[im wg] [err|]]; simpl in *.
  - eexists _, _. split; [done|]. simpl. tauto.
  - destruct (wait_inv repo idx wg im false Hw) as (im' & -> & _ & Hg' & Hm').
    eexists _, _. split; [done|]. simpl. intros Htrack.
    apply (tracking_ok_grow im); [tauto|done|done].
Qed.

Lemma UpdateStatue_fields code message im :
  Images (UpdateStatue code message im) = Images im
  ∧ blobToImages (UpdateStatue code message im) = blobToImages im.
Proof. unfold UpdateStatue. repeat case_bool_decide; done. Qed.

(** A progress update on a tracked digest of a job that satisfies the
    tracking invariant. *)
Lemma UpdateImagePrecent_on_tracked dig size im idx :
  tracking_ok im ->
  blobToImages im !! dig = Some idx ->
  ∃ img layer,
    Images im !! Z.to_nat idx = Some img
    ∧ Blobs img !! dig = Some layer
    ∧ UpdateImagePrecent dig size im
      = match precent_of size (V2.Size layer) with
        | None => Panics (im, None)
        | Some p =>
            Returns (with_precent (Z.to_nat idx) dig p img layer im, None)
        end
    ∧ ∀ p, tracking_ok (with_precent (Z.to_nat idx) dig p img layer im).
Proof.
  intros Hok Hidx.
  destruct (tracking_ok_lookup im dig idx Hok Hidx)
    as (Hpos & img & layer & Himg & Hlayer).
  exists img, layer. split; [done|]. split; [done|].
  split; [by apply UpdateImagePrecent_tracked|].
  intros p. apply (tracking_ok_grow im); [done|done|].
  apply blobs_grow_insert; [done|]. intros d. apply insert_keeps_blobs.
Qed.

Lemma UpdateImagePrecent_tracking dig size im :
  tracking_ok im ->
  tracking_ok match UpdateImagePrecent dig size im with
              | Returns r => r.1
              | Panics r => r.1
              end.
Proof.
  intros Hok. destruct (blobToImages im !! dig) as [idx|] eqn:Hidx.
  - destruct (UpdateImagePrecent_on_tracked dig size im idx Hok Hidx)
      as (img & layer & _ & _ & -> & Hp).
    destruct (precent_of size (V2.Size layer)); [apply Hp|done].
  - unfold UpdateImagePrecent. by rewrite Hidx.
Qed.

Lemma job_step_tracking op t :
  tracking_ok (job t) -> tracking_ok (job (Controller.job_step op t).1).
Proof.
  intros Hok.
  destruct op as [|code message|dig size|repo localrepo desc manifest];
    unfold Controller.job_step.
  - unfold IsPending. by case_bool_decide.
  - simpl. destruct (UpdateStatue_fields code message (job t)) as [Hi Hb].
    apply (tracking_ok_grow (job t)); [done|done|].
    rewrite Hi. apply blobs_grow_refl.
  - pose proof (UpdateImagePrecent_tracking dig size (job t) Hok) as H.
    destruct (UpdateImagePrecent dig size (job t)) as [[im e]|[im e]]; done.
  - destruct (MirrorImage_tracking repo localrepo desc manifest t)
      as (t' & err & -> & H). by apply H.
Qed.

(** X3: the tracking invariant holds throughout the life of a job: after
    every sequence of operations on a new job, each digest in [blobToImages]
    is mapped to the index of an image of the job whose blob map holds the
    digest. *)
Theorem new_job_keeps_tracking now nm tag ops :
  tracking_ok
    (job (Controller.job_run ops
            {| job := NewImageMirror now nm tag; fetched := [];
               running := [] |}).1).
Proof.
  assert (H : ∀ t, tracking_ok (job t) ->
                   tracking_ok (job (Controller.job_run ops t).1)).
  { induction ops as [|op ops IH]; intros t Hok; [done|].
    rewrite job_run_cons. simpl. by apply IH, job_step_tracking. }
  apply H. simpl. unfold tracking_ok. simpl. apply map_Forall_empty.
Qed.

(** X4: on a job that satisfies the tracking invariant, a progress update
    for a digest in [blobToImages] never returns an error: it stores the
    percent and keeps the invariant, or it panics, and it panics exactly
    when the declared size of the blob is 0. *)
Theorem UpdateImagePrecent_tracked_never_errs dig size im idx :
  tracking_ok im ->
  blobToImages im !! dig = Some idx ->
  ∃ img layer,
    Images im !! Z.to_nat idx = Some img
    ∧ Blobs img !! dig = Some layer
    ∧ if decide (V2.Size layer = 0)
      then UpdateImagePrecent dig size im = Panics (im, None)
      else ∃ im', UpdateImagePrecent dig size im = Returns (im', None)
                  ∧ tracking_ok im'.
Proof.
  intros Hok Hidx.
  destruct (UpdateImagePrecent_on_tracked dig size im idx Hok Hidx)
    as (img & layer & Himg & Hlayer & -> & Hp).
  exists img, layer. split; [done|]. split; [done|].
  unfold precent_of, Int64.div.
  destruct (decide (V2.Size layer = 0)); [done|].
  eexists. split; [done|]. apply Hp.
Qed.

Lemma tracking_ok_tracking0 : tracking_ok (tracking 0).
Proof.
  apply (bool_decide_unpack
           (map_Forall
              (fun dig idx =>
                 0 <= idx
                 ∧ is_Some (Images (tracking 0) !! Z.to_nat idx
                            ≫= fun img => Blobs img !! dig))
              (blobToImages (tracking 0)))).
  vm_compute. exact I.
Defined.

Lemma UpdateImagePrecent_tracked_never_errs_witness :
  UpdateImagePrecent "sha256:aa" 5 (tracking 0) = Panics (tracking 0, None).
Proof.
  destruct (UpdateImagePrecent_tracked_never_errs "sha256:aa" 5 (tracking 0) 0
              tracking_ok_tracking0 eq_refl)
    as (img & layer & Himg & Hlayer & H).
  injection Himg as <-. injection Hlayer as <-. exact H.
Defined.

(** ** Blob synchronisation: what [MirrorImage] leaves behind *)

Lemma with_image_last old img f im :
  Images im = (old ++ [img])%list ->
  Images (with_image (length old) f im) = (old ++ [f img])%list.
Proof.
  intros H. simpl. rewrite H.
  replace (length old) with (length old + 0)%nat by lia.
  by rewrite alter_app_r.
Qed.

(** The loop and the wait work on the last image only, and leave its digest
    and platform as they are. *)
Lemma sync_blobs_last localrepo old descs im wg img :
  Images im = (old ++ [img])%list ->
  ∃ img', Images (sync_blobs localrepo (length old) descs im wg).1.1
          = (old ++ [img'])%list
          ∧ V2.Digest img' = V2.Digest img
          ∧ V2.Architecture img' = V2.Architecture img
          ∧ V2.OS img' = V2.OS img.
Proof.
  revert im wg img. induction descs as [|d descs IH]; intros im wg img Him.
  { by exists img. }
  cbn [sync_blobs]. case_bool_decide; [|by exists img].
  pose proof (with_image_last old img
                (fun img =>
                   set_Blobs (<[Distribution.Digest d :=
                                  new_Blob (Distribution.Size d)]>
                                (Blobs img)) img) im Him) as Him1.
  destruct (Blobs_Stat localrepo (Distribution.Digest d)).
  - match goal with
    | |- context [sync_blobs _ _ _ (with_image _ ?f ?im2) _] =>
        pose proof (with_image_last old _ f im2 Him1) as Him3
    end.
    destruct (IH _ (wg ++ [Distribution.Digest d])%list _ Him3)
      as (img' & ? & ? & ? & ?).
    by exists img'.
  - destruct (IH _ wg _ Him1) as (img' & ? & ? & ? & ?). by exists img'.
Qed.

Lemma wait_last repo old wg im gbe img :
  Images im = (old ++ [img])%list ->
  ∃ img', Images match wait repo (length old) wg im gbe with
                 | Returns r => r.1
                 | Panics r => r.1
                 end = (old ++ [img'])%list
          ∧ V2.Digest img' = V2.Digest img
          ∧ V2.Architecture img' = V2.Architecture img
          ∧ V2.OS img' = V2.OS img.
Proof.
  revert im gbe img. induction wg as [|d wg IH]; intros im gbe img Him.
  { by exists img. }
  cbn [wait]. destruct (Blobs_Get repo d); [|by apply IH].
  destruct (Images im !! length old ≫= _) as [b|]; [|by exists img].
  match goal with
  | |- context [wait _ _ _ (with_image _ ?f _) _] =>
      pose proof (with_image_last old img f im Him) as Him1
  end.
  destruct (IH _ true _ Him1) as (img' & ? & ? & ? & ?). by exists img'.
Qed.

(** [MirrorImage] returns with one image more. *)
Lemma MirrorImage_appends repo localrepo desc m t :
  ∃ t' err img,
    V2.MirrorImage repo localrepo desc m t = Returns (t', err)
    ∧ Images (job t') = (Images (job t) ++ [img])%list
    ∧ V2.Digest img = Distribution.Digest desc
    ∧ (V2.Architecture img, V2.OS img)
      = match Platform_ desc with
        | Some p => (Distribution.Architecture p, Distribution.OS p)
        | None => ("", "")
        end.
Proof.
  destruct (MirrorImage_tracking repo localrepo desc m t)
    as (t' & err & Hrun & _).
  exists t', err. revert Hrun. unfold V2.MirrorImage.
  set (im0 := set_Images _ (job t)).
  destruct (sync_blobs_last localrepo (Images (job t)) (References m) im0 []
              (new_Image desc) eq_refl) as (img1 & Him1 & Hd1 & Ha1 & Ho1).
  assert (Hnew : V2.Digest (new_Image desc) = Distribution.Digest desc
                 ∧ (V2.Architecture (new_Image desc), V2.OS (new_Image desc))
                   = match Platform_ desc with
                     | Some p => (Distribution.Architecture p,
                                  Distribution.OS p)
                     | None => ("", "")
                     end).
  { unfold new_Image. by destruct (Platform_ desc). }
  destruct Hnew as [Hnd Hnp].
  destruct (sync_blobs localrepo (length (Images (job t))) (References m)
              im0 []) as [[im wg] [e|]]; simpl in Him1.
  - intros [= <- <-]. exists img1. simpl. split; [done|]. split; [done|].
    split; [congruence|]. by rewrite Ha1, Ho1.
  - destruct (wait_last repo (Images (job t)) wg im false img1 Him1)
      as (img2 & Him2 & Hd2 & Ha2 & Ho2).
    destruct (wait repo (length (Images (job t))) wg im false)
      as [[im' b]|[im' b]]; [|done].
    intros [= <- <-]. exists img2. simpl in *. split; [done|]. split; [done|].
    split; [congruence|]. by rewrite Ha2, Ho2, Ha1, Ho1.
Qed.

(** X5: however [MirrorImage] ends, with nil, with an error (the early
    return on an unknown media type included) or with a panic, the job has
    exactly one image more: the earlier images are as they were, and the new
    one carries the digest of the descriptor and its platform, or empty
    strings when the descriptor has none. *)
Theorem MirrorImage_registers_one_image repo localrepo desc m t :
  ∃ img,
    Images (job match V2.MirrorImage repo localrepo desc m t with
                | Returns r | Panics r => r.1
                end) = (Images (job t) ++ [img])%list
    ∧ V2.Digest img = Distribution.Digest desc
    ∧ (V2.Architecture img, V2.OS img)
      = match Platform_ desc with
        | Some p => (Distribution.Architecture p, Distribution.OS p)
        | None => ("", "")
        end.
Proof.
  destruct (MirrorImage_appends repo localrepo desc m t)
    as (t' & err & img & -> & Himg & Hd & Hp).
  by exists img.
Qed.

Lemma sync_blobs_all_known localrepo idx descs im wg :
  Forall (fun d => MediaType d ∈ blob_media_types) descs ->
  ∃ im', sync_blobs localrepo idx descs im wg
         = (im', (wg ++ missing_locally localrepo descs)%list, None).
Proof.
  intros Hknown. revert im wg.
  induction Hknown as [|d descs Hd _ IH]; intros im wg.
  - exists im. unfold missing_locally. simpl. by rewrite app_nil_r.
  - cbn [sync_blobs]. rewrite bool_decide_eq_true_2 by done.
    unfold missing_locally. rewrite filter_cons.
    destruct (Blobs_Stat localrepo (Distribution.Digest d)) as [e|] eqn:Hst.
    + rewrite decide_True by (by eexists).
      edestruct IH as [im' ->]. exists im'.
      by rewrite fmap_cons, <- app_assoc.
    + rewrite decide_False by (by intros [? ?]). apply IH.
Qed.

Lemma blob_at_with_image_insert idx dg b d im :
  (idx < length (Images im))%nat ->
  blob_at idx d
    (with_image idx (fun img => set_Blobs (<[dg := b]> (Blobs img)) img) im)
  = if decide (dg = d) then Some b else blob_at idx d im.
Proof.
  intros Hlt. unfold blob_at. simpl. rewrite list_lookup_alter_eq.
  destruct (lookup_lt_is_Some_2 (Images im) idx Hlt) as [img ->]. simpl.
  case_decide as Hd; [subst; apply lookup_insert_eq|].
  by rewrite lookup_insert_ne.
Qed.

Lemma blob_at_with_image_alter idx dg f d im :
  blob_at idx d
    (with_image idx (fun img => set_Blobs (alter f dg (Blobs img)) img) im)
  = if decide (dg = d) then f <$> blob_at idx d im else blob_at idx d im.
Proof.
  unfold blob_at. simpl. rewrite list_lookup_alter_eq.
  destruct (Images im !! idx) as [img|]; simpl; [|by case_decide].
  case_decide as Hd; [subst; apply lookup_alter_eq|].
  by rewrite lookup_alter_ne.
Qed.

Lemma blob_at_set_blobToImages idx d m im :
  blob_at idx d (set_blobToImages m im) = blob_at idx d im.
Proof. done. Qed.

Lemma recorded_more localrepo descs descs' dig err b :
  (∀ d, d ∈ descs -> d ∈ descs') ->
  recorded localrepo descs dig err b -> recorded localrepo descs' dig err b.
Proof.
  intros Hsub (Hp & He & d & Hd & ? & ?). split; [done|]. split; [done|].
  exists d. split; [by apply Hsub|done].
Qed.

(** The records that the blob loop leaves: one for every reference it has
    passed, each without an error. *)
Lemma sync_blobs_records localrepo idx seen descs im wg :
  S idx = length (Images im) ->
  Forall (fun d => MediaType d ∈ blob_media_types) descs ->
  (∀ d, d ∈ seen ->
        ∃ b, blob_at idx (Distribution.Digest d) im = Some b
             ∧ recorded localrepo seen (Distribution.Digest d) None b) ->
  ∀ d, d ∈ (seen ++ descs)%list ->
    ∃ b, blob_at idx (Distribution.Digest d)
           (sync_blobs localrepo idx descs im wg).1.1 = Some b
         ∧ recorded localrepo (seen ++ descs)%list (Distribution.Digest d)
             None b.
Proof.
  intros Hlen Hknown. revert seen im wg Hlen.
  induction Hknown as [|d0 descs Hd0 _ IH]; intros seen im wg Hlen Hseen.
  { simpl. rewrite app_nil_r. exact Hseen. }
  cbn [sync_blobs]. rewrite bool_decide_eq_true_2 by done.
  replace (seen ++ d0 :: descs)%list with ((seen ++ [d0]) ++ descs)%list
    by (by rewrite <- app_assoc).
  assert (Hlt : (idx < length (Images im))%nat) by lia.
  set (dg := Distribution.Digest d0).
  assert (Hstep : ∀ im1,
            (∀ d, blob_at idx d im1
                  = if decide (dg = d)
                    then Some (set_Precent
                                 match Blobs_Stat localrepo dg with
                                 | Some _ => 0 | None => 100 end
                                 (new_Blob (Distribution.Size d0)))
                    else blob_at idx d im) ->
            ∀ d, d ∈ (seen ++ [d0])%list ->
              ∃ b, blob_at idx (Distribution.Digest d) im1 = Some b
                   ∧ recorded localrepo (seen ++ [d0])%list
                       (Distribution.Digest d) None b).
  { intros im1 Him1 d Hd. rewrite Him1.
    destruct (decide (dg = Distribution.Digest d)) as [Heq|Hne].
    - eexists. split; [done|]. rewrite <- Heq. split; [done|].
      split; [done|]. exists d0. split; [|done].
      apply elem_of_app. right. by left.
    - apply elem_of_app in Hd as [Hd|Hd%list_elem_of_singleton].
      + destruct (Hseen d Hd) as (b & Hb & Hrec). exists b. split; [done|].
        eapply recorded_more; [|done]. intros d1 Hd1.
        apply elem_of_app. by left.
      + subst d. done. }
  destruct (Blobs_Stat localrepo dg) as [e|] eqn:Hst.
  - apply IH.
    + simpl. by rewrite !length_alter.
    + apply Hstep. intros d. rewrite blob_at_with_image_alter.
      rewrite blob_at_set_blobToImages.
      rewrite blob_at_with_image_insert by done.
      by case_decide.
  - apply IH.
    + simpl. by rewrite length_alter.
    + apply Hstep. intros d. rewrite blob_at_with_image_insert by done.
      by case_decide.
Qed.

(** The records that [wg.Wait()] leaves: percent and size as they were, and
    on the record of a digest of the wait group the error of its fetch. *)
Lemma wait_records repo idx wg im gbe im' gbe' :
  wait repo idx wg im gbe = Returns (im', gbe') ->
  ∀ d b, blob_at idx d im = Some b ->
    ∃ b', blob_at idx d im' = Some b'
          ∧ Precent b' = Precent b
          ∧ V2.Size b' = V2.Size b
          ∧ Error b' = if decide (d ∈ wg)
                       then match Blobs_Get repo d with
                            | Some e => Some e
                            | None => Error b
                            end
                       else Error b.
Proof.
  revert im gbe. induction wg as [|d0 wg IH]; intros im gbe Hwait d b Hb.
  { injection Hwait as <- <-. exists b. split; [done|].
    by rewrite decide_False by apply not_elem_of_nil. }
  cbn [wait] in Hwait.
  destruct (Blobs_Get repo d0) as [e0|] eqn:Hget.
  - fold (blob_at idx d0 im) in Hwait.
    destruct (blob_at idx d0 im) as [b0|] eqn:Hb0; [|done].
    assert (Hlt : (idx < length (Images im))%nat).
    { unfold blob_at in Hb0. destruct (Images im !! idx) eqn:Hi; [|done].
      by eapply lookup_lt_Some. }
    destruct (decide (d0 = d)) as [->|Hne].
    + rewrite Hb0 in Hb. injection Hb as ->.
      destruct (IH _ _ Hwait d (set_Error (Some e0) b)) as (b' & ? & ? & ? & He).
      { rewrite blob_at_with_image_insert by done. by rewrite decide_True. }
      exists b'. split; [done|]. split; [done|]. split; [done|].
      rewrite decide_True by (by left). rewrite Hget.
      rewrite He, Hget. by case_decide.
    + destruct (IH _ _ Hwait d b) as (b' & ? & ? & ? & He).
      { rewrite blob_at_with_image_insert by done. by rewrite decide_False. }
      exists b'. split; [done|]. split; [done|]. split; [done|].
      rewrite He. destruct (decide (d ∈ wg)) as [Hin|Hin].
      * by rewrite decide_True by (by right).
      * rewrite decide_False; [done|]. intros [?|?]%elem_of_cons; done.
  - destruct (IH _ _ Hwait d b Hb) as (b' & ? & ? & ? & He).
    exists b'. split; [done|]. split; [done|]. split; [done|].
    destruct (decide (d0 = d)) as [->|Hne].
    + rewrite decide_True by (by left). rewrite Hget, He, Hget.
      by case_decide.
    + rewrite He. destruct (decide (d ∈ wg)) as [Hin|Hin].
      * by rewrite decide_True by (by right).
      * rewrite decide_False; [done|]. intros [?|?]%elem_of_cons; done.
Qed.

Lemma elem_of_missing_locally localrepo descs dg :
  dg ∈ missing_locally localrepo descs ↔
  is_Some (Blobs_Stat localrepo dg)
  ∧ ∃ d, d ∈ descs ∧ Distribution.Digest d = dg.
Proof.
  unfold missing_locally. rewrite list_elem_of_fmap. split.
  - intros (d & -> & Hd). apply list_elem_of_filter in Hd as [Hst Hd].
    split; [done|]. by exists d.
  - intros (Hst & d & Hd & <-). exists d. split; [done|].
    by apply list_elem_of_filter.
Qed.

(** [MirrorImage] on a manifest whose references all have known media
    types: the error it returns, the fetches it has started and waited for,
    and what it leaves of the status and the images. *)
Lemma MirrorImage_known repo localrepo desc m t :
  Forall (fun d => MediaType d ∈ blob_media_types) (References m) ->
  ∃ t',
    V2.MirrorImage repo localrepo desc m t
    = Returns (t', if some_fetch_fails repo
                        (missing_locally localrepo (References m))
                   then Some "download blob error" else None)
    ∧ fetched t'
      = (fetched t ++ missing_locally localrepo (References m))%list
    ∧ running t' = running t
    ∧ same_status (job t) (job t')
    ∧ length (Images (job t')) = S (length (Images (job t)))
    ∧ (missing_locally localrepo (References m) = [] ->
       blobToImages (job t') = blobToImages (job t))
    ∧ ∀ d, d ∈ References m ->
        ∃ b, blob_at (length (Images (job t))) (Distribution.Digest d)
               (job t') = Some b
             ∧ recorded localrepo (References m) (Distribution.Digest d)
                 (fetch_error repo localrepo (Distribution.Digest d)) b.
Proof.
  intros Hknown.
  pose proof (MirrorImage_status repo localrepo desc m t) as Hstatus.
  revert Hstatus. unfold V2.MirrorImage.
  pose proof (MirrorImage_entry desc t) as Hlen.
  set (im0 := set_Images _ (job t)) in *.
  set (idx := length (Images (job t))) in *.
  destruct (sync_blobs_inv localrepo idx (References m) im0 [] Hlen)
    as (Hl & _ & Hw & _).
  { intros d Hd. by apply elem_of_nil in Hd. }
  pose proof (sync_blobs_records localrepo idx [] (References m) im0 [] Hlen
                Hknown) as Hrec.
  assert (Hmap : missing_locally localrepo (References m) = [] ->
                 blobToImages (sync_blobs localrepo idx (References m) im0
                                 []).1.1 = blobToImages (job t)).
  { clear. intros Hnone. change (blobToImages (job t))
      with (blobToImages im0).
    generalize im0 (@nil string). clear im0.
    induction (References m) as [|d descs IH]; intros im wg; [done|].
    cbn [sync_blobs]. case_bool_decide; [|done].
    unfold missing_locally in Hnone. rewrite filter_cons in Hnone.
    destruct (Blobs_Stat localrepo (Distribution.Digest d)) eqn:Hst.
    - rewrite decide_True in Hnone by (by eexists). done.
    - rewrite decide_False in Hnone by (by intros [? ?]).
      by rewrite IH. }
  destruct (sync_blobs_all_known localrepo idx (References m) im0 [] Hknown)
    as [im Hsync].
  rewrite app_nil_l in Hsync.
  rewrite Hsync in Hl, Hw, Hrec, Hmap |- *. simpl in Hw, Hrec, Hmap.
  cbn [fst] in Hl.
  destruct (wait_inv repo idx (missing_locally localrepo (References m)) im
              false Hw) as (im' & Hwait & Hl' & _ & Hmap').
  rewrite Hwait. simpl. intros Hstatus.
  eexists. split; [done|]. simpl. split; [done|]. split; [done|].
  split; [done|]. split; [lia|].
  split; [intros Hnone; rewrite Hmap'; by apply Hmap|].
  intros d Hd. destruct (Hrec (fun d0 Hd0 => False_ind _
                                 (not_elem_of_nil d0 Hd0)) d Hd)
    as (b & Hb & Hp & He & Hsz).
  destruct (wait_records repo idx _ im false im' _ Hwait _ b Hb)
    as (b' & Hb' & Hp' & Hs' & He').
  exists b'. split; [done|]. split; [by rewrite Hp'|].
  split.
  - rewrite He', He. unfold fetch_error.
    destruct (decide (Distribution.Digest d
                      ∈ missing_locally localrepo (References m)))
      as [Hin|Hin].
    + apply elem_of_missing_locally in Hin as [[e ->] _].
      by destruct (Blobs_Get repo (Distribution.Digest d)).
    + destruct (Blobs_Stat localrepo (Distribution.Digest d)) eqn:Hst;
        [|done].
      exfalso. apply Hin, elem_of_missing_locally.
      split; [by eexists|]. by exists d.
  - destruct Hsz as (d1 & ? & ? & ?). exists d1. by rewrite Hs'.
Qed.

Lemma recorded_recorded_locally localrepo descs dig err b :
  recorded localrepo descs dig err b ->
  recorded_locally localrepo descs dig err b.
Proof.
  intros (Hp & He & Hs). split; [|done]. intros Hst. by rewrite Hp, Hst.
Qed.

(** X6: on a manifest whose references all have known media types, and
    with fetches that all return, [MirrorImage] starts a fetch for exactly
    the referenced blobs that the local repository lacks and waits for all
    of them; it returns ["download blob error"] when one of these fetches
    fails and nil otherwise; and it leaves a record for every referenced
    digest: the size of a referencing descriptor, the error of the fetch
    when it failed, and percent 100 for a blob held locally.  (The percent
    of a fetched blob is what the client reports; nothing is said of it.) *)
Theorem MirrorImage_known_manifest repo localrepo desc m t :
  Forall (fun d => MediaType d ∈ blob_media_types) (References m) ->
  ∃ t',
    V2.MirrorImage repo localrepo desc m t
    = Returns (t', if some_fetch_fails repo
                        (missing_locally localrepo (References m))
                   then Some "download blob error" else None)
    ∧ fetched t'
      = (fetched t ++ missing_locally localrepo (References m))%list
    ∧ running t' = running t
    ∧ ∀ d, d ∈ References m ->
        ∃ b, blob_at (length (Images (job t))) (Distribution.Digest d)
               (job t') = Some b
             ∧ recorded_locally localrepo (References m)
                 (Distribution.Digest d)
                 (fetch_error repo localrepo (Distribution.Digest d)) b.
Proof.
  intros Hknown.
  destruct (MirrorImage_known repo localrepo desc m t Hknown)
    as (t' & Hrun & Hf & Hr & _ & _ & _ & Hrec).
  exists t'. split; [done|]. split; [done|]. split; [done|].
  intros d Hd. destruct (Hrec d Hd) as (b & Hb & Hrecb).
  exists b. split; [done|]. by apply recorded_recorded_locally.
Qed.

Lemma two_layers_known :
  Forall (fun d => MediaType d ∈ blob_media_types)
    (References MoreExamples.two_layers).
Proof.
  apply (bool_decide_unpack
           (Forall (fun d => MediaType d ∈ blob_media_types)
              (References MoreExamples.two_layers))).
  vm_compute. exact I.
Defined.

Lemma MirrorImage_known_manifest_witness :
  ∃ t',
    V2.MirrorImage (MoreExamples.flaky "" MoreExamples.two_layers)
      (MoreExamples.local_with MoreExamples.two_layers ["sha256:aa"])
      (top_descriptor "") MoreExamples.two_layers transfer0
    = Returns (t', Some "download blob error")
    ∧ fetched t' = ["sha256:bb"]
    ∧ running t' = []
    ∧ (∃ b, blob_at 0 "sha256:aa" (job t') = Some b
            ∧ Precent b = 100 ∧ Error b = None)
    ∧ (∃ b, blob_at 0 "sha256:bb" (job t') = Some b
            ∧ Error b = Some "connection reset").
Proof.
  destruct (MirrorImage_known_manifest
              (MoreExamples.flaky "" MoreExamples.two_layers)
              (MoreExamples.local_with MoreExamples.two_layers ["sha256:aa"])
              (top_descriptor "")
              MoreExamples.two_layers transfer0 two_layers_known)
    as (t' & Hrun & Hf & Hr & Hrec).
  exists t'. split; [exact Hrun|]. split; [exact Hf|]. split; [exact Hr|].
  split.
  - destruct (Hrec (layer "sha256:aa")) as (b & Hb & Hp & He & _).
    { simpl. left. }
    exists b. split; [exact Hb|]. split; [exact (Hp eq_refl)|exact He].
  - destruct (Hrec (layer "sha256:bb")) as (b & Hb & _ & He & _).
    { simpl. right. left. }
    exists b. split; [exact Hb|exact He].
Defined.

(** ** The transfer run: how it ends *)

(** The loop over the children of an index mirrors every child that can be
    mirrored and goes on. *)
Lemma mirror_index_children_ok repo localrepo ms mds t :
  Forall (child_ok repo localrepo ms) mds ->
  ∃ t1, mirror_index repo localrepo ms mds t = Continue t1
        ∧ same_status (job t) (job t1)
        ∧ length (Images (job t1))
          = (length (Images (job t)) + length mds)%nat
        ∧ running t1 = running t.
Proof.
  intros Hok. revert t.
  induction Hok as [|md mds (Hmt & m & Hm & Hknown & Hfetch) _ IH]; intros t.
  { exists t. split; [done|]. split; [done|]. split; [simpl; lia|done]. }
  cbn [mirror_index]. rewrite bool_decide_eq_true_2 by exact Hmt.
  change (Distribution.Digest (child_descriptor md))
    with (Distribution.Digest (Descriptor_ md)).
  rewrite Hm.
  destruct (MirrorImage_known repo localrepo (child_descriptor md) m t Hknown)
    as (t1 & -> & _ & Hr1 & Hs1 & Hl1 & _).
  rewrite Hfetch. destruct (IH t1) as (t2 & -> & Hs2 & Hl2 & Hr2).
  exists t2. split; [done|].
  split; [by eapply same_status_trans|]. split; [simpl; lia|congruence].
Qed.

(** The images that the loop over the children of an index registers: one
    for each child, in the order of the index, with the digest and the
    platform of the child. *)
Lemma mirror_index_images repo localrepo ms mds t t1 :
  mirror_index repo localrepo ms mds t = Continue t1 ->
  ∃ imgs,
    Images (job t1) = (Images (job t) ++ imgs)%list
    ∧ Forall2
        (fun img md =>
           V2.Digest img = Distribution.Digest (Descriptor_ md)
           ∧ V2.Architecture img = Distribution.Architecture (PlatformSpec md)
           ∧ V2.OS img = Distribution.OS (PlatformSpec md))
        imgs mds.
Proof.
  revert t. induction mds as [|md mds IH]; intros t.
  { intros [= <-]. exists []. by rewrite app_nil_r. }
  cbn [mirror_index]. case_bool_decide; [|done].
  destruct (Get ms _) as [m|]; [|done].
  destruct (MirrorImage_appends repo localrepo (child_descriptor md) m t)
    as (t2 & err & img & -> & Himg & Hd & Hp).
  destruct err; [done|]. intros Hrest.
  destruct (IH t2 Hrest) as (imgs & Himgs & Hall).
  exists (img :: imgs). split.
  - rewrite Himgs, Himg. by rewrite <- app_assoc.
  - constructor; [|done]. simpl in Hp. by injection Hp as -> ->.
Qed.

(** X7: a run on a multi-platform index whose children can all be mirrored
    (image manifest type, manifest served, known blob types, every missing
    blob fetched) ends with [Success], the message ["mirror successed"] and
    the phase [Mirrored]; it has registered one image for each child, in the
    order of the index and with the digest and the platform of the child,
    in particular none when the index is empty, and has waited for every
    fetch that it started. *)
Theorem mirrorimages_index_success env repo localrepo ms lms desc mds t :
  client_NewRepository env = inl repo ->
  Manifests repo = inl ms ->
  embedded_Repository env = (Some localrepo, None) ->
  Manifests localrepo = inl lms ->
  Tags_Get repo (Tag (job t)) = inl desc ->
  Get lms (Distribution.Digest desc) = inl (ManifestList mds) ->
  MediaType desc = "application/vnd.oci.image.index.v1+json" ->
  Forall (child_ok repo localrepo ms) mds ->
  ∃ t', mirrorimages env t = Returns t'
        ∧ Code_ (job t') = Success
        ∧ Message (job t') = "mirror successed"
        ∧ Phase_ (job t') = Mirrored
        ∧ running t' = running t
        ∧ ∃ imgs,
            Images (job t') = (Images (job t) ++ imgs)%list
            ∧ Forall2
                (fun img md =>
                   V2.Digest img = Distribution.Digest (Descriptor_ md)
                   ∧ V2.Architecture img
                     = Distribution.Architecture (PlatformSpec md)
                   ∧ V2.OS img = Distribution.OS (PlatformSpec md))
                imgs mds.
Proof.
  intros Hrepo Hms Hlocal Hlms Htag Hget Hmt Hok.
  unfold mirrorimages. rewrite Hrepo, Hms, Hlocal, Hlms, Htag, Hget, Hmt.
  rewrite bool_decide_eq_false_2 by discriminate.
  rewrite bool_decide_eq_true_2 by done.
  destruct (mirror_index_children_ok repo localrepo ms mds t Hok)
    as (t1 & Hcont & _ & Hl & Hr).
  rewrite Hcont. apply mirror_index_images in Hcont as (imgs & Himgs & Hall).
  eexists. split; [done|]. simpl.
  split; [done|]. split; [done|]. split; [done|]. split; [done|].
  by exists imgs.
Qed.

(** X8: a run on a multi-platform index stops at the first child whose media
    type is not the image manifest type: it ends with [UnknownMediaType]
    and a message that names the type, the phase stays as it was, no image
    is registered for that child, and the children after it are not
    attempted. *)
Theorem mirrorimages_index_unknown_child env repo localrepo ms lms desc
    pre md post t :
  client_NewRepository env = inl repo ->
  Manifests repo = inl ms ->
  embedded_Repository env = (Some localrepo, None) ->
  Manifests localrepo = inl lms ->
  Tags_Get repo (Tag (job t)) = inl desc ->
  Get lms (Distribution.Digest desc)
  = inl (ManifestList (pre ++ md :: post)) ->
  MediaType desc = "application/vnd.oci.image.index.v1+json" ->
  Forall (child_ok repo localrepo ms) pre ->
  MediaType (Descriptor_ md) ≠ "application/vnd.oci.image.manifest.v1+json" ->
  ∃ t', mirrorimages env t = Returns t'
        ∧ Code_ (job t') = UnknownMediaType
        ∧ Message (job t')
          = "unknown mediatype: " ++ MediaType (Descriptor_ md)
        ∧ Phase_ (job t') = Phase_ (job t)
        ∧ length (Images (job t'))
          = (length (Images (job t)) + length pre)%nat
        ∧ running t' = running t.
Proof.
  intros Hrepo Hms Hlocal Hlms Htag Hget Hmt Hok Hbad.
  unfold mirrorimages. rewrite Hrepo, Hms, Hlocal, Hlms, Htag, Hget, Hmt.
  rewrite bool_decide_eq_false_2 by discriminate.
  rewrite bool_decide_eq_true_2 by done.
  destruct (mirror_index_children_ok repo localrepo ms pre t Hok)
    as (t1 & Hpre & (Hp & _) & Hl & Hr).
  rewrite (mirror_index_app _ _ _ _ _ _ _ Hpre).
  cbn [mirror_index]. rewrite bool_decide_eq_false_2 by exact Hbad.
  eexists. split; [done|]. cbn [job status running].
  assert (Hne : "unknown mediatype: " ++ MediaType (child_descriptor md) ≠ "")
    by done.
  rewrite (UpdateStatue_message _ _ _ Hne). simpl. by repeat split.
Qed.

(** X9: a run on a multi-platform index stops at the first child with a
    blob whose fetch fails: it ends with [Unknown] and the message
    ["mirror image blobs error: download blob error"], the phase stays as
    it was (the job is not [Mirrored]), the failing image is the last one
    registered, and the children after it are not attempted. *)
Theorem mirrorimages_index_fetch_failure env repo localrepo ms lms desc
    pre md post m t :
  client_NewRepository env = inl repo ->
  Manifests repo = inl ms ->
  embedded_Repository env = (Some localrepo, None) ->
  Manifests localrepo = inl lms ->
  Tags_Get repo (Tag (job t)) = inl desc ->
  Get lms (Distribution.Digest desc)
  = inl (ManifestList (pre ++ md :: post)) ->
  MediaType desc = "application/vnd.oci.image.index.v1+json" ->
  Forall (child_ok repo localrepo ms) pre ->
  MediaType (Descriptor_ md) = "application/vnd.oci.image.manifest.v1+json" ->
  Get ms (Distribution.Digest (Descriptor_ md)) = inl m ->
  Forall (fun d => MediaType d ∈ blob_media_types) (References m) ->
  some_fetch_fails repo (missing_locally localrepo (References m)) = true ->
  ∃ t', mirrorimages env t = Returns t'
        ∧ Code_ (job t') = Unknown
        ∧ Message (job t') = "mirror image blobs error: download blob error"
        ∧ Phase_ (job t') = Phase_ (job t)
        ∧ length (Images (job t'))
          = S (length (Images (job t)) + length pre)
        ∧ running t' = running t.
Proof.
  intros Hrepo Hms Hlocal Hlms Htag Hget Hmt Hok Hmd Hm Hknown Hfail.
  unfold mirrorimages. rewrite Hrepo, Hms, Hlocal, Hlms, Htag, Hget, Hmt.
  rewrite bool_decide_eq_false_2 by discriminate.
  rewrite bool_decide_eq_true_2 by done.
  destruct (mirror_index_children_ok repo localrepo ms pre t Hok)
    as (t1 & Hpre & (Hp & _) & Hl & Hr).
  rewrite (mirror_index_app _ _ _ _ _ _ _ Hpre).
  cbn [mirror_index]. rewrite bool_decide_eq_true_2 by exact Hmd.
  change (Distribution.Digest (child_descriptor md))
    with (Distribution.Digest (Descriptor_ md)).
  rewrite Hm.
  destruct (MirrorImage_known repo localrepo (child_descriptor md) m t1
              Hknown) as (t2 & -> & _ & Hr2 & (Hp2 & _) & Hl2 & _).
  rewrite Hfail. eexists. split; [done|]. cbn [job status running].
  assert (Hne : "mirror image blobs error: " ++ "download blob error" ≠ "")
    by done.
  rewrite (UpdateStatue_message _ _ _ Hne). simpl.
  repeat split; [congruence|lia|congruence].
Qed.

Lemma children_ok_example repo :
  (∀ d, Blobs_Get repo d = None) ->
  Forall (child_ok repo
            (local (ManifestList [child; MoreExamples.child2]))
            {| Get := fun _ => inl MoreExamples.two_layers |})
    [child; MoreExamples.child2].
Proof.
  intros Hget.
  assert (H : ∀ md,
            MediaType (Descriptor_ md)
            = "application/vnd.oci.image.manifest.v1+json" ->
            child_ok repo (local (ManifestList [child; MoreExamples.child2]))
              {| Get := fun _ => inl MoreExamples.two_layers |} md).
  { intros md Hmd. split; [done|]. exists MoreExamples.two_layers.
    split; [done|]. split; [apply two_layers_known|].
    simpl. rewrite !Hget.
    by rewrite !bool_decide_eq_false_2 by (by intros [? ?]). }
  repeat constructor; by apply H.
Defined.

Lemma mirrorimages_index_success_witness :
  ∃ t', mirrorimages MoreExamples.env_index_ok transfer0 = Returns t'
        ∧ Code_ (job t') = Success
        ∧ Message (job t') = "mirror successed"
        ∧ Phase_ (job t') = Mirrored
        ∧ running t' = [].
Proof.
  cut (∃ t', mirrorimages MoreExamples.env_index_ok transfer0 = Returns t'
             ∧ Code_ (job t') = Success
             ∧ Message (job t') = "mirror successed"
             ∧ Phase_ (job t') = Mirrored
             ∧ running t' = running transfer0
             ∧ ∃ imgs,
                 Images (job t') = (Images (job transfer0) ++ imgs)%list
                 ∧ Forall2
                     (fun img md =>
                        V2.Digest img = Distribution.Digest (Descriptor_ md)
                        ∧ V2.Architecture img
                          = Distribution.Architecture (PlatformSpec md)
                        ∧ V2.OS img = Distribution.OS (PlatformSpec md))
                     imgs [child; MoreExamples.child2]).
  { intros (t' & H1 & H2 & H3 & H4 & H5 & _). by exists t'. }
  apply (mirrorimages_index_success MoreExamples.env_index_ok
           (remote MoreExamples.oci_index MoreExamples.two_layers)
           (local (ManifestList [child; MoreExamples.child2]))
           {| Get := fun _ => inl MoreExamples.two_layers |}
           {| Get := fun _ => inl (ManifestList [child; MoreExamples.child2]) |}
           (top_descriptor MoreExamples.oci_index)
           [child; MoreExamples.child2] transfer0); try reflexivity.
  by apply children_ok_example.
Defined.

Lemma mirrorimages_index_unknown_child_witness :
  ∃ t', mirrorimages MoreExamples.env_index_odd transfer0 = Returns t'
        ∧ Code_ (job t') = UnknownMediaType
        ∧ Message (job t')
          = "unknown mediatype: application/vnd.docker.distribution.manifest.v1+json"
        ∧ Phase_ (job t') = Mirroring
        ∧ length (Images (job t')) = 1%nat
        ∧ running t' = [].
Proof.
  apply (mirrorimages_index_unknown_child MoreExamples.env_index_odd
           (remote MoreExamples.oci_index MoreExamples.two_layers)
           (local (ManifestList
                     [child; MoreExamples.odd_child; MoreExamples.child2]))
           {| Get := fun _ => inl MoreExamples.two_layers |}
           {| Get := fun _ =>
                inl (ManifestList
                       [child; MoreExamples.odd_child; MoreExamples.child2]) |}
           (top_descriptor MoreExamples.oci_index)
           [child] MoreExamples.odd_child [MoreExamples.child2] transfer0);
    try reflexivity; [|discriminate].
  constructor; [|constructor]. split; [reflexivity|].
  exists MoreExamples.two_layers. split; [reflexivity|].
  split; [apply two_layers_known|reflexivity].
Defined.

Lemma mirrorimages_index_fetch_failure_witness :
  ∃ t', mirrorimages MoreExamples.env_index_flaky transfer0 = Returns t'
        ∧ Code_ (job t') = Unknown
        ∧ Message (job t') = "mirror image blobs error: download blob error"
        ∧ Phase_ (job t') = Mirroring
        ∧ length (Images (job t')) = 1%nat
        ∧ running t' = [].
Proof.
  apply (mirrorimages_index_fetch_failure MoreExamples.env_index_flaky
           (MoreExamples.flaky MoreExamples.oci_index MoreExamples.two_layers)
           (local (ManifestList [child; MoreExamples.child2]))
           {| Get := fun _ => inl MoreExamples.two_layers |}
           {| Get := fun _ => inl (ManifestList [child; MoreExamples.child2]) |}
           (top_descriptor MoreExamples.oci_index)
           [] child [MoreExamples.child2] MoreExamples.two_layers transfer0);
    try reflexivity; [constructor|apply two_layers_known].
Defined.

Lemma some_fetch_fails_false repo ds d :
  some_fetch_fails repo ds = false -> d ∈ ds -> Blobs_Get repo d = None.
Proof.
  unfold some_fetch_fails. intros Hf Hd.
  induction ds as [|d0 ds IH]; [by apply elem_of_nil in Hd|].
  simpl in Hf. apply orb_false_iff in Hf as [Hd0 Hds].
  apply elem_of_cons in Hd as [->|Hd]; [|by apply IH].
  apply bool_decide_eq_false in Hd0.
  destruct (Blobs_Get repo d0); [|done]. exfalso. apply Hd0. by eexists.
Qed.

(** X10: a run on a single-platform manifest whose references all have
    known media types, and whose locally missing blobs are all fetched
    without an error, ends with [Success] and [Mirrored]; it has started and
    waited for the fetch of exactly the missing blobs; every referenced blob
    is recorded without an error and with the size of a referencing
    descriptor, at percent 100 when it was held locally (the percent of a
    fetched blob is what the client reports; nothing is said of it).  When
    every blob is held locally no fetch is started and [blobToImages] stays
    as it was. *)
Theorem mirrorimages_single_success env repo localrepo ms lms desc m t :
  client_NewRepository env = inl repo ->
  Manifests repo = inl ms ->
  embedded_Repository env = (Some localrepo, None) ->
  Manifests localrepo = inl lms ->
  Tags_Get repo (Tag (job t)) = inl desc ->
  Get lms (Distribution.Digest desc) = inl m ->
  MediaType desc = "application/vnd.docker.distribution.manifest.v2+json" ->
  Forall (fun d => MediaType d ∈ blob_media_types) (References m) ->
  some_fetch_fails repo (missing_locally localrepo (References m)) = false ->
  ∃ t', mirrorimages env t = Returns t'
        ∧ Code_ (job t') = Success
        ∧ Phase_ (job t') = Mirrored
        ∧ fetched t'
          = (fetched t ++ missing_locally localrepo (References m))%list
        ∧ running t' = running t
        ∧ (missing_locally localrepo (References m) = [] ->
           blobToImages (job t') = blobToImages (job t))
        ∧ ∀ d, d ∈ References m ->
            ∃ b, blob_at (length (Images (job t))) (Distribution.Digest d)
                   (job t') = Some b
                 ∧ recorded_locally localrepo (References m)
                     (Distribution.Digest d) None b.
Proof.
  intros Hrepo Hms Hlocal Hlms Htag Hget Hmt Hknown Hfetch.
  unfold mirrorimages. rewrite Hrepo, Hms, Hlocal, Hlms, Htag, Hget, Hmt.
  rewrite bool_decide_eq_true_2 by done.
  destruct (MirrorImage_known repo localrepo desc m t Hknown)
    as (t1 & -> & Hf & Hr & _ & _ & Hmap & Hrec).
  rewrite Hfetch. eexists. split; [done|]. simpl.
  split; [done|]. split; [done|]. split; [done|]. split; [done|].
  split; [done|]. intros d Hd. destruct (Hrec d Hd) as (b & Hb & Hp & He & Hs).
  exists b. split; [done|]. split; [intros Hst; by rewrite Hp, Hst|].
  split; [|done].
  rewrite He. unfold fetch_error.
  destruct (Blobs_Stat localrepo (Distribution.Digest d)) eqn:Hst; [|done].
  apply (some_fetch_fails_false _ _ _ Hfetch), elem_of_missing_locally.
  split; [by eexists|]. by exists d.
Qed.

Lemma mirrorimages_single_success_witness :
  ∃ t', mirrorimages MoreExamples.env_single_partial transfer0 = Returns t'
        ∧ Code_ (job t') = Success
        ∧ Phase_ (job t') = Mirrored
        ∧ fetched t' = ["sha256:bb"]
        ∧ running t' = []
        ∧ (∃ b, blob_at 0 "sha256:aa" (job t') = Some b
                ∧ Precent b = 100 ∧ Error b = None)
        ∧ (∃ b, blob_at 0 "sha256:bb" (job t') = Some b
                ∧ V2.Size b = 10 ∧ Error b = None).
Proof.
  destruct (mirrorimages_single_success MoreExamples.env_single_partial
              (remote MoreExamples.schema2 MoreExamples.two_layers)
              (MoreExamples.local_with MoreExamples.two_layers ["sha256:aa"])
              {| Get := fun _ => inl MoreExamples.two_layers |}
              {| Get := fun _ => inl MoreExamples.two_layers |}
              (top_descriptor MoreExamples.schema2)
              MoreExamples.two_layers transfer0)
    as (t' & Hrun & Hc & Hp & Hf & Hr & _ & Hrec); try reflexivity.
  { apply two_layers_known. }
  exists t'. split; [exact Hrun|]. split; [exact Hc|]. split; [exact Hp|].
  split; [exact Hf|]. split; [exact Hr|]. split.
  - destruct (Hrec (layer "sha256:aa")) as (b & Hb & H100 & He & _).
    { simpl. left. }
    exists b. split; [exact Hb|]. split; [exact (H100 eq_refl)|exact He].
  - destruct (Hrec (layer "sha256:bb")) as (b & Hb & _ & He & d & Hd & Hdg & Hs).
    { simpl. right. left. }
    exists b. split; [exact Hb|]. split; [|exact He].
    rewrite Hs. simpl in Hd.
    apply elem_of_cons in Hd as [->|Hd]; [discriminate Hdg|].
    apply elem_of_cons in Hd as [->|Hd]; [reflexivity|].
    by apply elem_of_nil in Hd.
Defined.

(** A status update on a state whose phase is that of the start of the run
    leaves the phase, or it is the final [Success]. *)
Lemma status_outcome code message t p :
  Phase_ (job t) = p ->
  Phase_ (job (status code message t)) = p
  ∨ (Phase_ (job (status code message t)) = Mirrored
     ∧ Code_ (job (status code message t)) = Success
     ∧ Message (job (status code message t)) = "mirror successed").
Proof.
  intros <-. simpl. unfold UpdateStatue.
  repeat case_bool_decide; subst; simpl; auto.
Qed.

Lemma mirror_index_Phase repo localrepo ms mds t :
  Phase_ (job match mirror_index repo localrepo ms mds t with
              | Continue t1 | Return t1 | Panic t1 => t1
              end) = Phase_ (job t).
Proof.
  revert t. induction mds as [|md mds IH]; intros t; [done|].
  cbn [mirror_index]. case_bool_decide.
  - destruct (Get ms _) as [m|e].
    + pose proof (MirrorImage_status repo localrepo (child_descriptor md) m t)
        as [Hs _].
      destruct (V2.MirrorImage repo localrepo (child_descriptor md) m t)
        as [[t1 [e|]]|[t1 e]]; simpl in Hs.
      * cbn [job status]. rewrite UpdateStatue_Phase.
        by rewrite bool_decide_eq_false_2 by (by intros [? ?]).
      * by rewrite IH.
      * done.
    + cbn [job status]. rewrite UpdateStatue_Phase.
      by rewrite bool_decide_eq_false_2 by (by intros [? ?]).
  - cbn [job status]. rewrite UpdateStatue_Phase.
    by rewrite bool_decide_eq_false_2 by (by intros [? ?]).
Qed.

(** X11: however a run ends, by a return or by a panic, if the phase of its
    job is not the one the job had at the start, then the phase is
    [Mirrored], the code [Success] and the message ["mirror successed"]:
    the run has made its last status update.  (The branch of a single
    manifest makes that update also after a failed [MirrorImage].) *)
Theorem mirrorimages_Mirrored_only_with_Success env t :
  ∀ t', (mirrorimages env t = Returns t' ∨ mirrorimages env t = Panics t') ->
        Phase_ (job t') ≠ Phase_ (job t) ->
        Phase_ (job t') = Mirrored
        ∧ Code_ (job t') = Success
        ∧ Message (job t') = "mirror successed".
Proof.
  assert (H : match mirrorimages env t with
              | Returns t' | Panics t' =>
                  Phase_ (job t') = Phase_ (job t)
                  ∨ (Phase_ (job t') = Mirrored
                     ∧ Code_ (job t') = Success
                     ∧ Message (job t') = "mirror successed")
              end).
  { unfold mirrorimages.
    destruct (client_NewRepository env) as [repo|e];
      [|by apply status_outcome].
    destruct (Manifests repo) as [ms|e]; [|by apply status_outcome].
    destruct (embedded_Repository env) as [localrepo err].
    set (t0 := match err with
               | Some e => status Unknown ("get local repository error: " ++ e) t
               | None => t
               end).
    assert (Ht0 : Phase_ (job t0) = Phase_ (job t)).
    { unfold t0. destruct err; [|done]. cbn [job status].
      rewrite UpdateStatue_Phase.
      by rewrite bool_decide_eq_false_2 by (by intros [? ?]). }
    destruct localrepo as [localrepo|]; [|by left].
    destruct (Manifests localrepo) as [lms|e]; [|by apply status_outcome].
    destruct (Tags_Get repo (Tag (job t0))) as [desc|e];
      [|by apply status_outcome].
    destruct (Get lms (Distribution.Digest desc)) as [m|e];
      [|by apply status_outcome].
    case_bool_decide.
    - pose proof (MirrorImage_status repo localrepo desc m t0) as [Hs _].
      destruct (V2.MirrorImage repo localrepo desc m t0)
        as [[t1 [e|]]|[t1 e]]; simpl in Hs.
      + apply status_outcome. cbn [job status]. rewrite UpdateStatue_Phase.
        rewrite bool_decide_eq_false_2 by (by intros [? ?]). congruence.
      + apply status_outcome. congruence.
      + left. congruence.
    - case_bool_decide; [|by apply status_outcome].
      destruct m as [refs|mds]; [by left|].
      pose proof (mirror_index_Phase repo localrepo ms mds t0) as Hi.
      destruct (mirror_index repo localrepo ms mds t0) as [t1|t1|t1].
      + apply status_outcome. congruence.
      + left. congruence.
      + left. congruence. }
  intros t' [Hrun|Hrun] Hne; rewrite Hrun in H; by destruct H.
Qed.

Lemma mirrorimages_Mirrored_only_with_Success_witness :
  ∃ t', mirrorimages MoreExamples.env_index_ok transfer0 = Returns t'
        ∧ Phase_ (job t') = Mirrored
        ∧ Code_ (job t') = Success
        ∧ Message (job t') = "mirror successed".
Proof.
  eexists. split; [vm_compute; reflexivity|].
  eapply (mirrorimages_Mirrored_only_with_Success MoreExamples.env_index_ok
            transfer0); [left; vm_compute; reflexivity|discriminate].
Defined.

(** X12: when the remote repository cannot resolve the tag, the run ends
    with [TagNotFound] and the canonical message ["tag not found"],
    whatever the error was; phase, images and [blobToImages] stay as they
    were and no fetch is started. *)
Theorem mirrorimages_tag_not_found env repo localrepo ms lms err t :
  client_NewRepository env = inl repo ->
  Manifests repo = inl ms ->
  embedded_Repository env = (Some localrepo, None) ->
  Manifests localrepo = inl lms ->
  Tags_Get repo (Tag (job t)) = inr err ->
  mirrorimages env t
  = Returns {| job := set_Message "tag not found"
                        (set_Code TagNotFound (job t));
               fetched := fetched t; running := running t |}.
Proof.
  intros Hrepo Hms Hlocal Hlms Htag.
  unfold mirrorimages. by rewrite Hrepo, Hms, Hlocal, Hlms, Htag.
Qed.

Lemma mirrorimages_tag_not_found_witness :
  mirrorimages MoreExamples.env_no_tag transfer0
  = Returns {| job := set_Message "tag not found"
                        (set_Code TagNotFound job0);
               fetched := []; running := [] |}.
Proof.
  apply (mirrorimages_tag_not_found MoreExamples.env_no_tag
           {| Manifests := inl {| Get := fun _ => inl MoreExamples.two_layers |};
              Blobs_Stat := fun _ => None;
              Blobs_Get := fun _ => None;
              Tags_Get := fun _ => inr "manifest unknown" |}
           (local MoreExamples.two_layers)
           {| Get := fun _ => inl MoreExamples.two_layers |}
           {| Get := fun _ => inl MoreExamples.two_layers |}
           "manifest unknown" transfer0); reflexivity.
Defined.

(** ** Registry keys *)

Lemma colon_free_app s1 s2 : colon_free (s1 ++ String ":" s2) = false.
Proof.
  induction s1 as [|a s1 IH]; simpl; [done|].
  rewrite IH. apply andb_false_r.
Qed.

(** X13: the registry key [name + ":" + tag] determines the name and the
    tag, provided the tags hold no colon: two requests share a job only when
    they name the same repository and the same tag. *)
Theorem ref_of_inj nm1 tag1 nm2 tag2 :
  colon_free tag1 = true -> colon_free tag2 = true ->
  ref_of nm1 tag1 = ref_of nm2 tag2 ->
  nm1 = nm2 ∧ tag1 = tag2.
Proof.
  unfold ref_of. intros H1 H2.
  change (":" ++ tag1) with (String ":" tag1).
  change (":" ++ tag2) with (String ":" tag2). revert nm2.
  induction nm1 as [|a nm1 IH]; intros [|b nm2];
    change (String.append "" ?s) with s;
    change (String.append (String ?c ?s1) ?s2)
      with (String c (String.append s1 s2)); intros Heq.
  - by injection Heq as ->.
  - injection Heq as <- ->. by rewrite colon_free_app in H1.
  - injection Heq as -> <-. by rewrite colon_free_app in H2.
  - injection Heq as -> Heq. destruct (IH nm2 Heq) as [-> ->]. done.
Qed.

Lemma ref_of_inj_witness :
  "library/app" = "library/app" ∧ "v1" = "v1".
Proof.
  apply (ref_of_inj "library/app" "v1" "library/app" "v1"); reflexivity.
Defined.

(** Without the proviso the keys collide. *)
Lemma ref_of_collision : ref_of "a" "b:c" = ref_of "a:b" "c".
Proof. reflexivity. Qed.

(** ** The controller, one call after the other *)

Lemma set_heap_id c l im :
  heap c !! l = Some im -> set_heap (<[l := im]> (heap c)) c = c.
Proof. intros H. unfold set_heap. rewrite (insert_id _ _ _ H). by destruct c. Qed.

(** [MirrorImage] of the controller on a key that the registry holds. *)
Lemma MirrorImage_present now nm tag c l im :
  mirrors c !! ref_of nm tag = Some l ->
  heap c !! l = Some im ->
  Controller.MirrorImage now nm tag c
  = Returns (set_heap (<[l := (IsPending im).1]> (heap c)) c, l,
             (IsPending im).2).
Proof.
  intros Hl Him. unfold Controller.MirrorImage.
  rewrite (getim_hit _ _ _ _ _ Hl), Him. by destruct (IsPending im).
Qed.

(** [MirrorImage] of the controller on a key that the registry does not
    hold. *)
Lemma MirrorImage_absent now nm tag c :
  mirrors c !! ref_of nm tag = None ->
  ∃ l, heap c !! l = None
       ∧ Controller.MirrorImage now nm tag c
         = Returns
             ({| mirrors := <[ref_of nm tag := l]> (mirrors c);
                 heap := <[l := set_Phase Mirroring
                                   (NewImageMirror now nm tag)]> (heap c) |},
              l, true).
Proof.
  intros Hnone.
  destruct (getim_miss now nm tag c Hnone) as (l & Hfresh & Hget).
  exists l. split; [done|].
  unfold Controller.MirrorImage. rewrite Hget. simpl.
  rewrite lookup_insert_eq. simpl. unfold set_heap. simpl.
  by rewrite insert_insert_eq.
Qed.

Lemma MirrorImage_claimed now nm tag c l im :
  mirrors c !! ref_of nm tag = Some l ->
  heap c !! l = Some im ->
  Phase_ im ≠ Pending ->
  Controller.MirrorImage now nm tag c = Returns (c, l, false).
Proof.
  intros Hl Him Hp.
  rewrite (MirrorImage_present now nm tag c l im Hl Him).
  unfold IsPending. rewrite bool_decide_eq_false_2 by done.
  cbn [fst snd]. by rewrite set_heap_id.
Qed.

(** X14: the first request for a key that the registry does not hold
    creates a job at an address not in use, claims it ([Mirroring]) and
    starts a transfer run; a second request for the key returns the same
    job, starts nothing and changes nothing. *)
Theorem MirrorImage_starts_one_run now1 now2 nm tag c :
  mirrors c !! ref_of nm tag = None ->
  ∃ c1 l,
    Controller.MirrorImage now1 nm tag c = Returns (c1, l, true)
    ∧ heap c !! l = None
    ∧ mirrors c1 = <[ref_of nm tag := l]> (mirrors c)
    ∧ heap c1
      = <[l := set_Phase Mirroring (NewImageMirror now1 nm tag)]> (heap c)
    ∧ Controller.MirrorImage now2 nm tag c1 = Returns (c1, l, false).
Proof.
  intros Hnone.
  destruct (MirrorImage_absent now1 nm tag c Hnone) as (l & Hfresh & Hrun).
  eexists _, l. split; [exact Hrun|]. split; [done|]. split; [done|].
  split; [done|].
  apply (MirrorImage_claimed now2 nm tag _ l
           (set_Phase Mirroring (NewImageMirror now1 nm tag)));
    [apply lookup_insert_eq..|done].
Qed.

Lemma MirrorImage_starts_one_run_witness :
  ∃ c1 l,
    Controller.MirrorImage 5 "library/app" "v1" registry0
    = Returns (c1, l, true)
    ∧ Controller.MirrorImage 6 "library/app" "v1" c1 = Returns (c1, l, false).
Proof.
  destruct (MirrorImage_starts_one_run 5 6 "library/app" "v1" registry0
              eq_refl) as (c1 & l & H1 & _ & _ & _ & H2).
  by exists c1, l.
Defined.

(** X15: a job that is no longer [Pending], be it in progress, failed or
    mirrored, is never run again: a request for its key returns it, starts
    no transfer run and changes nothing.  After [DeleteMirrorImage] a
    request for the key creates another job, leaves the old one as it is
    and starts a run. *)
Theorem MirrorImage_retries_only_after_delete now nm tag c l im :
  mirrors c !! ref_of nm tag = Some l ->
  heap c !! l = Some im ->
  Phase_ im ≠ Pending ->
  Controller.MirrorImage now nm tag c = Returns (c, l, false)
  ∧ ∃ c' l',
      Controller.MirrorImage now nm tag (DeleteMirrorImage nm tag c)
      = Returns (c', l', true)
      ∧ l' ≠ l
      ∧ mirrors c' !! ref_of nm tag = Some l'
      ∧ heap c' !! l = Some im
      ∧ heap c' !! l'
        = Some (set_Phase Mirroring (NewImageMirror now nm tag)).
Proof.
  intros Hl Him Hp. split.
  - by apply (MirrorImage_claimed now nm tag c l im).
  - destruct (MirrorImage_absent now nm tag (DeleteMirrorImage nm tag c))
      as (l' & Hfresh & Hrun).
    { apply lookup_delete_eq. }
    eexists _, l'. split; [exact Hrun|]. simpl in Hfresh.
    assert (Hne : l' ≠ l) by congruence.
    split; [done|]. simpl. split; [apply lookup_insert_eq|].
    split; [by rewrite lookup_insert_ne|apply lookup_insert_eq].
Qed.

Lemma MirrorImage_retries_only_after_delete_witness :
  Controller.MirrorImage (11 * day) "library/db" "v1" registry1
  = Returns (registry1, 3%positive, false).
Proof.
  apply (MirrorImage_retries_only_after_delete (11 * day) "library/db" "v1"
           registry1 3%positive
           (set_Phase Mirroring (NewImageMirror 0 "library/db" "v1")));
    [reflexivity|reflexivity|discriminate].
Defined.

(** ** The process never holds a nil pointer *)

(** A sweep tick on a registry without nil pointers: the keys it removes. *)
Lemma gc_tick_ok now c :
  registry_ok c ->
  ∃ nd, gc_tick now c = Returns (set_mirrors (delete_all nd (mirrors c)) c)
        ∧ ∀ ref, ref ∈ nd ↔
            ∃ l im, mirrors c !! ref = Some l ∧ heap c !! l = Some im
                    ∧ Phase_ im = Mirrored ∧ CreateTime im < cutoff now.
Proof.
  intros Hok. unfold gc_tick.
  destruct (collect_spec (heap c) (cutoff now) (map_to_list (mirrors c)) [])
    as (nd & -> & Hin).
  { intros ref l Hl. apply elem_of_map_to_list in Hl. by apply (Hok ref). }
  exists nd. split; [done|]. intros ref. rewrite Hin. split.
  - intros [Hnil|(l & im & Hl & ?)]; [by apply elem_of_nil in Hnil|].
    exists l, im. by rewrite <- elem_of_map_to_list.
  - intros (l & im & Hl & ?). right. exists l, im.
    by rewrite elem_of_map_to_list.
Qed.

Lemma registry_ok_fewer_keys m c :
  (∀ ref l, m !! ref = Some l -> mirrors c !! ref = Some l) ->
  registry_ok c -> registry_ok (set_mirrors m c).
Proof. intros Hsub Hok ref l Hl. apply (Hok ref). by apply Hsub. Qed.

Lemma registry_ok_heap h c :
  (∀ l, is_Some (heap c !! l) -> is_Some (h !! l)) ->
  registry_ok c -> registry_ok (set_heap h c).
Proof. intros Hsub Hok ref l Hl. apply Hsub, (Hok ref l Hl). Qed.

Lemma delete_all_sub nd (m : gmap string loc) ref l :
  delete_all nd m !! ref = Some l -> m !! ref = Some l.
Proof. rewrite delete_all_lookup. by case_decide. Qed.

Lemma process_ok_registry p : Controller.process_ok p ->
  registry_ok (Controller.controller p).
Proof. by intros [? _]. Qed.

(** Every event but a run that panics returns, and no event leaves a nil
    pointer in the process. *)
Lemma reg_step_ok op p :
  Controller.process_ok p ->
  match Controller.reg_step op p with
  | Returns p' => Controller.process_ok p'
  | Panics p' =>
      Controller.process_ok p'
      ∧ ∃ i env, op = Controller.OpRun i env ∧ Controller.run_panics i env p
  end.
Proof.
  intros [Hok Hst].
  destruct op as [now nm tag|nm tag|now|l code message|i env]; simpl.
  - pose proof (getim_registry_ok now nm tag (Controller.controller p) Hok)
      as Hok1.
    unfold Controller.MirrorImage.
    assert (Hheap : ∀ l0, is_Some (heap (Controller.controller p) !! l0) ->
              is_Some (heap (getim now nm tag (Controller.controller p)).1
                       !! l0)).
    { intros l0 [im0 Hl0].
      destruct (mirrors (Controller.controller p) !! ref_of nm tag)
        as [l1|] eqn:Hl1.
      - rewrite (getim_hit _ _ _ _ _ Hl1). by eexists.
      - destruct (getim_miss now nm tag _ Hl1) as (l2 & Hfresh & ->). simpl.
        rewrite lookup_insert_ne by congruence. by eexists. }
    destruct (getim now nm tag (Controller.controller p)) as [c1 l] eqn:Hget.
    simpl in Hok1, Hheap.
    assert (Hl : mirrors c1 !! ref_of nm tag = Some l).
    { destruct (mirrors (Controller.controller p) !! ref_of nm tag)
        as [l0|] eqn:Hl0.
      - rewrite (getim_hit _ _ _ _ _ Hl0) in Hget. by injection Hget as <- <-.
      - destruct (getim_miss now nm tag _ Hl0) as (l1 & _ & Heq).
        rewrite Heq in Hget. injection Hget as <- <-. apply lookup_insert_eq. }
    destruct (Hok1 _ _ Hl) as [im ->]. destruct (IsPending im) as [im' b].
    assert (Hkeep : ∀ l0, is_Some (heap c1 !! l0) ->
                          is_Some (<[l := im']> (heap c1) !! l0)).
    { intros l0 Hl0. destruct (decide (l = l0)) as [->|Hne].
      - rewrite lookup_insert_eq. by eexists.
      - by rewrite lookup_insert_ne. }
    split; simpl.
    + apply (registry_ok_heap _ c1); [exact Hkeep|done].
    + intros l0 Hl0. destruct b.
      * apply elem_of_app in Hl0 as [Hl0|Hl0%list_elem_of_singleton].
        -- by apply Hkeep, Hheap, Hst.
        -- subst l0. rewrite lookup_insert_eq. by eexists.
      * by apply Hkeep, Hheap, Hst.
  - split; [|done]. cbn [Controller.controller].
    apply (registry_ok_fewer_keys _ (Controller.controller p)); [|done].
    intros ref l Hl. destruct (decide (ref_of nm tag = ref)) as [<-|Hne].
    + by rewrite lookup_delete_eq in Hl.
    + by rewrite lookup_delete_ne in Hl.
  - destruct (gc_tick_ok now (Controller.controller p) Hok) as (nd & -> & _).
    split; [|done]. cbn [Controller.controller].
    apply (registry_ok_fewer_keys _ (Controller.controller p)); [|done].
    intros ref l. apply delete_all_sub.
  - assert (Hkeep : ∀ l0, is_Some (heap (Controller.controller p) !! l0) ->
              is_Some (alter (UpdateStatue code message) l
                         (heap (Controller.controller p)) !! l0)).
    { intros l0 [im Hl0]. destruct (decide (l = l0)) as [->|Hne].
      - rewrite lookup_alter_eq, Hl0. by eexists.
      - rewrite lookup_alter_ne by done. by eexists. }
    split; simpl.
    + apply (registry_ok_heap _ (Controller.controller p)); [exact Hkeep|done].
    + intros l0 Hl0. by apply Hkeep, Hst.
  - destruct (Controller.started p !! i) as [l|] eqn:Hi; [|done].
    assert (Hin : l ∈ Controller.started p) by (by eapply list_elem_of_lookup_2).
    destruct (Hst l Hin) as [im Him]. rewrite Him.
    assert (Hinv : ∀ t,
              Controller.process_ok
                {| Controller.controller :=
                     set_heap (<[l := job t]> (heap (Controller.controller p)))
                       (Controller.controller p);
                   Controller.started := delete i (Controller.started p) |}).
    { intros t.
      assert (Hkeep : ∀ l0, is_Some (heap (Controller.controller p) !! l0) ->
                is_Some (<[l := job t]> (heap (Controller.controller p))
                         !! l0)).
      { intros l0 Hl0. destruct (decide (l = l0)) as [->|Hne].
        - rewrite lookup_insert_eq. by eexists.
        - by rewrite lookup_insert_ne. }
      split; simpl.
      - apply (registry_ok_heap _ (Controller.controller p));
          [exact Hkeep|done].
      - intros l0 Hl0. apply Hkeep, Hst.
        apply list_elem_of_lookup in Hl0 as [j Hj].
        rewrite list_lookup_delete in Hj.
        case_decide; by eapply list_elem_of_lookup_2. }
    destruct (mirrorimages env _) as [t|t] eqn:Hrun; [apply Hinv|].
    split; [apply Hinv|]. exists i, env. split; [done|].
    by exists l, im, t.
Qed.

(** X16: starting from the empty registry of a new controller, whatever
    requests, deletions, sweep ticks, status updates and transfer runs
    follow one another, the process never holds a pointer without a job, in
    the registry or in a goroutine that [MirrorImage] has started, so no
    call of the controller and no sweep goes through a nil job; the process
    panics only where a transfer run panics. *)
Theorem process_panics_only_in_a_run ops :
  match Controller.reg_run ops
          {| Controller.controller := registry0; Controller.started := [] |}
  with
  | Returns p => Controller.process_ok p
  | Panics p =>
      Controller.process_ok p
      ∧ ∃ pre i env post p1,
          ops = (pre ++ Controller.OpRun i env :: post)%list
          ∧ Controller.reg_run pre
              {| Controller.controller := registry0;
                 Controller.started := [] |} = Returns p1
          ∧ Controller.run_panics i env p1
  end.
Proof.
  assert (H : ∀ p0, Controller.process_ok p0 ->
            match Controller.reg_run ops p0 with
            | Returns p => Controller.process_ok p
            | Panics p =>
                Controller.process_ok p
                ∧ ∃ pre i env post p1,
                    ops = (pre ++ Controller.OpRun i env :: post)%list
                    ∧ Controller.reg_run pre p0 = Returns p1
                    ∧ Controller.run_panics i env p1
            end).
  { induction ops as [|op ops IH]; intros p0 Hok; [done|].
    cbn [Controller.reg_run].
    pose proof (reg_step_ok op p0 Hok) as Hstep.
    destruct (Controller.reg_step op p0) as [p1|p1] eqn:Hop.
    - specialize (IH p1 Hstep).
      destruct (Controller.reg_run ops p1) as [p2|p2]; [done|].
      destruct IH as (Hok2 & pre & i & env & post & p3 & -> & Hpre & Hp).
      split; [done|]. exists (op :: pre), i, env, post, p3.
      split; [done|]. split; [|done].
      cbn [Controller.reg_run]. by rewrite Hop.
    - destruct Hstep as (Hok1 & i & env & -> & Hp). split; [done|].
      by exists [], i, env, ops, p0. }
  apply H. split; simpl; [apply map_Forall_empty|].
  intros l Hl. by apply elem_of_nil in Hl.
Qed.

(** ** The sweep over a run of events *)

(** X17: whatever ticks and cancellation signals reach the loop of [gc] on
    a registry without nil pointers, the sweep does not panic and never
    changes a job; a job that is not [Mirrored], however old, is never
    evicted, and a job that is evicted was [Mirrored]. *)
Theorem gc_keeps_unfinished_jobs evs c :
  registry_ok c ->
  ∃ c', gc evs c = Looping c'
        ∧ heap c' = heap c
        ∧ ∀ ref l im,
            mirrors c !! ref = Some l -> heap c !! l = Some im ->
            (Phase_ im ≠ Mirrored -> mirrors c' !! ref = Some l)
            ∧ (mirrors c' !! ref = None -> Phase_ im = Mirrored).
Proof.
  revert c. induction evs as [|ev evs IH]; intros c Hok.
  { exists c. split; [done|]. split; [done|]. intros ref l im Hl Him.
    split; [done|]. congruence. }
  cbn [gc]. destruct ev as [now|]; simpl.
  - destruct (gc_tick_ok now c Hok) as (nd & -> & Hnd).
    set (c1 := set_mirrors (delete_all nd (mirrors c)) c).
    assert (Hok1 : registry_ok c1).
    { apply registry_ok_fewer_keys; [|done]. intros ref l.
      apply delete_all_sub. }
    destruct (IH c1 Hok1) as (c' & -> & Hh & Hkeep).
    exists c'. split; [done|]. split; [done|]. intros ref l im Hl Him.
    destruct (decide (ref ∈ nd)) as [Hin|Hin].
    + apply Hnd in Hin as (l0 & im0 & Hl0 & Him0 & Hp & _).
      assert (im0 = im) as -> by congruence. split; [done|done].
    + assert (Hl1 : mirrors c1 !! ref = Some l).
      { unfold c1. simpl. rewrite delete_all_lookup. by rewrite decide_False. }
      apply (Hkeep ref l im Hl1 Him).
  - apply IH, Hok.
Qed.

Lemma gc_keeps_unfinished_jobs_witness :
  ∃ c', gc [TickerC (10 * day); CtxDone; TickerC (400 * day)] registry1
        = Looping c'
        ∧ mirrors c' !! "library/db:v1" = Some 3%positive.
Proof.
  destruct (gc_keeps_unfinished_jobs
              [TickerC (10 * day); CtxDone; TickerC (400 * day)] registry1
              registry1_ok) as (c' & Hrun & _ & Hkeep).
  exists c'. split; [exact Hrun|].
  apply (Hkeep "library/db:v1" 3%positive
           (set_Phase Mirroring (NewImageMirror 0 "library/db" "v1")));
    [reflexivity|reflexivity|discriminate].
Defined.

(** X18: a sweep tick removes nothing that an earlier tick at the same or a
    later time has left: run again at the same time, or at an earlier one,
    it returns the registry as it is. *)
Theorem gc_tick_idempotent now now' c c' :
  registry_ok c ->
  gc_tick now c = Returns c' ->
  now' <= now ->
  gc_tick now' c' = Returns c'.
Proof.
  intros Hok Hrun Hle.
  destruct (gc_tick_ok now c Hok) as (nd & Heq & Hnd).
  rewrite Heq in Hrun. injection Hrun as <-.
  set (c1 := set_mirrors (delete_all nd (mirrors c)) c).
  assert (Hok1 : registry_ok c1).
  { apply registry_ok_fewer_keys; [|done]. intros ref l. apply delete_all_sub. }
  destruct (gc_tick_ok now' c1 Hok1) as (nd' & -> & Hnd').
  assert (Hnil : nd' = []).
  { destruct nd' as [|ref nd']; [done|]. exfalso.
    destruct (proj1 (Hnd' ref)) as (l & im & Hl & Him & Hp & Ht);
      [by left|].
    unfold c1 in Hl. simpl in Hl. rewrite delete_all_lookup in Hl.
    case_decide as Hin; [done|]. apply Hin, Hnd. exists l, im.
    split; [done|]. split; [done|]. split; [done|].
    unfold cutoff in *. lia. }
  rewrite Hnil. unfold delete_all. simpl. by destruct c.
Qed.

Lemma gc_tick_idempotent_witness :
  ∃ c', gc_tick (10 * day) registry1 = Returns c'
        ∧ gc_tick (10 * day) c' = Returns c'.
Proof.
  eexists. split; [vm_compute; reflexivity|].
  apply (gc_tick_idempotent (10 * day) (10 * day) registry1);
    [exact registry1_ok|vm_compute; reflexivity|reflexivity].
Defined.

(** ** Concurrent callers of [getim] *)

Lemma exec_agree now nm tag sched m m' :
  exec now nm tag sched m = Some m' ->
  callers_agree (ref_of nm tag) m -> callers_agree (ref_of nm tag) m'.
Proof.
  revert m. induction sched as [|i sched IH]; intros m Hexec Hagree.
  - by injection Hexec as <-.
  - simpl in Hexec.
    destruct (sched_step now nm tag i m) as [m1|] eqn:Hstep; [|done].
    simpl in Hexec. apply (IH m1 Hexec). by eapply sched_step_agree.
Qed.

(** X19: under every schedule of [n] concurrent callers of
    [MirrorImage(name, tag)], the double-checked insertion of [getim] never
    hands out two jobs for the key: every caller that has come back from
    [getim], and so every caller that has finished, holds the job that the
    registry maps the key to. *)
Theorem getim_concurrent_one_job now nm tag sched n c m :
  exec now nm tag sched (init n c) = Some m ->
  ∀ i p l,
    threads m !! i = Some p ->
    p = PendLock l ∨ p = PendUnlock l ∨ p = PendRead l
    ∨ (∃ b, p = PendWrite l b) ∨ (∃ b, p = Spawn l b) ∨ p = Finished l ->
    mirrors (ctl (shared m)) !! ref_of nm tag = Some l.
Proof.
  intros Hexec i p l Hp Hpc.
  assert (Hinit : callers_agree (ref_of nm tag) (init n c)).
  { intros j q l0 Hq Hl0. apply lookup_replicate in Hq as [-> _]. done. }
  apply (exec_agree _ _ _ _ _ _ Hexec Hinit i p l Hp).
  destruct Hpc as [-> | [-> | [-> | [[b ->] | [[b ->] | ->]]]]]; done.
Qed.

Lemma getim_concurrent_one_job_witness :
  ∃ m, exec 5 "library/app" "v1" race (init 2 registry0) = Some m
       ∧ threads m !! 1%nat = Some (Finished 1%positive)
       ∧ mirrors (ctl (shared m)) !! ref_of "library/app" "v1"
         = Some 1%positive.
Proof.
  eexists. split; [vm_compute; reflexivity|]. split; [reflexivity|].
  eapply (getim_concurrent_one_job 5 "library/app" "v1" race 2 registry0 _
            _ 1%nat (Finished 1%positive) 1%positive);
    [reflexivity|by right; right; right; right; right].
  Unshelve. vm_compute. reflexivity.
Defined.

(** ** Deletion *)

(** X20: [DeleteMirrorImage] removes the key and nothing else, and is not
    an error on a key that the registry does not hold: the registry is then
    returned as it is.  It undoes what a [getim] for a new key has done to
    the registry map. *)
Theorem DeleteMirrorImage_undoes_getim now nm tag c :
  (∀ ref, mirrors (DeleteMirrorImage nm tag c) !! ref
          = if decide (ref = ref_of nm tag) then None else mirrors c !! ref)
  ∧ heap (DeleteMirrorImage nm tag c) = heap c
  ∧ (mirrors c !! ref_of nm tag = None ->
     DeleteMirrorImage nm tag c = c
     ∧ mirrors (DeleteMirrorImage nm tag (getim now nm tag c).1) = mirrors c).
Proof.
  split; [|split; [done|]].
  - intros ref. unfold DeleteMirrorImage, delim. simpl. case_decide as Hr.
    + subst. apply lookup_delete_eq.
    + by rewrite lookup_delete_ne.
  - intros Hnone. split.
    + unfold DeleteMirrorImage, delim, set_mirrors.
      rewrite delete_id by done. by destruct c.
    + destruct (getim_miss now nm tag c Hnone) as (l & _ & ->).
      unfold DeleteMirrorImage, delim. simpl.
      rewrite delete_insert_eq. by apply delete_id.
Qed.

Lemma DeleteMirrorImage_undoes_getim_witness :
  DeleteMirrorImage "library/app" "v9" registry1 = registry1
  ∧ mirrors (DeleteMirrorImage "library/app" "v9"
               (getim 5 "library/app" "v9" registry1).1)
    = mirrors registry1.
Proof.
  destruct (DeleteMirrorImage_undoes_getim 5 "library/app" "v9" registry1)
    as (_ & _ & H).
  apply H. reflexivity.
Defined.

(** ** The address of a new controller *)

Lemma append_nil_l (s : string) : String.append "" s = s.
Proof. done. Qed.

Lemma append_cons_l a (s1 s2 : string) :
  String.append (String a s1) s2 = String a (String.append s1 s2).
Proof. done. Qed.

Lemma split_colon_free s : colon_free s = true -> Controller.split_colon s = [s].
Proof.
  induction s as [|a s IH]; [done|]. cbn [colon_free Controller.split_colon].
  intros [Ha Hs]%andb_true_iff. apply negb_true_iff in Ha. rewrite Ha.
  by rewrite IH.
Qed.

Lemma split_colon_app h r :
  colon_free h = true ->
  Controller.split_colon (String.append h (String ":" r))
  = h :: Controller.split_colon r.
Proof.
  induction h as [|a h IH].
  - intros _. rewrite append_nil_l. done.
  - cbn [colon_free]. intros [Ha Hh]%andb_true_iff.
    apply negb_true_iff in Ha. rewrite append_cons_l.
    cbn [Controller.split_colon]. rewrite Ha. by rewrite IH.
Qed.

Lemma append_colon_not_empty h r : String.append h (String ":" r) ≠ "".
Proof. by destruct h. Qed.

(** X21: the address that a new controller connects to.  With an empty
    [HTTP.Addr] it is [http://127.0.0.1:5000]; with [host:port] it is
    [http://host:port], the host defaulting to [127.0.0.1] when it is
    empty; whatever follows a second colon is dropped; and with a non-empty
    address that holds no colon, [NewMirrorController] panics on
    [parts[1]]. *)
Theorem controller_url_spec host port rest :
  colon_free host = true -> colon_free port = true ->
  Controller.controller_url "" = Some "http://127.0.0.1:5000"
  ∧ Controller.controller_url (String.append host (String ":" port))
    = Some (String.append "http://"
              (String.append (if bool_decide (host = "") then "127.0.0.1"
                              else host)
                 (String ":" port)))
  ∧ Controller.controller_url
      (String.append host (String ":" (String.append port (String ":" rest))))
    = Controller.controller_url (String.append host (String ":" port))
  ∧ (host ≠ "" -> Controller.controller_url host = None).
Proof.
  intros Hh Hp. split; [done|].
  assert (Hgen : ∀ r parts,
            Controller.split_colon r = port :: parts ->
            Controller.controller_url (String.append host (String ":" r))
            = Some (String.append "http://"
                      (String.append (if bool_decide (host = "")
                                      then "127.0.0.1" else host)
                         (String ":" port)))).
  { intros r parts Hr. unfold Controller.controller_url.
    rewrite bool_decide_eq_false_2 by apply append_colon_not_empty.
    rewrite (split_colon_app _ _ Hh), Hr. by case_bool_decide. }
  split; [|split].
  - apply (Hgen port []). by apply split_colon_free.
  - rewrite (Hgen port []) by (by apply split_colon_free).
    apply (Hgen _ (Controller.split_colon rest)). by apply split_colon_app.
  - intros Hne. unfold Controller.controller_url.
    rewrite bool_decide_eq_false_2 by done.
    rewrite (split_colon_free _ Hh). by case_bool_decide.
Qed.

Lemma controller_url_spec_witness :
  Controller.controller_url ":5000" = Some "http://127.0.0.1:5000"
  ∧ Controller.controller_url "registry:5000" = Some "http://registry:5000"
  ∧ Controller.controller_url "registry" = None.
Proof.
  destruct (controller_url_spec "" "5000" "" eq_refl eq_refl)
    as (_ & H1 & _).
  destruct (controller_url_spec "registry" "5000" "" eq_refl eq_refl)
    as (_ & H2 & _ & H3).
  split; [exact H1|]. split; [exact H2|]. apply H3. discriminate.
Defined.

(** ** Progress updates *)

(** X22: on a blob of declared size greater than 0 and for byte counts whose
    product with 100 fits [int64], the percent grows with the number of
    bytes received: it is 0 for no byte, it never decreases, and it is 100
    when all the bytes of the declared size have been received. *)
Theorem precent_of_monotone size r1 r2 :
  0 < size -> 0 <= r1 <= r2 -> r2 * 100 <= Int64.max_int64 ->
  ∃ p1 p2,
    precent_of r1 size = Some p1
    ∧ precent_of r2 size = Some p2
    ∧ p1 <= p2
    ∧ precent_of 0 size = Some 0
    ∧ (r2 = size -> p2 = 100).
Proof.
  intros Hs Hr Hmax. unfold Int64.max_int64 in Hmax.
  exists (r1 * 100 / size), (r2 * 100 / size).
  split; [apply precent_of_exact; unfold Int64.max_int64; lia|].
  split; [apply precent_of_exact; unfold Int64.max_int64; lia|].
  split; [apply Z.div_le_mono; lia|].
  split.
  - rewrite precent_of_exact by (unfold Int64.max_int64; lia).
    by rewrite Z.mul_0_l, Z.div_0_l by lia.
  - intros ->. rewrite Z.mul_comm. apply Z.div_mul. lia.
Qed.

Lemma precent_of_monotone_witness :
  ∃ p1 p2,
    precent_of 512 2048 = Some p1
    ∧ precent_of 2048 2048 = Some p2
    ∧ p1 <= p2
    ∧ precent_of 0 2048 = Some 0
    ∧ (2048 = 2048 -> p2 = 100).
Proof.
  apply (precent_of_monotone 2048 512 2048); unfold Int64.max_int64; lia.
Defined.

(** What a progress update that returns nil has found and done. *)
Lemma UpdateImagePrecent_nil_inv dig size im im1 :
  UpdateImagePrecent dig size im = Returns (im1, None) ->
  ∃ idx img layer p,
    blobToImages im !! dig = Some idx
    ∧ 0 <= idx
    ∧ Images im !! Z.to_nat idx = Some img
    ∧ Blobs img !! dig = Some layer
    ∧ precent_of size (V2.Size layer) = Some p
    ∧ im1 = with_precent (Z.to_nat idx) dig p img layer im.
Proof.
  unfold UpdateImagePrecent.
  destruct (blobToImages im !! dig) as [idx|]; [|done].
  case_bool_decide; [done|]. case_bool_decide; [done|].
  destruct (Images im !! Z.to_nat idx) as [img|] eqn:Himg; [|done].
  destruct (Blobs img !! dig) as [layer|] eqn:Hlayer; [|done].
  destruct (precent_of size (V2.Size layer)) as [p|] eqn:Hp; [|done].
  intros [= <-]. exists idx, img, layer, p. repeat split; [lia|done..].
Qed.

Lemma precent_of_defined s1 s2 size p :
  precent_of s1 size = Some p -> is_Some (precent_of s2 size).
Proof.
  unfold precent_of, Int64.div. destruct (decide (size = 0)); [done|].
  by eexists.
Qed.

(** X23: progress updates compose.  A later update for a digest replaces an
    earlier one: the job is as if only the later one had been made.  Updates
    for two different digests can be made in either order: the job is the
    same. *)
Theorem UpdateImagePrecent_compose dig1 dig2 s1 s2 s3 im im1 im2 :
  UpdateImagePrecent dig1 s1 im = Returns (im1, None) ->
  UpdateImagePrecent dig2 s2 im = Returns (im2, None) ->
  UpdateImagePrecent dig1 s3 im1 = UpdateImagePrecent dig1 s3 im
  ∧ (dig1 ≠ dig2 ->
     UpdateImagePrecent dig2 s2 im1 = UpdateImagePrecent dig1 s1 im2).
Proof.
  intros H1 H2.
  destruct (UpdateImagePrecent_nil_inv _ _ _ _ H1)
    as (i1 & img1 & l1 & p1 & Hi1 & Hpos1 & Himg1 & Hl1 & Hp1 & ->).
  destruct (UpdateImagePrecent_nil_inv _ _ _ _ H2)
    as (i2 & img2 & l2 & p2 & Hi2 & Hpos2 & Himg2 & Hl2 & Hp2 & ->).
  pose proof (lookup_lt_Some _ _ _ Himg1) as Hlt1.
  pose proof (lookup_lt_Some _ _ _ Himg2) as Hlt2.
  split.
  - destruct (precent_of_defined s1 s3 _ _ Hp1) as [p3 Hp3].
    rewrite (UpdateImagePrecent_tracked dig1 s3 im i1 img1 l1) by done.
    rewrite (UpdateImagePrecent_tracked dig1 s3 _ i1
               (set_Blobs (<[dig1 := set_Precent p1 l1]> (Blobs img1)) img1)
               (set_Precent p1 l1)); [|done|done| |].
    + simpl. rewrite Hp3. unfold with_precent, set_Images, set_Blobs. simpl.
      by rewrite list_insert_insert_eq, insert_insert_eq.
    + simpl. by rewrite list_lookup_insert_eq.
    + simpl. apply lookup_insert_eq.
  - intros Hne.
    rewrite (UpdateImagePrecent_tracked dig2 s2 _ i2
               (if decide (i1 = i2)
                then set_Blobs (<[dig1 := set_Precent p1 l1]> (Blobs img1))
                       img1
                else img2) l2); [|done|done| |].
    2:{ simpl. case_decide as Hi.
        - rewrite <- Hi. by rewrite list_lookup_insert_eq.
        - rewrite list_lookup_insert_ne; [done|]. intros Heq. apply Hi. lia. }
    2:{ case_decide as Hi; [|done]. simpl. rewrite lookup_insert_ne by done.
        rewrite Hi in Himg1. congruence. }
    rewrite (UpdateImagePrecent_tracked dig1 s1 _ i1
               (if decide (i1 = i2)
                then set_Blobs (<[dig2 := set_Precent p2 l2]> (Blobs img2))
                       img2
                else img1) l1); [|done|done| |].
    2:{ simpl. case_decide as Hi.
        - rewrite Hi. by rewrite list_lookup_insert_eq.
        - rewrite list_lookup_insert_ne; [done|]. intros Heq. apply Hi. lia. }
    2:{ case_decide as Hi; [|done]. simpl. rewrite lookup_insert_ne by done.
        rewrite <- Hi in Himg2. congruence. }
    rewrite Hp1, Hp2. f_equal. f_equal.
    unfold with_precent, set_Images, set_Blobs. simpl.
    destruct (decide (i1 = i2)) as [Hi|Hi].
    + rewrite <- Hi in *. assert (img2 = img1) as -> by congruence.
      rewrite !list_insert_insert_eq. simpl.
      by rewrite (insert_insert_ne _ dig1 dig2) by done.
    + rewrite list_insert_insert_ne; [done|]. intros Heq. apply Hi. lia.
Qed.

Lemma UpdateImagePrecent_compose_witness :
  ∃ im1,
    UpdateImagePrecent "sha256:aa" 1 (tracking 3) = Returns (im1, None)
    ∧ UpdateImagePrecent "sha256:aa" 3 im1
      = UpdateImagePrecent "sha256:aa" 3 (tracking 3).
Proof.
  eexists. split; [vm_compute; reflexivity|].
  eapply (UpdateImagePrecent_compose "sha256:aa" "sha256:aa" 1 2 3
            (tracking 3)); vm_compute; reflexivity.
Defined.

(** ** Concurrent callers: no request is lost *)

Lemma lookup_step (ts : list pc) i j p' q :
  <[i := p']> ts !! j = Some q ->
  (j = i ∧ q = p') ∨ (j ≠ i ∧ ts !! j = Some q).
Proof.
  intros H. destruct (decide (i = j)) as [->|Hne].
  - left. split; [done|].
    destruct (decide (j < length ts)%nat).
    + rewrite list_lookup_insert_eq in H by done. congruence.
    + rewrite list_insert_ge in H by lia. apply lookup_lt_Some in H. lia.
  - right. split; [done|]. by rewrite list_lookup_insert_ne in H.
Qed.

Lemma phase_frame ref p' s s' :
  heap (ctl s') = heap (ctl s) ->
  ∀ l ph, phase_at l s = Some ph ->
    ∃ ph', phase_at l s' = Some ph'
           ∧ (ph ≠ Pending -> ph' ≠ Pending)
           ∧ (ph' ≠ Pending ->
              ph ≠ Pending
              ∨ (p' = Spawn l true ∧ mirrors (ctl s) !! ref = Some l)).
Proof.
  intros Hh l ph Hph. unfold phase_at in *. rewrite Hh, Hph.
  exists ph. tauto.
Qed.

Lemma step_has_effects now nm tag p p' s s' :
  step now nm tag p s = Some (p', s') ->
  (∀ l, job_held p = Some l -> mirrors (ctl s) !! ref_of nm tag = Some l) ->
  step_effects (ref_of nm tag) p p' s s'.
Proof.
  intros Hstep Hheld.
  destruct p; simpl in Hstep.
  - destruct (writer s); simplify_eq.
    split; [by apply phase_frame|]. repeat split; try done; naive_solver.
  - simplify_eq. split; [by apply phase_frame|].
    repeat split; try done; naive_solver.
  - simplify_eq. split; [by apply phase_frame|].
    repeat split; try done; destruct r; naive_solver.
  - simplify_eq. unfold alloc in *. simpl in *.
    pose proof (alloc_fresh (NewImageMirror now nm tag) (ctl s)) as Hfresh.
    unfold alloc in Hfresh. simpl in Hfresh.
    set (l0 := fresh (dom (heap (ctl s)))) in *.
    split.
    { intros l ph Hph. unfold phase_at in *. simpl.
      destruct (decide (l0 = l)) as [<-|Hne].
      - by rewrite Hfresh in Hph.
      - rewrite lookup_insert_ne by done. rewrite Hph. exists ph. tauto. }
    split; [done|]. split; [done|]. split; [by left|].
    split; [|done]. intros l [= <-]. split; [done|]. right.
    unfold phase_at. simpl. rewrite Hfresh, lookup_insert_eq. done.
  - destruct (writer s || _); simplify_eq.
    split; [by apply phase_frame|]. repeat split; try done; naive_solver.
  - unfold getim_insert in Hstep.
    destruct (mirrors (ctl s) !! ref_of nm tag) as [l0|] eqn:Hl0;
      simplify_eq; simpl.
    + split; [by apply phase_frame|]. repeat split; try done; naive_solver.
    + split; [by apply phase_frame|]. split; [done|]. split; [done|].
      split; [|done]. simpl. rewrite lookup_insert_eq. intros l0 [= <-].
      by right.
  - simplify_eq. split; [by apply phase_frame|].
    repeat split; try done; naive_solver.
  - case_bool_decide; simplify_eq. split; [by apply phase_frame|].
    repeat split; try done; naive_solver.
  - simplify_eq. split; [by apply phase_frame|].
    repeat split; try done; naive_solver.
  - destruct (heap (ctl s) !! l) as [im|] eqn:Him; simplify_eq/=.
    split; [by apply phase_frame|]. split; [done|]. split; [done|].
    split; [by left|]. split; [done|].
    intros l0 Hl0. right. case_bool_decide as Hph; [done|].
    injection Hl0 as <-. exists (Phase_ im). unfold phase_at. by rewrite Him.
  - destruct isPending.
    + destruct (heap (ctl s) !! l) as [im|] eqn:Him; simplify_eq/=.
      split.
      { intros l0 ph Hph. unfold phase_at in *. simpl.
        destruct (decide (l = l0)) as [<-|Hne].
        - rewrite lookup_insert_eq. simpl. exists Mirroring.
          split; [done|]. split; [done|]. intros _. right.
          split; [done|]. by apply Hheld.
        - rewrite lookup_insert_ne by done. rewrite Hph. exists ph. tauto. }
      split; [done|]. split; [done|]. split; [by left|]. split; [done|].
      intros l0 [= <-]. right. exists Mirroring. unfold phase_at. simpl.
      by rewrite lookup_insert_eq.
    + simplify_eq. split; [by apply phase_frame|].
      repeat split; try done; naive_solver.
  - simplify_eq. split.
    { apply phase_frame. by destruct isPending. }
    split; [destruct isPending; simpl; [|done]; intros _;
            by destruct (transfers s)|].
    split; [intros l0 [= <- ->]; simpl; by destruct (transfers s)|].
    split; [destruct isPending; by left|]. split; [done|].
    intros l0 [= <-]. by left.
  - done.
Qed.

Lemma run_started_step l ts s i p p' s' :
  ts !! i = Some p ->
  (transfers s ≠ [] -> transfers s' ≠ []) ->
  (∀ l, p = Spawn l true -> transfers s' ≠ []) ->
  run_started l {| threads := ts; shared := s |} ->
  run_started l {| threads := <[i := p']> ts; shared := s' |}.
Proof.
  intros Hp Htr Hsp [Ht|[j Hj]]; simpl in *.
  - left. by apply Htr.
  - destruct (decide (i = j)) as [->|Hne].
    + left. apply (Hsp l). congruence.
    + right. exists j. simpl. by rewrite list_lookup_insert_ne.
Qed.

Lemma run_inv_step ref ts s i p p' s' :
  ts !! i = Some p ->
  step_effects ref p p' s s' ->
  callers_agree ref {| threads := <[i := p']> ts; shared := s' |} ->
  run_inv ref {| threads := ts; shared := s |} ->
  run_inv ref {| threads := <[i := p']> ts; shared := s' |}.
Proof.
  intros Hp (Hheap & Htr & Hsp & Hmir & Hpr & Hsc) Hagree'
    (Hagree & Hreg & Hseen & Hpriv). simpl in *.
  assert (Hpend : ∀ l, phase_at l s = Some Pending ->
                       mirrors (ctl s) !! ref ≠ Some l ->
                       phase_at l s' = Some Pending).
  { intros l Hl Hnot. destruct (Hheap l _ Hl) as (ph' & Hph' & _ & Hback).
    rewrite Hph'. f_equal. destruct (decide (ph' = Pending)) as [|Hne]; [done|].
    destruct (Hback Hne) as [?|[_ ?]]; done. }
  split; [done|]. split; [|split]; simpl.
  - intros l Hl. destruct (Hmir l Hl) as [Hold|Hnew].
    + destruct (Hreg l Hold) as (ph & Hph & Hst).
      destruct (Hheap l ph Hph) as (ph' & Hph' & _ & Hback).
      exists ph'. split; [done|]. intros Hne.
      destruct (Hback Hne) as [Hne0|[-> _]].
      * by apply (run_started_step l ts s i p), Hst.
      * right. exists i. simpl. apply list_lookup_insert_eq.
        by eapply lookup_lt_Some.
    + destruct (Hpriv i p l Hp Hnew) as (Hph & Hnot & _).
      exists Pending. split; [by apply Hpend|done].
  - intros j q l Hq Hl. apply lookup_step in Hq as [[-> ->]|[Hne Hq]].
    + destruct (Hsc l Hl) as [Hold|?]; [|done].
      destruct (Hseen i p l Hp Hold) as (ph & Hph & Hne).
      destruct (Hheap l ph Hph) as (ph' & Hph' & Hkeep & _).
      exists ph'. split; [done|]. by apply Hkeep.
    + destruct (Hseen j q l Hq Hl) as (ph & Hph & Hne').
      destruct (Hheap l ph Hph) as (ph' & Hph' & Hkeep & _).
      exists ph'. split; [done|]. by apply Hkeep.
  - intros j q l Hq Hl. apply lookup_step in Hq as [[-> ->]|[Hne Hq]].
    + destruct (Hpr l Hl) as [Hsame [Hold|[Hnone Hfresh]]].
      * destruct (Hpriv i p l Hp Hold) as (Hph & Hnot & Hdist).
        split; [by apply Hpend|]. split; [by rewrite Hsame|].
        intros j q Hne Hq. apply lookup_step in Hq as [[-> _]|[_ Hq]]; [done|].
        by apply (Hdist j q).
      * split; [done|]. split.
        { rewrite Hsame. intros Hl'. destruct (Hreg l Hl') as (ph & Hph & _).
          congruence. }
        intros j q Hne Hq Hq'.
        apply lookup_step in Hq as [[-> _]|[_ Hq]]; [done|].
        destruct (Hpriv j q l Hq Hq') as (Hph & _). congruence.
    + destruct (Hpriv j q l Hq Hl) as (Hph & Hnot & Hdist).
      split; [by apply Hpend|]. split.
      { intros Hl'. destruct (Hmir l Hl') as [?|Hp']; [done|].
        by apply (Hdist i p). }
      intros j' q' Hne' Hq' Hpq'.
      apply lookup_step in Hq' as [[-> ->]|[_ Hq']].
      * destruct (Hpr l Hpq') as [_ [Hold|[Hnone _]]]; [|congruence].
        by apply (Hdist i p).
      * by apply (Hdist j' q').
Qed.

Lemma exec_run_inv now nm tag sched m m' :
  exec now nm tag sched m = Some m' ->
  run_inv (ref_of nm tag) m -> run_inv (ref_of nm tag) m'.
Proof.
  revert m. induction sched as [|i sched IH]; intros m Hexec Hinv.
  - by injection Hexec as <-.
  - simpl in Hexec.
    destruct (sched_step now nm tag i m) as [m1|] eqn:Hstep; [|done].
    simpl in Hexec. apply (IH m1 Hexec).
    pose proof (sched_step_agree _ _ _ _ _ _ Hstep (proj1 Hinv)) as Hagree'.
    unfold sched_step in Hstep.
    destruct (threads m !! i) as [p|] eqn:Hp; [|done]. simpl in Hstep.
    destruct (step now nm tag p (shared m)) as [[p' s']|] eqn:Hs; [|done].
    simpl in Hstep. injection Hstep as <-. destruct m as [ts s].
    apply (run_inv_step _ ts s i p p' s' Hp); [|done|done].
    apply (step_has_effects now nm tag _ _ _ _ Hs).
    intros l Hl. by apply (proj1 Hinv i p l Hp).
Qed.

(** X24: no request is lost.  Under every schedule of [n] concurrent
    callers of [MirrorImage(name, tag)] on a registry that does not hold the
    key, or holds it with a [Pending] job, as soon as one caller has finished
    a transfer run has been started or another caller stands before the [go]
    statement that starts one; when all callers have finished, a transfer
    run has been started. *)
Theorem finished_caller_has_started_a_run now nm tag sched n c m :
  (∀ l, mirrors c !! ref_of nm tag = Some l ->
        ∃ im, heap c !! l = Some im ∧ Phase_ im = Pending) ->
  exec now nm tag sched (init n c) = Some m ->
  ∀ i l, threads m !! i = Some (Finished l) ->
    (transfers (shared m) ≠ []
     ∨ ∃ j, threads m !! j = Some (Spawn l true))
    ∧ ((∀ j p, threads m !! j = Some p -> ∃ l', p = Finished l') ->
       transfers (shared m) ≠ []).
Proof.
  intros Hc Hexec i l Hi.
  cut (transfers (shared m) ≠ []
       ∨ ∃ j, threads m !! j = Some (Spawn l true)).
  { intros Hst. split; [done|]. intros Hall.
    destruct Hst as [?|[j Hj]]; [done|].
    by destruct (Hall j _ Hj) as [l' ?]. }
  assert (Hinit : run_inv (ref_of nm tag) (init n c)).
  { split; [|split; [|split]]; simpl.
    - intros j q l0 Hq Hl0. apply lookup_replicate in Hq as [-> _]. done.
    - intros l0 Hl0. destruct (Hc l0 Hl0) as (im & Him & Hph).
      exists Pending. unfold phase_at. simpl. rewrite Him. simpl.
      by rewrite Hph.
    - intros j q l0 Hq Hl0. apply lookup_replicate in Hq as [-> _]. done.
    - intros j q l0 Hq Hl0. apply lookup_replicate in Hq as [-> _]. done. }
  destruct (exec_run_inv _ _ _ _ _ _ Hexec Hinit)
    as (Hagree & Hreg & Hseen & _).
  destruct (Hseen i _ l Hi eq_refl) as (ph & Hph & Hne).
  destruct (Hreg l (Hagree i _ l Hi eq_refl)) as (ph' & Hph' & Hst).
  apply Hst. congruence.
Qed.

Lemma finished_caller_has_started_a_run_witness :
  ∃ m, exec 5 "library/app" "v1" in_turn (init 2 registry0) = Some m
       ∧ transfers (shared m) ≠ [].
Proof.
  eexists. split; [vm_compute; reflexivity|].
  eapply (finished_caller_has_started_a_run 5 "library/app" "v1" in_turn 2
            registry0 _ _ _ 0%nat 1%positive).
  Unshelve.
  - reflexivity.
  - intros j p Hp. destruct j as [|[|j]]; simpl in Hp; [| |done];
      injection Hp as <-; by eexists.
  - intros l Hl. done.
  - vm_compute. reflexivity.
Defined.

(** ** What a transfer run never touches *)

Lemma extends_refl im : extends im im.
Proof. by repeat split. Qed.

Lemma extends_trans im1 im2 im3 :
  extends im1 im2 -> extends im2 im3 -> extends im1 im3.
Proof.
  intros (? & ? & ? & ? & ?) (? & ? & ? & ? & ?).
  repeat split; [congruence..|]. by etrans.
Qed.

Lemma UpdateStatue_extends code message im :
  extends im (UpdateStatue code message im).
Proof. unfold UpdateStatue. repeat case_bool_decide; by repeat split. Qed.

(** The identity of the job through the blob loop and the wait. *)
Lemma sync_blobs_identity localrepo idx descs im wg :
  Name (sync_blobs localrepo idx descs im wg).1.1 = Name im
  ∧ Tag (sync_blobs localrepo idx descs im wg).1.1 = Tag im
  ∧ CreateTime (sync_blobs localrepo idx descs im wg).1.1 = CreateTime im
  ∧ name (sync_blobs localrepo idx descs im wg).1.1 = name im.
Proof.
  revert im wg. induction descs as [|d descs IH]; intros im wg; [done|].
  cbn [sync_blobs]. case_bool_decide; [|done].
  destruct (Blobs_Stat localrepo (Distribution.Digest d));
    match goal with
    | |- context [sync_blobs _ _ _ ?im1 ?wg1] =>
        destruct (IH im1 wg1) as (-> & -> & -> & ->)
    end; done.
Qed.

Lemma wait_identity repo idx wg im gbe :
  Name match wait repo idx wg im gbe with
       | Returns r | Panics r => r.1 end = Name im
  ∧ Tag match wait repo idx wg im gbe with
        | Returns r | Panics r => r.1 end = Tag im
  ∧ CreateTime match wait repo idx wg im gbe with
               | Returns r | Panics r => r.1 end = CreateTime im
  ∧ name match wait repo idx wg im gbe with
         | Returns r | Panics r => r.1 end = name im.
Proof.
  revert im gbe. induction wg as [|d wg IH]; intros im gbe; [done|].
  cbn [wait]. destruct (Blobs_Get repo d); [|apply IH].
  destruct (Images im !! idx ≫= _); [|done].
  match goal with
  | |- context [wait _ _ _ ?im1 ?b] =>
      destruct (IH im1 b) as (-> & -> & -> & ->)
  end. done.
Qed.

Lemma MirrorImage_extends repo localrepo desc m t :
  ∃ t' err, V2.MirrorImage repo localrepo desc m t = Returns (t', err)
            ∧ extends (job t) (job t').
Proof.
  destruct (MirrorImage_appends repo localrepo desc m t)
    as (t' & err & img & Hrun & Himg & _).
  exists t', err. split; [done|]. revert Hrun. unfold V2.MirrorImage.
  pose proof (sync_blobs_identity localrepo (length (Images (job t)))
                (References m)
                (set_Images (Images (job t) ++ [new_Image desc]) (job t)) [])
    as (Hn & Ht & Hc & Hnm).
  destruct (sync_blobs localrepo (length (Images (job t))) (References m)
              (set_Images (Images (job t) ++ [new_Image desc]) (job t)) [])
    as [[im wg] [e|]]; simpl in Hn, Ht, Hc, Hnm.
  - intros [= <- _]. simpl in *. repeat split; [done..|].
    rewrite Himg. by apply prefix_app_r.
  - pose proof (wait_identity repo (length (Images (job t))) wg im false)
      as (Hn' & Ht' & Hc' & Hnm').
    destruct (wait repo (length (Images (job t))) wg im false)
      as [[im' b]|[im' b]]; [|done].
    intros [= <- _]. simpl in *. repeat split; [congruence..|].
    rewrite Himg. by apply prefix_app_r.
Qed.

Lemma status_extends code message t im0 :
  extends im0 (job t) -> extends im0 (job (status code message t)).
Proof.
  intros H. eapply extends_trans; [done|]. apply UpdateStatue_extends.
Qed.

Lemma mirror_index_extends repo localrepo ms mds t im0 :
  extends im0 (job t) ->
  extends im0 (job match mirror_index repo localrepo ms mds t with
                   | Continue t1 | Return t1 | Panic t1 => t1
                   end).
Proof.
  revert t. induction mds as [|md mds IH]; intros t Hext; [done|].
  cbn [mirror_index]. case_bool_decide; [|by apply status_extends].
  destruct (Get ms _) as [m|e]; [|by apply status_extends].
  destruct (MirrorImage_extends repo localrepo (child_descriptor md) m t)
    as (t1 & err & -> & Hext1).
  assert (extends im0 (job t1)) by (by eapply extends_trans).
  destruct err; [by apply status_extends|by apply IH].
Qed.

(** X25: however a transfer run ends, by a return or by a panic, it has
    left the identity of its job (name, tag, creation time) as it was, and
    it has removed or changed none of the images that the job had: the
    images of the job afterwards begin with the images it had before. *)
Theorem mirrorimages_extends_job env t :
  extends (job t) (job match mirrorimages env t with
                       | Returns t' | Panics t' => t'
                       end).
Proof.
  unfold mirrorimages.
  destruct (client_NewRepository env) as [repo|e];
    [|apply status_extends, extends_refl].
  destruct (Manifests repo) as [ms|e]; [|apply status_extends, extends_refl].
  destruct (embedded_Repository env) as [localrepo err].
  set (t0 := match err with
             | Some e => status Unknown ("get local repository error: " ++ e) t
             | None => t
             end).
  assert (H0 : extends (job t) (job t0)).
  { unfold t0. destruct err; [apply status_extends|]; apply extends_refl. }
  destruct localrepo as [localrepo|]; [|done].
  destruct (Manifests localrepo) as [lms|e]; [|by apply status_extends].
  destruct (Tags_Get repo (Tag (job t0))) as [desc|e];
    [|by apply status_extends].
  destruct (Get lms (Distribution.Digest desc)) as [m|e];
    [|by apply status_extends].
  case_bool_decide.
  - destruct (MirrorImage_extends repo localrepo desc m t0)
      as (t1 & err1 & -> & Hext1).
    assert (extends (job t) (job t1)) by (by eapply extends_trans).
    apply status_extends. destruct err1; [by apply status_extends|done].
  - case_bool_decide; [|by apply status_extends].
    destruct m as [refs|mds]; [done|].
    pose proof (mirror_index_extends repo localrepo ms mds t0 (job t) H0) as Hi.
    destruct (mirror_index repo localrepo ms mds t0) as [t1|t1|t1];
      [by apply status_extends|done|done].
Qed.
